(** * ff: parallel directory search — the traversal core, embedded in Rocq

    The development follows the three C sources:

    - [src/ff.c]              shared ignore handles, [walk], [worker], [main];
    - [src/generic/message.c] the message queue;
    - [src/options.c]         [parse_options].

    Heap objects are kept in finite maps from addresses to contents, threads
    are small command sequences run under an explicit schedule, and the
    collaborators the sources only call (libgit2, PCRE, fnmatch, the
    filesystem) are fields of a [world] record. *)

From Stdlib Require Import Ascii.
From stdpp Require Import gmap gmultiset strings list.

Open Scope Z_scope.

(** ** Memory allocation

    [malloc] returns some address that is not in use; nothing else is known
    about it.  Every definition below is parametrised by an allocator, and
    the general results hold for all of them. *)

Record allocator := {
  alloc : gset nat → nat;
  alloc_fresh : ∀ X, alloc X ∉ X
}.

(** The allocator of the concrete runs: stdpp's [fresh], which picks an
    address above those in use. *)
Definition first_fit : allocator :=
  {| alloc := fresh; alloc_fresh := is_fresh |}.

(** C's [int] arithmetic, as GCC's atomic builtins perform it. *)
Definition wrap_int (z : Z) : Z := (z + 2 ^ 31) `mod` 2 ^ 32 - 2 ^ 31.

(** What a call does to the thread that makes it: it returns, it blocks, or
    it has no defined behaviour (a null or dangling pointer is dereferenced,
    an assertion fails). *)
Inductive outcome (T : Type) :=
  | Done (x : T)
  | Blocked
  | Fault.
Arguments Done {T} x.
Arguments Blocked {T}.
Arguments Fault {T}.

Definition of_option {T} (o : option T) : outcome T :=
  match o with Some x => Done x | None => Fault end.

Definition outcome_bind {T U} (f : T → outcome U) (o : outcome T) : outcome U :=
  match o with
  | Done x => f x
  | Blocked => Blocked
  | Fault => Fault
  end.

(** ** [shared_ptr]: the reference-counted ignore-scope handle (ff.c 30-59) *)

Module Shared.

(** A [git_repository] is opaque to ff; it is identified by a number. *)
Definition git_repository := nat.

(** [struct _shared_ptr]: both members are C pointers, [None] is [NULL]. *)
Record shared_ptr := {
  ptr : option git_repository;
  refcnt : option nat
}.

(** The part of memory the handles live in: the [int] cells obtained from
    [malloc], and the calls of [git_repository_free] made so far, oldest
    first, each with its argument. *)
Record heap := {
  cells : gmap nat Z;
  repo_frees : list (option git_repository)
}.

Definition empty_heap : heap := {| cells := ∅; repo_frees := [] |}.

(** libgit2's [git_repository_free] returns at once on [NULL]; the
    repositories really released are the non-null arguments. *)
Definition freed_repos (h : heap) : list git_repository :=
  omap id (repo_frees h).

(** How many times the repository [r] has been released. *)
Definition times_freed (r : git_repository) (h : heap) : nat :=
  List.length (filter (λ x, x = r) (freed_repos h)).

Section WithAllocator.

Variable A : allocator.

(** ff.c 36-45. *)
Definition make_shared (repo : option git_repository) (h : heap)
  : heap * shared_ptr :=
  let a := alloc A (dom (cells h)) in
  ({| cells := <[a := 1]> (cells h); repo_frees := repo_frees h |},
   {| ptr := repo; refcnt := Some a |}).

(** ff.c 47-54.  [None]: the assertion fails, or the counter cell is not
    live (undefined behaviour in C). *)
Definition free_shared (s : shared_ptr) (h : heap) : option heap :=
  a ← refcnt s;
  n ← cells h !! a;
  let n' := wrap_int (n - 1) in
  if decide (n' = 0)
  then Some {| cells := delete a (cells h);
               repo_frees := repo_frees h ++ [ptr s] |}
  else Some {| cells := <[a := n']> (cells h); repo_frees := repo_frees h |}.

(** ff.c 56-59. *)
Definition make_shared_copy (s : shared_ptr) (h : heap)
  : option (heap * shared_ptr) :=
  a ← refcnt s;
  n ← cells h !! a;
  Some ({| cells := <[a := wrap_int (n + 1)]> (cells h);
           repo_frees := repo_frees h |}, s).

(** ff.c 174-182, the ignore scope of a child directory.  [opened] is what
    [git_repository_open] stored through [&currentrepo.ptr]: [Some r] when
    it returned 0, [None] when it failed. *)
Definition child_repo (no_ignore : bool) (opened : option git_repository)
    (repo : shared_ptr) (h : heap) : option (heap * shared_ptr) :=
  let '(h1, currentrepo) := make_shared None h in
  if no_ignore then Some (h1, currentrepo)
  else match opened with
       | Some r => Some (h1, {| ptr := Some r; refcnt := refcnt currentrepo |})
       | None =>
           h2 ← free_shared currentrepo h1;
           make_shared_copy repo h2
       end.

(** ff.c 302-305 and 312-315, the ignore scope of a root: [opened] is what
    [git_repository_open_ext] left in [repo.ptr]. *)
Definition root_repo (no_ignore : bool) (opened : option git_repository)
    (h : heap) : heap * shared_ptr :=
  let '(h1, repo) := make_shared None h in
  if no_ignore then (h1, repo)
  else (h1, {| ptr := opened; refcnt := refcnt repo |}).

(** Calls made through the handles of one referent. *)
Inductive op := Dup | Rel | ChildFail.

Definition run_op (s : shared_ptr) (o : op) (h : heap) : option heap :=
  match o with
  | Dup => fst <$> make_shared_copy s h
  | Rel => free_shared s h
  | ChildFail => fst <$> child_repo false None s h
  end.

Fixpoint run_ops (s : shared_ptr) (tr : list op) (h : heap) : option heap :=
  match tr with
  | [] => Some h
  | o :: tr' => h' ← run_op s o h; run_ops s tr' h'
  end.

End WithAllocator.

(** The number of handles alive after a sequence of calls that starts with
    [n] of them; [None] when a call is made although no handle is left. *)
Fixpoint handles (n : nat) (tr : list op) : option nat :=
  match tr with
  | [] => Some n
  | o :: tr' =>
      match n with
      | O => None
      | S m => handles (match o with Rel => m | _ => S (S m) end) tr'
      end
  end.

End Shared.

(** ** The message queue (generic/message.c) *)

Module Queue.

(** Modelled from the spec: [QUEUE_PRIORITY_MAX] comes from message.h, which
    is not among the sources; the spec has [put_head] with "priority =
    +infinity".  As a [size_t] this is [SIZE_MAX]. *)
Definition QUEUE_PRIORITY_MAX : Z := 2 ^ 64 - 1.

(** Modelled from the spec: [QUEUE_PRIORITY_MIN] comes from message.h, which
    is not among the sources; the spec has [put_tail] with "priority =
    -infinity".  As a [size_t] this is [0]. *)
Definition QUEUE_PRIORITY_MIN : Z := 0.

Section WithMessage.

Context {message : Type}.

(** [struct _node]; [msg] and [next] are pointers, [None] is [NULL]. *)
Record node := {
  priority : Z;
  msg : option message;
  next : option nat
}.

(** [struct _queue].  [length] is the value of the semaphore, [nodes] the
    nodes obtained from [malloc] and not yet freed.  An operation's critical
    section and its semaphore call are taken as one step, so the mutex needs
    no state: a run of the model is a run of the program in which no other
    thread is scheduled between the two. *)
Record queue := {
  length : nat;
  head : option nat;
  tail : option nat;
  nodes : gmap nat node
}.

(** message.c 59-66. *)
Definition queue_new : queue :=
  {| length := 0; head := None; tail := None; nodes := ∅ |}.

Definition is_empty (q : queue) : bool :=
  match head q, tail q with
  | None, None => true
  | _, _ => false
  end.

Definition set_next (a : nat) (nx : option nat) (ns : gmap nat node)
  : option (gmap nat node) :=
  n ← ns !! a;
  Some (<[a := {| priority := priority n; msg := msg n; next := nx |}]> ns).

(** The loop of message.c 91-97, started at [p].  A list without a cycle is
    walked in at most as many steps as there are nodes; [fuel] bounds the
    walk, and [None] is a walk that dereferences a pointer to no live node
    or does not end. *)
Fixpoint walk_list (fuel : nat) (ns : gmap nat node) (tl : option nat)
    (prio : Z) (p : nat) : option nat :=
  match fuel with
  | O => None
  | S fuel' =>
      if decide (Some p = tl) then Some p
      else
        n ← ns !! p;
        if decide (priority n > prio)
        then match next n with
             | None => Some p
             | Some p' => walk_list fuel' ns tl prio p'
             end
        else Some p
  end.

Section WithAllocator.

Variable A : allocator.

(** message.c 77-107. *)
Definition queue_put (q : queue) (m : option message) (prio : Z)
  : option queue :=
  let new_node := alloc A (dom (nodes q)) in
  let ns := <[new_node := {| priority := prio; msg := m; next := None |}]>
              (nodes q) in
  if is_empty q
  then Some {| length := S (length q); head := Some new_node;
               tail := Some new_node; nodes := ns |}
  else
    p0 ← head q;
    p ← walk_list (S (size ns)) ns (tail q) prio p0;
    n ← ns !! p;
    ns1 ← set_next p (Some new_node) ns;
    ns2 ← set_next new_node (next n) ns1;
    Some {| length := S (length q); head := head q; tail := tail q;
            nodes := ns2 |}.

(** message.c 109-128. *)
Definition queue_put_head (q : queue) (m : option message) : option queue :=
  let new_node := alloc A (dom (nodes q)) in
  let ns := <[new_node := {| priority := QUEUE_PRIORITY_MAX; msg := m;
                             next := None |}]> (nodes q) in
  if is_empty q
  then Some {| length := S (length q); head := Some new_node;
               tail := Some new_node; nodes := ns |}
  else
    ns1 ← set_next new_node (head q) ns;
    Some {| length := S (length q); head := Some new_node; tail := tail q;
            nodes := ns1 |}.

(** message.c 130-149. *)
Definition queue_put_tail (q : queue) (m : option message) : option queue :=
  let new_node := alloc A (dom (nodes q)) in
  let ns := <[new_node := {| priority := QUEUE_PRIORITY_MIN; msg := m;
                             next := None |}]> (nodes q) in
  if is_empty q
  then Some {| length := S (length q); head := Some new_node;
               tail := Some new_node; nodes := ns |}
  else
    t ← tail q;
    ns1 ← set_next t (Some new_node) ns;
    Some {| length := S (length q); head := head q; tail := Some new_node;
            nodes := ns1 |}.

End WithAllocator.

(** message.c 151-172.  [sem_wait] blocks while the semaphore is 0. *)
Definition queue_get (q : queue) : outcome (option message * queue) :=
  match length q with
  | O => Blocked
  | S len =>
      of_option (
        h ← head q;
        n ← nodes q !! h;
        let ns := delete h (nodes q) in
        match next n with
        | Some nx => Some (msg n, {| length := len; head := Some nx;
                                     tail := tail q; nodes := ns |})
        | None => Some (msg n, {| length := len; head := None; tail := None;
                                  nodes := ns |})
        end)
  end.

(** The nodes reachable from [p], in list order, each with its priority and
    payload: what successive [queue_get]s would return. *)
Fixpoint chain (fuel : nat) (ns : gmap nat node) (p : option nat)
  : list (Z * option message) :=
  match fuel, p with
  | S fuel', Some a =>
      match ns !! a with
      | Some n => (priority n, msg n) :: chain fuel' ns (next n)
      | None => []
      end
  | _, _ => []
  end.

Definition contents (q : queue) : list (Z * option message) :=
  chain (size (nodes q)) (nodes q) (head q).

End WithMessage.

Arguments node : clear implicits.
Arguments queue : clear implicits.

End Queue.

(** ** Options (options.c, and the defaults of ff.c 262-270) *)

Module Options.

Import Shared.

(** [d_type] values of <dirent.h>. *)
Definition DT_UNKNOWN : Z := 0.
Definition DT_FIFO : Z := 1.
Definition DT_CHR : Z := 2.
Definition DT_DIR : Z := 4.
Definition DT_BLK : Z := 6.
Definition DT_REG : Z := 8.
Definition DT_LNK : Z := 10.
Definition DT_SOCK : Z := 12.

Inductive match_mode := NONE | REGEX | GLOB.

#[global] Instance match_mode_eq_dec : EqDecision match_mode.
Proof. solve_decision. Defined.

(** A compiled expression, as far as ff is concerned: the pattern and
    whether it was compiled with [PCRE_CASELESS]. *)
Record pcre := {
  re_pattern : string;
  re_caseless : bool
}.

(** Modelled from the spec: [regex_compile] is not among the sources.  The
    spec has the pattern "compiled once with case-fold flag derived from
    --ignore-case". *)
Definition regex_compile (pattern : string) (icase : bool) : pcre :=
  {| re_pattern := pattern; re_caseless := icase |}.

(** The union [opt->match]; [main] leaves it uninitialised. *)
Inductive matcher :=
  | Uninitialised
  | Re (re : pcre)
  | Pattern (pattern : string).

(** Modelled from the spec: options.h is not among the sources.  The fields
    are those of the spec's options snapshot, under the names ff.c and
    options.c use; [max_depth] and [nthreads] hold the [long] assigned to
    them.  [roots] is [argv[opt->optind .. argc)]; the queue and the
    flagman, which the C structure also points to, are part of the state of
    a run. *)
Record options := {
  mode : match_mode;
  only_type : Z;
  skip_hidden : bool;
  max_depth : Z;
  colorize : bool;
  icase : bool;
  no_ignore : bool;
  nthreads : Z;
  deterministic : bool;
  roots : list string;
  match_ : matcher
}.

Inductive status := OPTIONS_SUCCESS | OPTIONS_FAILURE | OPTIONS_HELP.

(** What [parse_options] writes to the standard error stream. *)
Inductive diagnostic :=
  | print_usage (msg : option string)
  | perror (s : string).

(** One return of [getopt_long]: the option character ([?] for an option it
    does not know) and [optarg]. *)
Record getopt_ret := {
  opt_c : ascii;
  optarg : option string
}.

(** Is this return of [getopt_long] the option [-i]? *)
Definition is_i (g : getopt_ret) : bool := bool_decide (opt_c g = "i"%char).

(** The C library as [parse_options] sees it: [strtoul s NULL 0] gives the
    value converted and whether it set [errno] to [ERANGE]; [opendir_ok]
    tells whether a directory can be opened. *)
Record libc := {
  strtoul : string → Z * bool;
  opendir_ok : string → bool
}.

(** The state [parse_options] works on: the options, the standard error
    stream (oldest first) and whether [errno] is [ERANGE]. *)
Record pstate := {
  opt : options;
  stderr : list diagnostic;
  erange : bool
}.

(** ff.c 262-270.  [isatty], [get_nprocs] and the value the uninitialised
    member [deterministic] happens to have are inputs. *)
Definition defaults (tty : bool) (nprocs : Z) (junk : bool) : options :=
  {| mode := NONE; only_type := DT_UNKNOWN; skip_hidden := true;
     max_depth := -1; colorize := tty; icase := false; no_ignore := false;
     nthreads := nprocs; deterministic := junk; roots := [];
     match_ := Uninitialised |}.

Definition set_mode (m : match_mode) (o : options) : options :=
  {| mode := m; only_type := only_type o; skip_hidden := skip_hidden o;
     max_depth := max_depth o; colorize := colorize o; icase := icase o;
     no_ignore := no_ignore o; nthreads := nthreads o;
     deterministic := deterministic o; roots := roots o;
     match_ := match_ o |}.

Definition set_only_type (t : Z) (o : options) : options :=
  {| mode := mode o; only_type := t; skip_hidden := skip_hidden o;
     max_depth := max_depth o; colorize := colorize o; icase := icase o;
     no_ignore := no_ignore o; nthreads := nthreads o;
     deterministic := deterministic o; roots := roots o;
     match_ := match_ o |}.

Definition set_skip_hidden (b : bool) (o : options) : options :=
  {| mode := mode o; only_type := only_type o; skip_hidden := b;
     max_depth := max_depth o; colorize := colorize o; icase := icase o;
     no_ignore := no_ignore o; nthreads := nthreads o;
     deterministic := deterministic o; roots := roots o;
     match_ := match_ o |}.

Definition set_max_depth (d : Z) (o : options) : options :=
  {| mode := mode o; only_type := only_type o; skip_hidden := skip_hidden o;
     max_depth := d; colorize := colorize o; icase := icase o;
     no_ignore := no_ignore o; nthreads := nthreads o;
     deterministic := deterministic o; roots := roots o;
     match_ := match_ o |}.

Definition set_icase (b : bool) (o : options) : options :=
  {| mode := mode o; only_type := only_type o; skip_hidden := skip_hidden o;
     max_depth := max_depth o; colorize := colorize o; icase := b;
     no_ignore := no_ignore o; nthreads := nthreads o;
     deterministic := deterministic o; roots := roots o;
     match_ := match_ o |}.

Definition set_no_ignore (b : bool) (o : options) : options :=
  {| mode := mode o; only_type := only_type o; skip_hidden := skip_hidden o;
     max_depth := max_depth o; colorize := colorize o; icase := icase o;
     no_ignore := b; nthreads := nthreads o;
     deterministic := deterministic o; roots := roots o;
     match_ := match_ o |}.

Definition set_nthreads (n : Z) (o : options) : options :=
  {| mode := mode o; only_type := only_type o; skip_hidden := skip_hidden o;
     max_depth := max_depth o; colorize := colorize o; icase := icase o;
     no_ignore := no_ignore o; nthreads := n;
     deterministic := deterministic o; roots := roots o;
     match_ := match_ o |}.

Definition set_deterministic (b : bool) (o : options) : options :=
  {| mode := mode o; only_type := only_type o; skip_hidden := skip_hidden o;
     max_depth := max_depth o; colorize := colorize o; icase := icase o;
     no_ignore := no_ignore o; nthreads := nthreads o;
     deterministic := b; roots := roots o; match_ := match_ o |}.

Definition set_roots (r : list string) (o : options) : options :=
  {| mode := mode o; only_type := only_type o; skip_hidden := skip_hidden o;
     max_depth := max_depth o; colorize := colorize o; icase := icase o;
     no_ignore := no_ignore o; nthreads := nthreads o;
     deterministic := deterministic o; roots := r; match_ := match_ o |}.

Definition set_match (m : matcher) (o : options) : options :=
  {| mode := mode o; only_type := only_type o; skip_hidden := skip_hidden o;
     max_depth := max_depth o; colorize := colorize o; icase := icase o;
     no_ignore := no_ignore o; nthreads := nthreads o;
     deterministic := deterministic o; roots := roots o; match_ := m |}.

Definition with_opt (f : options → options) (st : pstate) : pstate :=
  {| opt := f (opt st); stderr := stderr st; erange := erange st |}.

Definition report (d : diagnostic) (st : pstate) : pstate :=
  {| opt := opt st; stderr := stderr st ++ [d]; erange := erange st |}.

Definition set_erange (e : bool) (st : pstate) : pstate :=
  {| opt := opt st; stderr := stderr st; erange := erange st || e |}.

(** How one pass through the [switch] of options.c 69-136 ends: the loop
    goes on, [parse_options] returns, or an [assert] stops the process. *)
Inductive flow :=
  | Continue (st : pstate)
  | Return (r : status) (st : pstate)
  | AssertionFailed.

(** [(long)] of an [unsigned long]. *)
Definition to_long (z : Z) : Z := (z + 2 ^ 63) `mod` 2 ^ 64 - 2 ^ 63.

(** options.c 80-105: the [switch] on [optarg[0]]. *)
Definition type_of_char (c : ascii) : option Z :=
  match c with
  | "b"%char => Some DT_BLK
  | "c"%char => Some DT_CHR
  | "d"%char => Some DT_DIR
  | "n"%char => Some DT_FIFO
  | "l"%char => Some DT_LNK
  | "f"%char => Some DT_REG
  | "s"%char => Some DT_SOCK
  | _ => None
  end.

Section WithLibc.

Variable L : libc.

(** options.c 69-136. *)
Definition handle_option (g : getopt_ret) (st : pstate) : flow :=
  match opt_c g with
  | "d"%char =>
      match optarg g with
      | None => AssertionFailed
      | Some a =>
          let '(v, e) := strtoul L a in
          let st1 := set_erange e (with_opt (set_max_depth (to_long v)) st) in
          if bool_decide (max_depth (opt st1) = 0) || erange st1
          then Return OPTIONS_FAILURE
                 (report (print_usage (Some "Invalid argument for --depth")) st1)
          else Continue st1
      end
  | "t"%char =>
      match optarg g with
      | None => AssertionFailed
      | Some EmptyString => AssertionFailed
      | Some (String c _) =>
          match type_of_char c with
          | Some t => Continue (with_opt (set_only_type t) st)
          | None =>
              Return OPTIONS_FAILURE
                (report (print_usage (Some "Invalid argument for --type")) st)
          end
      end
  | "g"%char => Continue (with_opt (set_mode GLOB) st)
  | "H"%char => Continue (with_opt (set_skip_hidden false) st)
  | "I"%char => Continue (with_opt (set_no_ignore true) st)
  | "i"%char => Continue (with_opt (set_icase true) st)
  | "j"%char =>
      match optarg g with
      | None => AssertionFailed
      | Some a =>
          let '(v, e) := strtoul L a in
          let st1 := set_erange e (with_opt (set_nthreads (to_long v)) st) in
          if bool_decide (nthreads (opt st1) = 0) || erange st1
          then Return OPTIONS_FAILURE
                 (report (print_usage (Some "Invalid argument for --nthreads"))
                    st1)
          else Continue st1
      end
  | "D"%char => Continue (with_opt (set_deterministic true) st)
  | "h"%char => Return OPTIONS_HELP (report (print_usage None) st)
  | _ => Return OPTIONS_FAILURE (report (print_usage None) st)
  end.

(** options.c 67-137: the loop over the returns of [getopt_long]. *)
Fixpoint option_loop (gs : list getopt_ret) (st : pstate) : flow :=
  match gs with
  | [] => Continue st
  | g :: gs' =>
      match handle_option g st with
      | Continue st1 => option_loop gs' st1
      | stop => stop
      end
  end.

(** options.c 163-167: trailing slashes are cut while more than one
    character is left. *)
Fixpoint truncate_rev (r : list ascii) : list ascii :=
  match r with
  | "/"%char :: ((_ :: _) as r') => truncate_rev r'
  | _ => r
  end.

Definition truncate_slashes (s : string) : string :=
  String.string_of_list_ascii
    (reverse (truncate_rev (reverse (String.list_ascii_of_string s)))).

(** options.c 153-168: the loop over the directories; the result is the
    directories as the loop leaves them in [argv], or the first that cannot
    be opened. *)
Fixpoint check_dirs (args : list string) : string + list string :=
  match args with
  | [] => inr []
  | a :: args' =>
      if opendir_ok L a
      then match check_dirs args' with
           | inr rs => inr (truncate_slashes a :: rs)
           | inl bad => inl bad
           end
      else inl a
  end.

(** options.c 139-184: what follows the option loop.  [args] is
    [argv[optind .. argc)] as [getopt_long] leaves it. *)
Definition scan_arguments (args : list string) (st : pstate) : flow :=
  let '(pattern, dirs, st1) :=
    match args with
    | [] => (""%string, [], with_opt (set_mode NONE) st)
    | p :: dirs =>
        (p, dirs,
         if bool_decide (0 < String.length p)%nat
            && bool_decide (mode (opt st) = NONE)
         then with_opt (set_mode REGEX) st else st)
    end in
  match check_dirs dirs with
  | inl bad => Return OPTIONS_FAILURE
                 (report (print_usage None) (report (perror bad) st1))
  | inr rs =>
      let st2 := with_opt (set_roots rs) st1 in
      Return OPTIONS_SUCCESS
        match mode (opt st2) with
        | REGEX =>
            with_opt (set_match (Re (regex_compile pattern (icase (opt st2)))))
              st2
        | GLOB => with_opt (set_match (Pattern pattern)) st2
        | NONE => st2
        end
  end.

(** options.c 52-185. *)
Definition parse_options (gs : list getopt_ret) (args : list string)
    (st : pstate) : flow :=
  match option_loop gs st with
  | Continue st1 => scan_arguments args st1
  | stop => stop
  end.

End WithLibc.

(** ff.c 273-280: the exit status [main] returns right after
    [parse_options]; [None] when the run goes on (and an assertion that
    fails does not return from [main] at all). *)
Definition exit_after_parse (f : flow) : option Z :=
  match f with
  | Return OPTIONS_FAILURE _ => Some 1
  | Return OPTIONS_HELP _ => Some 0
  | _ => None
  end.

End Options.

(** ** The flagman *)

Module Flagman.

(** Modelled from the spec: flagman.c is not among the sources.  The spec
    has the flagman as a counter "with operations acquire (increment),
    release (decrement), wait (block until zero)". *)
Definition flagman_new : Z := 0.

(** Modelled from the spec: flagman.c is not among the sources; "acquire
    (increment)". *)
Definition flagman_acquire (count : Z) : Z := count + 1.

(** Modelled from the spec: flagman.c is not among the sources; "release
    (decrement)". *)
Definition flagman_release (count : Z) : Z := count - 1.

(** Modelled from the spec: flagman.c is not among the sources; "wait (block
    until zero)". *)
Definition flagman_wait (count : Z) : outcome () :=
  if decide (count = 0) then Done () else Blocked.

End Flagman.

(** ** The traversal: [walk], [worker] and [main] (ff.c 61-344) *)

Module FF.

Import Shared Options.

(** [struct dirent], the two members ff reads. *)
Record dirent := {
  d_name : string;
  d_type : Z
}.

(** What ff calls and does not define.  [opendir] gives the entries
    [readdir] returns, in its order, or [None] when the directory cannot be
    opened; the two libgit2 openers give the repository they store, or
    [None] when they fail; [git_ignore_path_is_ignored] gives the value left
    in [ignored]; [pcre_jit_exec] and [fnmatch] give their return value. *)
Record world := {
  opendir : string → option (list dirent);
  git_repository_open : string → option git_repository;
  git_repository_open_ext : string → option git_repository;
  git_ignore_path_is_ignored : git_repository → string → Z;
  pcre_jit_exec : pcre → string → Z;
  fnmatch : string → string → Z → Z;
  dircolor : string → string;
  DIRCOLOR_DIR : string;
  DIRCOLOR_RESET : string
}.

(** <fnmatch.h>, glibc. *)
Definition FNM_CASEFOLD : Z := 16.

(** ff.c 61-76; [message_new] only pairs the body with
    [message_body_free], so a queue payload is the body. *)
Record message_body := {
  depth : Z;
  len : nat;
  str : string;
  repo : shared_ptr
}.

Definition message_body_new (depth : Z) (len : nat) (str : string)
    (repo : shared_ptr) : message_body :=
  {| depth := depth; len := len; str := str; repo := repo |}.

(** The calls of a thread that touch what the threads share, in the order
    the thread makes them.  Each is one atomic step; a command that returns
    a handle passes it to the rest of the thread.
    [MessageFree] is [message_free]: [free_shared] on the body's handle.
    [Crash] is a call with a null pointer where the callee reads it. *)
Inductive cmd :=
  | Ret
  | Crash
  | Puts (line : string) (k : cmd)
  | FlagmanAcquire (k : cmd)
  | FlagmanRelease (k : cmd)
  | FlagmanWait (k : cmd)
  | ChildRepo (no_ignore : bool) (opened : option git_repository)
      (repo : shared_ptr) (k : shared_ptr → cmd)
  | RootRepo (no_ignore : bool) (opened : option git_repository)
      (k : shared_ptr → cmd)
  | MessageFree (b : message_body) (k : cmd)
  | QueuePut (b : message_body) (priority : Z) (k : cmd)
  | QueuePutHead (b : message_body) (k : cmd)
  | QueuePutTail (b : option message_body) (k : cmd)
  | PthreadCreate (k : cmd)
  | PthreadJoin (i : nat) (k : cmd).

(** The locals [worker] sets up in ff.c 200-222.  [extra] is the study data
    of [opt->match.re]; [re] itself stays [NULL] and the JIT entry point
    does not read it. *)
Record scratch := {
  extra : option pcre;
  glob_pattern : option string;
  glob_flags : Z
}.

(** ff.c 207-222.  [None]: the member of the union read is not the one
    [parse_options] wrote. *)
Definition worker_setup (o : options) : option scratch :=
  match mode o with
  | REGEX =>
      match match_ o with
      | Re re => Some {| extra := Some re; glob_pattern := None;
                         glob_flags := 0 |}
      | _ => None
      end
  | GLOB =>
      match match_ o with
      | Pattern p =>
          Some {| extra := None; glob_pattern := Some p;
                  glob_flags := if icase o then FNM_CASEFOLD else 0 |}
      | _ => None
      end
  | NONE => Some {| extra := None; glob_pattern := None; glob_flags := 0 |}
  end.

(** [size_t] of an [int]. *)
Definition to_size_t (z : Z) : Z := z `mod` 2 ^ 64.

Section WithWorld.

Variable w : world.
Variable o : options.

(** ff.c 114. *)
Definition is_dot (name : string) : bool :=
  bool_decide (name = "."%string) || bool_decide (name = ".."%string).

(** ff.c 120.  [readdir] returns no empty name; on one, the second test
    reads before the string, and the model answers no. *)
Definition hidden (name : string) : bool :=
  bool_decide (String.get 0 name = Some "."%char)
  || bool_decide (String.get (String.length name - 1) name = Some "~"%char).

(** ff.c 126-132. *)
Definition ignored (repo_ptr : option git_repository) (name : string)
  : bool :=
  negb (no_ignore o) &&
  match repo_ptr with
  | Some r => bool_decide (git_ignore_path_is_ignored w r name = 1)
  | None => false
  end.

(** ff.c 135-140.  [strncpy] copies [l_parent] characters of [parent]; were
    [parent] shorter, it would pad with zeros and the C string would end
    there. *)
Definition assemble (parent : string) (l_parent : nat) (name : string)
  : string :=
  if decide (l_parent ≤ String.length parent)%nat
  then String.substring 0 l_parent parent +:+ "/" +:+ name
  else parent.

(** ff.c 143-157: does the [switch] reach [success]?  [None] when the
    matcher is called with a null pattern. *)
Definition matches (sc : scratch) (name : string) : option bool :=
  match mode o with
  | REGEX => re ← extra sc; Some (bool_decide (0 < pcre_jit_exec w re name))
  | GLOB =>
      p ← glob_pattern sc;
      Some (bool_decide (fnmatch w p name (glob_flags sc) = 0))
  | NONE => Some true
  end.

(** ff.c 159-160. *)
Definition type_ok (e : dirent) : bool :=
  bool_decide (only_type o = DT_UNKNOWN)
  || bool_decide (only_type o = d_type e).

(** ff.c 85-93: the line written, without its newline.  dircolors.h is not
    among the sources: its two macros and [dircolor] are fields of the
    world. *)
Definition process_match (real_path dir_name base_name : string) : string :=
  if colorize o
  then DIRCOLOR_DIR w +:+ dir_name +:+ "/" +:+ DIRCOLOR_RESET w
       +:+ dircolor w real_path +:+ base_name +:+ DIRCOLOR_RESET w
  else real_path.

(** ff.c 110-191: the body of the loop for one entry; [rest] is what the
    loop does after it ([continue] goes there at once). *)
Definition walk_entry (sc : scratch) (parent : string) (l_parent : nat)
    (depth : Z) (repo : shared_ptr) (entry : dirent) (rest : cmd) : cmd :=
  let name := d_name entry in
  if is_dot name then rest
  else if skip_hidden o && hidden name then rest
  else if ignored (ptr repo) name then rest
  else
    let l_current := (l_parent + String.length name + 1)%nat in
    let current := assemble parent l_parent name in
    let queue_it :=
      if bool_decide (d_type entry = DT_DIR)
      then FlagmanAcquire
             (ChildRepo (no_ignore o)
                (if no_ignore o then None
                 else git_repository_open w current)
                repo
                (λ currentrepo,
                   QueuePut
                     (message_body_new (wrap_int (depth + 1)) l_current
                        current currentrepo)
                     (to_size_t (wrap_int (depth + 1))) rest))
      else rest in
    match matches sc name with
    | None => Crash
    | Some true =>
        if type_ok entry
        then Puts (process_match current parent name) queue_it
        else queue_it
    | Some false => queue_it
    end.

(** Modelled from the spec: [foreach_opendir] is a macro of macros.h, which
    is not among the sources.  The spec has "Open the directory; on failure,
    return silently", then "For each entry": the body runs once per entry
    [readdir] returns, in its order. *)
Definition foreach_opendir (parent : string) (body : dirent → cmd → cmd)
    (k : cmd) : cmd :=
  match opendir w parent with
  | None => k
  | Some es => foldr body k es
  end.

(** ff.c 95-193. *)
Definition walk (sc : scratch) (parent : string) (l_parent : nat) (depth : Z)
    (repo : shared_ptr) (k : cmd) : cmd :=
  if bool_decide (0 < max_depth o) && bool_decide (max_depth o ≤ depth)
  then k
  else foreach_opendir parent (walk_entry sc parent l_parent depth repo) k.

(** Modelled from the spec: [foreach_queue_get] is a macro of macros.h,
    which is not among the sources.  The spec has the worker loop as "item
    := queue.get(); if item == terminator, exit; else run Walker on the
    item, then flagman.release()", and the item "destroyed when the
    consuming worker finishes processing it": one pass is the body, then
    [message_free] on the message.  (The loop itself is [worker_step].) *)
Definition foreach_queue_get (body : message_body → cmd → cmd)
    (b : message_body) : cmd :=
  body b (MessageFree b Ret).

(** ff.c 228-242, one pass of the loop, for the message [b]. *)
Definition worker_item (sc : scratch) (b : message_body) : cmd :=
  foreach_queue_get
    (λ b k, walk sc (str b) (len b) (depth b) (repo b) (FlagmanRelease k)) b.

(** ff.c 302-308 and 312-319: one initial job. *)
Definition seed (path : string) (l : nat) (k : cmd) : cmd :=
  RootRepo (no_ignore o)
    (if no_ignore o then None else git_repository_open_ext w path)
    (λ repo, QueuePutHead (message_body_new 0 l path repo) k).

Definition repeat_cmd (n : nat) (c : cmd → cmd) (k : cmd) : cmd :=
  Nat.iter n c k.

Fixpoint join_from (i n : nat) (k : cmd) : cmd :=
  match n with
  | O => k
  | S n' => PthreadJoin i (join_from (S i) n' k)
  end.

(** ff.c 290-343: [main] from [flagman_acquire] to [return 0]. *)
Definition main : cmd :=
  let n := Z.to_nat (nthreads o) in
  FlagmanAcquire
    (repeat_cmd n PthreadCreate
       ((if bool_decide (roots o = []) then seed "." 1 else id)
          (foldr (λ arg k, seed arg (String.length arg) k)
             (FlagmanWait
                (repeat_cmd n (QueuePutTail None) (join_from 0 n Ret)))
             (roots o)))).

(** The directories a traversal is to expand, each with its depth and the
    ignore scope in effect in it: the roots, and below a directory that is
    within the depth limit and can be opened, every entry of type directory
    that passes the hidden and the ignore filter. *)
Inductive reachable : Z → string → option git_repository → Prop :=
  | reachable_root path :
      path ∈ (if bool_decide (roots o = []) then ["."%string] else roots o) →
      reachable 0 path
        (if no_ignore o then None else git_repository_open_ext w path)
  | reachable_child d parent scope es e :
      reachable d parent scope →
      ¬ (0 < max_depth o ≤ d) →
      opendir w parent = Some es →
      e ∈ es →
      is_dot (d_name e) = false →
      skip_hidden o && hidden (d_name e) = false →
      ignored scope (d_name e) = false →
      d_type e = DT_DIR →
      reachable (d + 1) (parent +:+ "/" +:+ d_name e)
        (if no_ignore o then None
         else match git_repository_open w (parent +:+ "/" +:+ d_name e) with
              | Some r => Some r
              | None => scope
              end).

(** The lines a run is to print: one for every entry of a reachable
    directory within the depth limit that passes the hidden and the ignore
    filter, matches the pattern and has the type asked for. *)
Definition expected (sc : scratch) (line : string) : Prop :=
  ∃ d parent scope es e,
    reachable d parent scope ∧
    ¬ (0 < max_depth o ≤ d) ∧
    opendir w parent = Some es ∧
    e ∈ es ∧
    is_dot (d_name e) = false ∧
    skip_hidden o && hidden (d_name e) = false ∧
    ignored scope (d_name e) = false ∧
    matches sc (d_name e) = Some true ∧
    type_ok e = true ∧
    line = process_match (parent +:+ "/" +:+ d_name e) parent (d_name e).

End WithWorld.

(** [until k c]: on every path, the thread [c] makes no call of
    [flagman_release] and does not stop before it has become [k]. *)
Inductive until (k : cmd) : cmd → Prop :=
  | until_here : until k k
  | until_Puts line c : until k c → until k (Puts line c)
  | until_FlagmanAcquire c : until k c → until k (FlagmanAcquire c)
  | until_ChildRepo ni opened r f :
      (∀ s, until k (f s)) → until k (ChildRepo ni opened r f)
  | until_QueuePut b prio c : until k c → until k (QueuePut b prio c).

(** [seeding c a p]: on every path, the thread [c] reaches [flagman_wait]
    having called [flagman_acquire] [a] times and [queue_put_head] [p]
    times. *)
Inductive seeding : cmd → nat → nat → Prop :=
  | seeding_FlagmanWait c : seeding (FlagmanWait c) 0 0
  | seeding_FlagmanAcquire c a p :
      seeding c a p → seeding (FlagmanAcquire c) (S a) p
  | seeding_PthreadCreate c a p :
      seeding c a p → seeding (PthreadCreate c) a p
  | seeding_RootRepo ni opened f a p :
      (∀ s, seeding (f s) a p) → seeding (RootRepo ni opened f) a p
  | seeding_QueuePutHead b c a p :
      seeding c a p → seeding (QueuePutHead b c) a (S p).

(** [releases c n]: on every path, the thread [c] runs to its end and calls
    [flagman_release] [n] times. *)
Inductive releases : cmd → nat → Prop :=
  | releases_Ret : releases Ret 0
  | releases_Puts line c n : releases c n → releases (Puts line c) n
  | releases_FlagmanAcquire c n :
      releases c n → releases (FlagmanAcquire c) n
  | releases_FlagmanRelease c n :
      releases c n → releases (FlagmanRelease c) (S n)
  | releases_FlagmanWait c n : releases c n → releases (FlagmanWait c) n
  | releases_ChildRepo ni opened r f n :
      (∀ s, releases (f s) n) → releases (ChildRepo ni opened r f) n
  | releases_RootRepo ni opened f n :
      (∀ s, releases (f s) n) → releases (RootRepo ni opened f) n
  | releases_MessageFree b c n : releases c n → releases (MessageFree b c) n
  | releases_QueuePut b prio c n :
      releases c n → releases (QueuePut b prio c) n
  | releases_QueuePutHead b c n :
      releases c n → releases (QueuePutHead b c) n
  | releases_QueuePutTail b c n :
      releases c n → releases (QueuePutTail b c) n
  | releases_PthreadCreate c n : releases c n → releases (PthreadCreate c) n
  | releases_PthreadJoin i c n : releases c n → releases (PthreadJoin i c) n.

(** A worker thread: created, at the head of its loop, inside a pass, or
    returned. *)
Inductive wstate :=
  | Created
  | Idle (sc : scratch)
  | Busy (sc : scratch) (c : cmd)
  | Exited.

(** What the threads share, and the threads: the queue [opt->q], the
    counter of [opt->flagman_lock], the counters of the shared handles, the
    lines written to the standard output, and [main] and the workers. *)
Record state := {
  q : Queue.queue message_body;
  flagman : Z;
  mem : heap;
  stdout : list string;
  main_thread : cmd;
  workers : list wstate
}.

Definition set_q (x : Queue.queue message_body) (s : state) : state :=
  {| q := x; flagman := flagman s; mem := mem s; stdout := stdout s;
     main_thread := main_thread s; workers := workers s |}.

Definition set_flagman (x : Z) (s : state) : state :=
  {| q := q s; flagman := x; mem := mem s; stdout := stdout s;
     main_thread := main_thread s; workers := workers s |}.

Definition set_mem (x : heap) (s : state) : state :=
  {| q := q s; flagman := flagman s; mem := x; stdout := stdout s;
     main_thread := main_thread s; workers := workers s |}.

Definition set_stdout (x : list string) (s : state) : state :=
  {| q := q s; flagman := flagman s; mem := mem s; stdout := x;
     main_thread := main_thread s; workers := workers s |}.

Definition set_main (x : cmd) (s : state) : state :=
  {| q := q s; flagman := flagman s; mem := mem s; stdout := stdout s;
     main_thread := x; workers := workers s |}.

Definition set_workers (x : list wstate) (s : state) : state :=
  {| q := q s; flagman := flagman s; mem := mem s; stdout := stdout s;
     main_thread := main_thread s; workers := x |}.

Inductive tid := Main | Worker (i : nat).

Section WithProgram.

Variable A : allocator.
Variable w : world.
Variable o : options.

(** ff.c 288-292: the state in which [main] calls [flagman_acquire]. *)
Definition initial : state :=
  {| q := Queue.queue_new; flagman := Flagman.flagman_new; mem := empty_heap;
     stdout := [];
     main_thread := main w o; workers := [] |}.

(** One command of a thread: the rest of the thread and the new state. *)
Definition exec (c : cmd) (s : state) : outcome (cmd * state) :=
  match c with
  | Ret => Blocked
  | Crash => Fault
  | Puts line k => Done (k, set_stdout (stdout s ++ [line]) s)
  | FlagmanAcquire k =>
      Done (k, set_flagman (Flagman.flagman_acquire (flagman s)) s)
  | FlagmanRelease k =>
      Done (k, set_flagman (Flagman.flagman_release (flagman s)) s)
  | FlagmanWait k =>
      outcome_bind (λ _, Done (k, s)) (Flagman.flagman_wait (flagman s))
  | ChildRepo ni opened r k =>
      outcome_bind (λ '(h, cr), Done (k cr, set_mem h s))
        (of_option (child_repo A ni opened r (mem s)))
  | RootRepo ni opened k =>
      let '(h, r) := root_repo A ni opened (mem s) in
      Done (k r, set_mem h s)
  | MessageFree b k =>
      outcome_bind (λ h, Done (k, set_mem h s))
        (of_option (free_shared (repo b) (mem s)))
  | QueuePut b prio k =>
      outcome_bind (λ x, Done (k, set_q x s))
        (of_option (Queue.queue_put A (q s) (Some b) prio))
  | QueuePutHead b k =>
      outcome_bind (λ x, Done (k, set_q x s))
        (of_option (Queue.queue_put_head A (q s) (Some b)))
  | QueuePutTail b k =>
      outcome_bind (λ x, Done (k, set_q x s))
        (of_option (Queue.queue_put_tail A (q s) b))
  | PthreadCreate k => Done (k, set_workers (workers s ++ [Created]) s)
  | PthreadJoin i k =>
      match workers s !! i with
      | Some Exited => Done (k, s)
      | Some _ => Blocked
      | None => Fault
      end
  end.

(** One step of a worker (ff.c 195-257). *)
Definition worker_step (i : nat) (s : state) : outcome state :=
  match workers s !! i with
  | None => Fault
  | Some Created =>
      outcome_bind (λ sc, Done (set_workers (<[i := Idle sc]> (workers s)) s))
        (of_option (worker_setup o))
  | Some (Idle sc) =>
      outcome_bind
        (λ '(m, x),
           let st :=
             match m with
             | None => Exited
             | Some b => Busy sc (worker_item w o sc b)
             end in
           Done (set_workers (<[i := st]> (workers s)) (set_q x s)))
        (Queue.queue_get (q s))
  | Some (Busy sc Ret) => Done (set_workers (<[i := Idle sc]> (workers s)) s)
  | Some (Busy sc c) =>
      outcome_bind
        (λ '(k, s'), Done (set_workers (<[i := Busy sc k]> (workers s')) s'))
        (exec c s)
  | Some Exited => Blocked
  end.

(** One step of the thread [t]; [Blocked] also when [t] has returned. *)
Definition step (t : tid) (s : state) : outcome state :=
  match t with
  | Main =>
      outcome_bind (λ '(k, s'), Done (set_main k s')) (exec (main_thread s) s)
  | Worker i => worker_step i s
  end.

(** The steps of a schedule, one after the other. *)
Fixpoint run (sched : list tid) (s : state) : outcome state :=
  match sched with
  | [] => Done s
  | t :: sched' => outcome_bind (run sched') (step t s)
  end.

End WithProgram.

(** What is seen of the state a run ends in. *)
Definition observe {T} (f : state → T) (r : outcome state) : option T :=
  match r with
  | Done s => Some (f s)
  | _ => None
  end.

(** The process has ended: [main] has returned and so has every worker. *)
Definition finished (s : state) : Prop :=
  main_thread s = Ret ∧ Forall (λ t, t = Exited) (workers s).

End FF.

(** ** Concrete inputs

    A small filesystem, a C library and matchers that decide literal
    patterns, three command lines and the schedules under which they are
    run below. *)

Module Inputs.

Import Shared Options FF.

Definition to_lower (c : ascii) : ascii :=
  let n := nat_of_ascii c in
  if (65 <=? n)%nat && (n <=? 90)%nat then ascii_of_nat (n + 32) else c.

Fixpoint lower (s : string) : string :=
  match s with
  | EmptyString => EmptyString
  | String c s' => String (to_lower c) (lower s')
  end.

(** PCRE on a pattern without metacharacters: the subject matches when the
    pattern occurs in it, letters compared without case under
    [PCRE_CASELESS]; 1 on a match, [PCRE_ERROR_NOMATCH] otherwise. *)
Definition pcre_literal (re : pcre) (subject : string) : Z :=
  let fold := if re_caseless re then lower else id in
  match String.index 0 (fold (re_pattern re)) (fold subject) with
  | Some _ => 1
  | None => -1
  end.

(** [fnmatch] on a pattern without wildcards: the name matches when it is
    the pattern, letters compared without case under [FNM_CASEFOLD]; 0 on a
    match, [FNM_NOMATCH] otherwise. *)
Definition fnmatch_literal (pattern name : string) (flags : Z) : Z :=
  let fold := if bool_decide (Z.land flags FNM_CASEFOLD = 0) then id
              else lower in
  if bool_decide (fold pattern = fold name) then 0 else 1.

Definition dir (name : string) : dirent :=
  {| d_name := name; d_type := DT_DIR |}.
Definition file (name : string) : dirent :=
  {| d_name := name; d_type := DT_REG |}.

(** The tree: [a] and [c] are empty directories, [b] holds the directory
    [x], which holds the file [f], and [t] holds the file [README].  Nothing
    is a git repository. *)
Definition tree_opendir (path : string) : option (list dirent) :=
  if bool_decide (path = "a"%string) then Some [dir "."; dir ".."]
  else if bool_decide (path = "c"%string) then Some [dir "."; dir ".."]
  else if bool_decide (path = "b"%string)
  then Some [dir "."; dir ".."; dir "x"]
  else if bool_decide (path = "b/x"%string)
  then Some [dir "."; dir ".."; file "f"]
  else if bool_decide (path = "t"%string)
  then Some [dir "."; dir ".."; file "README"]
  else None.

Definition tree : world :=
  {| opendir := tree_opendir;
     git_repository_open := λ _, None;
     git_repository_open_ext := λ _, None;
     git_ignore_path_is_ignored := λ _ _, 0;
     pcre_jit_exec := pcre_literal;
     fnmatch := fnmatch_literal;
     dircolor := λ _, ""%string;
     DIRCOLOR_DIR := ""%string;
     DIRCOLOR_RESET := ""%string |}.

Definition digit (c : ascii) : option Z :=
  let n := nat_of_ascii c in
  if (48 <=? n)%nat && (n <=? 57)%nat then Some (Z.of_nat n - 48) else None.

Fixpoint decimal (acc : Z) (s : string) : Z :=
  match s with
  | EmptyString => acc
  | String c s' =>
      match digit c with
      | Some v => decimal (10 * acc + v) s'
      | None => acc
      end
  end.

(** [strtoul] on a decimal numeral. *)
Definition strtoul_decimal (s : string) : Z * bool :=
  let v := decimal 0 s in
  if bool_decide (v < 2 ^ 64) then (v, false) else (2 ^ 64 - 1, true).

Definition tree_libc : libc :=
  {| strtoul := strtoul_decimal;
     opendir_ok := λ path, bool_decide (is_Some (tree_opendir path)) |}.

(** [main] before [parse_options], on a machine with 8 processors and
    standard output not a terminal. *)
Definition start : pstate :=
  {| opt := defaults false 8 false; stderr := []; erange := false |}.

Definition short (c : ascii) : getopt_ret := {| opt_c := c; optarg := None |}.
Definition with_arg (c : ascii) (a : string) : getopt_ret :=
  {| opt_c := c; optarg := Some a |}.

Definition options_of (f : flow) : options :=
  match f with
  | Continue st | Return _ st => opt st
  | AssertionFailed => opt start
  end.

(** [ff -j 1 "" a c]: two roots, both empty. *)
Definition two_empty_roots : options :=
  options_of (parse_options tree_libc [with_arg "j" "1"]
                [""; "a"; "c"]%string start).

(** [ff -j 2 "" a b]. *)
Definition two_roots : options :=
  options_of (parse_options tree_libc [with_arg "j" "2"]
                [""; "a"; "b"]%string start).

(** [main] seeds both roots, then the only worker takes [c] and [a] in
    turn. *)
Definition one_worker_schedule : list tid :=
  [Main; Main; Main; Main; Main; Main;
   Worker 0; Worker 0; Worker 0; Worker 0; Worker 0; Worker 0; Worker 0].

(** [main] seeds both roots; worker 0 takes [b] and worker 1 takes [a] and
    finishes it; [main] wakes up and queues the two terminators; worker 1
    takes the first and returns; worker 0 walks [b], queues [b/x] and
    finishes [b]. *)
Definition early_wakeup_schedule : list tid :=
  [Main; Main; Main; Main; Main; Main; Main;
   Worker 0; Worker 1; Worker 0; Worker 1;
   Worker 1; Worker 1; Worker 1;
   Main; Main; Main;
   Worker 1;
   Worker 0; Worker 0; Worker 0; Worker 0; Worker 0; Worker 0; Worker 0].

(** Then worker 0 takes the second terminator and [main] joins both. *)
Definition early_exit_schedule : list tid :=
  early_wakeup_schedule ++ [Worker 0; Main; Main].

(** The message [walk] queues for [b/x]. *)
Definition item_b_x : message_body :=
  message_body_new 1 3 "b/x" {| ptr := None; refcnt := Some 1%nat |}.

Definition no_scratch : scratch :=
  {| extra := None; glob_pattern := None; glob_flags := 0 |}.

(** A repository opened at a root: one handle, counter at 1. *)
Definition opened_handle : shared_ptr :=
  {| ptr := Some 7%nat; refcnt := Some 0%nat |}.
Definition opened_heap : heap :=
  {| cells := {[ 0%nat := 1 ]}; repo_frees := [] |}.

(** [make_shared(NULL)] in an empty heap. *)
Definition null_heap : heap := fst (make_shared first_fit None empty_heap).
Definition null_handle : shared_ptr :=
  snd (make_shared first_fit None empty_heap).

(** [ff -g "" t] and [ff "" t]; [ff readme t] and [ff -i readme t]. *)
Definition glob_empty : options :=
  options_of (parse_options tree_libc [short "g"] [""; "t"]%string start).
Definition plain_empty : options :=
  options_of (parse_options tree_libc [] [""; "t"]%string start).
Definition regex_readme : options :=
  options_of (parse_options tree_libc [] ["readme"; "t"]%string start).
Definition regex_readme_icase : options :=
  options_of (parse_options tree_libc [short "i"] ["readme"; "t"]%string
                start).

(** The message [main] queues for the root [a], when [a] comes first. *)
Definition root_a : message_body :=
  message_body_new 0 1 "a" {| ptr := None; refcnt := Some 0%nat |}.

(** The message [main] queues for the root [t]. *)
Definition root_t : message_body :=
  message_body_new 0 1 "t" {| ptr := None; refcnt := Some 0%nat |}.

(** The match of a worker set up for the options [o]. *)
Definition worker_matches (o : options) (name : string) : option bool :=
  sc ← worker_setup o; matches tree o sc name.

(** The pass of a worker set up for the options [o] over the message [b]. *)
Definition worker_pass (o : options) (b : message_body) : option cmd :=
  sc ← worker_setup o; Some (worker_item tree o sc b).

(** The characters [--type] documents, and the seven arguments that
    consist of one of them. *)
Definition type_letters : list ascii :=
  ["b"; "c"; "d"; "n"; "l"; "f"; "s"]%char.
Definition type_arguments : list string :=
  ["b"; "c"; "d"; "n"; "l"; "f"; "s"]%string.

(** Messages put with [queue_put] one after the other, and the payloads
    the next [n] calls of [queue_get] return. *)
Fixpoint put_all (q : Queue.queue string) (l : list (string * Z))
  : option (Queue.queue string) :=
  match l with
  | [] => Some q
  | (m, prio) :: l' =>
      q' ← Queue.queue_put first_fit q (Some m) prio; put_all q' l'
  end.

Fixpoint get_all (n : nat) (q : Queue.queue string) : list (option string) :=
  match n with
  | O => []
  | S n' =>
      match Queue.queue_get q with
      | Done (m, q') => m :: get_all n' q'
      | _ => []
      end
  end.

End Inputs.

(** ** The queue as a list

    The list view of a queue: what its operations do to the sequence of
    nodes reached from [head]. *)

Module QueueModel.

Import Queue.

Section WithMessage.

Context {message : Type}.

(** A node as the list view of a queue has it: its address, its priority
    and its payload. *)
Record item := {
  addr : nat;
  prio : Z;
  payload : option message
}.

(** [linked ns p l]: following [next] from the pointer [p] through the live
    nodes [ns] visits exactly the nodes [l], and ends in [NULL]. *)
Fixpoint linked (ns : gmap nat (node message)) (p : option nat)
    (l : list item) : Prop :=
  match l with
  | [] => p = None
  | x :: l' =>
      p = Some (addr x) ∧
      ∃ nx, ns !! addr x
            = Some {| priority := prio x; msg := payload x; next := nx |} ∧
            linked ns nx l'
  end.

(** [holds q l]: the list of the queue [q], from its head, is [l]; no node
    occurs twice; and [tail] is [NULL] when the list is empty.  (When it is
    not empty nothing is said of [tail].) *)
Definition holds (q : queue message) (l : list item) : Prop :=
  linked (nodes q) (head q) l ∧ NoDup (addr <$> l) ∧ (l = [] → tail q = None).

(** Where [queue_put] stops in the list [l]: the index of the first node
    that is [tl], or whose priority is not above [p], or that is the last. *)
Fixpoint put_index (tl : option nat) (p : Z) (l : list item) : nat :=
  match l with
  | [] => 0%nat
  | x :: l' =>
      if decide (Some (addr x) = tl) then 0%nat
      else if decide (prio x > p)
           then match l' with [] => 0%nat | _ => S (put_index tl p l') end
           else 0%nat
  end.

(** The node a put operation allocates in the queue [q], as an item. *)
Definition new_item (A : allocator) (q : queue message) (p : Z)
    (m : option message) : item :=
  {| addr := alloc A (dom (nodes q)); prio := p; payload := m |}.

(** The operations that leave [tail] at the last node. *)
Inductive qop :=
  | PutHead (m : option message)
  | PutTail (m : option message)
  | Get.

(** The payloads the [Get]s of a sequence of operations return, on the
    queue of message.c ... *)
Fixpoint run_qops (A : allocator) (ops : list qop) (q : queue message)
  : outcome (list (option message)) :=
  match ops with
  | [] => Done []
  | PutHead m :: ops' =>
      outcome_bind (run_qops A ops') (of_option (queue_put_head A q m))
  | PutTail m :: ops' =>
      outcome_bind (run_qops A ops') (of_option (queue_put_tail A q m))
  | Get :: ops' =>
      outcome_bind
        (λ '(m, q'), outcome_bind (λ r, Done (m :: r)) (run_qops A ops' q'))
        (queue_get q)
  end.

(** ... and on a list used as a double-ended queue. *)
Fixpoint deque_qops (ops : list qop) (l : list (option message))
  : outcome (list (option message)) :=
  match ops with
  | [] => Done []
  | PutHead m :: ops' => deque_qops ops' (m :: l)
  | PutTail m :: ops' => deque_qops ops' (l ++ [m])
  | Get :: ops' =>
      match l with
      | [] => Blocked
      | m :: l' => outcome_bind (λ r, Done (m :: r)) (deque_qops ops' l')
      end
  end.

(** Messages put with [queue_put] one after the other, and the payloads
    the next [n] calls of [queue_get] return (none from a call that does
    not return). *)
Fixpoint puts (A : allocator) (ms : list (option message * Z))
    (q : queue message) : option (queue message) :=
  match ms with
  | [] => Some q
  | (m, p) :: ms' => q' ← queue_put A q m p; puts A ms' q'
  end.

Fixpoint gets (n : nat) (q : queue message) : list (option message) :=
  match n with
  | O => []
  | S n' =>
      match queue_get q with
      | Done (m, q') => m :: gets n' q'
      | _ => []
      end
  end.

(** [tail] points to the last node of the list, and the semaphore counts
    the nodes. *)
Definition exact (q : queue message) (l : list item) : Prop :=
  holds q l ∧ length q = List.length l ∧
  match last l with
  | Some x => tail q = Some (addr x)
  | None => True
  end.

End WithMessage.

Arguments item : clear implicits.
Arguments qop : clear implicits.

End QueueModel.

(** ** What the options do to the state of [parse_options] *)

Module OptionsModel.

Import Options.

(** Is this return of [getopt_long] the option [c]; is [c] among the
    options? *)
Definition is_opt (c : ascii) (g : getopt_ret) : bool :=
  bool_decide (opt_c g = c).
Definition has_opt (c : ascii) (gs : list getopt_ret) : bool :=
  existsb (is_opt c) gs.

(** What options of which [given] tells the presence leave of the state
    [st], in [st1]: the flags are switched, nothing is written, and a depth
    or a number of threads that was not 0 is not 0. *)
Definition effect (given : ascii → bool) (st st1 : pstate) : Prop :=
  skip_hidden (opt st1) = skip_hidden (opt st) && negb (given "H"%char) ∧
  no_ignore (opt st1) = no_ignore (opt st) || given "I"%char ∧
  icase (opt st1) = icase (opt st) || given "i"%char ∧
  deterministic (opt st1) = deterministic (opt st) || given "D"%char ∧
  mode (opt st1) = (if given "g"%char then GLOB else mode (opt st)) ∧
  colorize (opt st1) = colorize (opt st) ∧
  roots (opt st1) = roots (opt st) ∧
  match_ (opt st1) = match_ (opt st) ∧
  stderr st1 = stderr st ∧
  (max_depth (opt st) ≠ 0 → max_depth (opt st1) ≠ 0) ∧
  (nthreads (opt st) ≠ 0 → nthreads (opt st1) ≠ 0).

End OptionsModel.

(** ** The calls of a thread *)

Module Traces.

Import Shared Options FF.

(** A call of a thread, with the handle it returned where it returns
    one. *)
Inductive event :=
  | EPuts (line : string)
  | EFlagmanAcquire
  | EFlagmanRelease
  | EFlagmanWait
  | EChildRepo (no_ignore : bool) (opened : option git_repository)
      (repo result : shared_ptr)
  | ERootRepo (no_ignore : bool) (opened : option git_repository)
      (result : shared_ptr)
  | EMessageFree (b : message_body)
  | EQueuePut (b : message_body) (priority : Z)
  | EQueuePutHead (b : message_body)
  | EQueuePutTail (b : option message_body)
  | EPthreadCreate
  | EPthreadJoin (i : nat).

(** [performs c es]: the thread [c] can make the calls [es], in this order,
    and is then over; the handles returned are any. *)
Inductive performs : cmd → list event → Prop :=
  | performs_Ret : performs Ret []
  | performs_Puts line k es :
      performs k es → performs (Puts line k) (EPuts line :: es)
  | performs_FlagmanAcquire k es :
      performs k es → performs (FlagmanAcquire k) (EFlagmanAcquire :: es)
  | performs_FlagmanRelease k es :
      performs k es → performs (FlagmanRelease k) (EFlagmanRelease :: es)
  | performs_FlagmanWait k es :
      performs k es → performs (FlagmanWait k) (EFlagmanWait :: es)
  | performs_ChildRepo ni opened r k s es :
      performs (k s) es →
      performs (ChildRepo ni opened r k) (EChildRepo ni opened r s :: es)
  | performs_RootRepo ni opened k s es :
      performs (k s) es →
      performs (RootRepo ni opened k) (ERootRepo ni opened s :: es)
  | performs_MessageFree b k es :
      performs k es → performs (MessageFree b k) (EMessageFree b :: es)
  | performs_QueuePut b prio k es :
      performs k es → performs (QueuePut b prio k) (EQueuePut b prio :: es)
  | performs_QueuePutHead b k es :
      performs k es → performs (QueuePutHead b k) (EQueuePutHead b :: es)
  | performs_QueuePutTail b k es :
      performs k es → performs (QueuePutTail b k) (EQueuePutTail b :: es)
  | performs_PthreadCreate k es :
      performs k es → performs (PthreadCreate k) (EPthreadCreate :: es)
  | performs_PthreadJoin i k es :
      performs k es → performs (PthreadJoin i k) (EPthreadJoin i :: es).

(** The lines printed, and the directories queued: path, length, depth and
    priority. *)
Definition printed (es : list event) : list string :=
  omap (λ e, match e with EPuts line => Some line | _ => None end) es.

Definition queued (es : list event) : list (string * nat * Z * Z) :=
  omap (λ e, match e with
             | EQueuePut b prio => Some (str b, len b, depth b, prio)
             | _ => None
             end) es.

Section WithWorld.

Variable w : world.
Variable o : options.

(** The entries [walk] looks at in the directory [parent] at [depth]: none
    beyond the depth limit or when the directory cannot be opened. *)
Definition listing (parent : string) (depth : Z) : list dirent :=
  if bool_decide (0 < max_depth o) && bool_decide (max_depth o ≤ depth)
  then []
  else default [] (opendir w parent).

(** The entries that are not skipped: neither [.] nor [..], not hidden
    under [skip_hidden], not ignored in the scope. *)
Definition visible (scope : option git_repository) (e : dirent) : bool :=
  negb (is_dot (d_name e))
  && negb (skip_hidden o && hidden (d_name e))
  && negb (ignored w o scope (d_name e)).

(** The calls of [walk] for the entry [e], the child's handle being [s]. *)
Definition entry_events (sc : scratch) (parent : string) (l_parent : nat)
    (depth : Z) (repo s : shared_ptr) (e : dirent) : list event :=
  if visible (ptr repo) e then
    let current := assemble parent l_parent (d_name e) in
    (if bool_decide (matches w o sc (d_name e) = Some true) && type_ok o e
     then [EPuts (process_match w o current parent (d_name e))] else [])
    ++
    (if bool_decide (d_type e = DT_DIR)
     then [EFlagmanAcquire;
           EChildRepo (no_ignore o)
             (if no_ignore o then None else git_repository_open w current)
             repo s;
           EQueuePut
             (message_body_new (wrap_int (depth + 1))
                (l_parent + String.length (d_name e) + 1) current s)
             (to_size_t (wrap_int (depth + 1)))]
     else [])
  else [].

(** The calls of [walk] for the entries [es], one after the other. *)
Inductive walk_events (sc : scratch) (parent : string) (l_parent : nat)
    (depth : Z) (repo : shared_ptr) : list dirent → list event → Prop :=
  | walk_events_nil : walk_events sc parent l_parent depth repo [] []
  | walk_events_cons e es s evs :
      walk_events sc parent l_parent depth repo es evs →
      walk_events sc parent l_parent depth repo (e :: es)
        (entry_events sc parent l_parent depth repo s e ++ evs).

(** The entries [walk] prints, and those it queues. *)
Definition shown (sc : scratch) (scope : option git_repository)
    (e : dirent) : bool :=
  visible scope e
  && bool_decide (matches w o sc (d_name e) = Some true)
  && type_ok o e.

Definition entered (scope : option git_repository) (e : dirent) : bool :=
  visible scope e && bool_decide (d_type e = DT_DIR).

End WithWorld.

(** The calls other than [puts]. *)
Definition non_puts (es : list event) : list event :=
  List.filter (λ e, match e with EPuts _ => false | _ => true end) es.

(** The calls by which [main] queues the root [path]. *)
Definition seed_events (w : world) (o : options) (s : shared_ptr)
    (path : string) : list event :=
  [ERootRepo (no_ignore o)
     (if no_ignore o then None else git_repository_open_ext w path) s;
   EQueuePutHead (message_body_new 0 (String.length path) path s)].

End Traces.

(** ** The accounting of a run: flagman, queue and counter cells *)

Module Accounting.

Import Shared Options FF QueueModel.

(** The counter cell a message's handle points to. *)
Definition cell_of (b : message_body) : option nat := refcnt (repo b).

(** The end of a pass: the message is freed, and the pass is over.  The
    multiset has the counter cells of the handles the thread still owns. *)
Inductive finishing : cmd → gmultiset nat → Prop :=
  | finishing_Ret : finishing Ret ∅
  | finishing_MessageFree b a :
      cell_of b = Some a → finishing (MessageFree b Ret) {[+ a +]}.

(** [pass c n X]: [c] is what is left of a pass of a worker; [n] is what
    the pass has in the flagman: 1 for the message it works on until it
    releases it, and 1 more between a [flagman_acquire] and the [queue_put]
    that follows it; [X] has the counter cells of the handles the pass
    owns: that of its message, and that of the child between [ChildRepo]
    and [queue_put]. *)
Inductive pass : cmd → Z → gmultiset nat → Prop :=
  | pass_finishing c X : finishing c X → pass c 0 X
  | pass_FlagmanRelease c X : finishing c X → pass (FlagmanRelease c) 1 X
  | pass_Puts line c X : pass c 1 X → pass (Puts line c) 1 X
  | pass_FlagmanAcquire c X : pass c 2 X → pass (FlagmanAcquire c) 1 X
  | pass_ChildRepo ni opened r f a X :
      refcnt r = Some a → a ∈ X →
      (∀ s a', refcnt s = Some a' → pass (f s) 2 ({[+ a' +]} ⊎ X)) →
      pass (ChildRepo ni opened r f) 2 X
  | pass_QueuePut b prio c a X :
      cell_of b = Some a → pass c 1 X →
      pass (QueuePut b prio c) 2 ({[+ a +]} ⊎ X).

(** What a worker has in the flagman and the handles it owns; its locals
    are those [worker] sets up for the options. *)
Definition credit_of (o : options) (t : wstate) (n : Z) (X : gmultiset nat)
  : Prop :=
  match t with
  | Created | Exited => n = 0 ∧ X = ∅
  | Idle sc => n = 0 ∧ X = ∅ ∧ worker_setup o = Some sc
  | Busy sc c => pass c n X ∧ worker_setup o = Some sc
  end.

(** The same for all the workers together. *)
Inductive credits (o : options) : list wstate → Z → gmultiset nat → Prop :=
  | credits_nil : credits o [] 0 ∅
  | credits_cons t ts n m X Y :
      credit_of o t n X → credits o ts m Y →
      credits o (t :: ts) (n + m) (X ⊎ Y).

(** [main] after [flagman_wait], with [nw] workers created: terminators,
    joins of workers that exist, the end. *)
Inductive winding (nw : nat) : cmd → Prop :=
  | winding_Ret : winding nw Ret
  | winding_QueuePutTail c : winding nw c → winding nw (QueuePutTail None c)
  | winding_PthreadJoin i c :
      (i < nw)%nat → winding nw c → winding nw (PthreadJoin i c).

(** [driver c n nw X]: [c] is what is left of a [main] that acquires the
    flagman once for one initial job, up to its [flagman_wait], with [nw]
    workers created so far; [n] is what [main] has in the flagman: 1 from
    its [flagman_acquire] to its [queue_put_head]; [X] has the counter cell
    of the root's handle between [RootRepo] and [queue_put_head]. *)
Inductive driver : cmd → Z → nat → gmultiset nat → Prop :=
  | driver_FlagmanAcquire c nw :
      driver c 1 nw ∅ → driver (FlagmanAcquire c) 0 nw ∅
  | driver_PthreadCreate c n nw X :
      driver c n (S nw) X → driver (PthreadCreate c) n nw X
  | driver_RootRepo ni opened f n nw :
      (∀ s a, refcnt s = Some a → driver (f s) n nw {[+ a +]}) →
      driver (RootRepo ni opened f) n nw ∅
  | driver_QueuePutHead b c a nw :
      cell_of b = Some a → driver c 0 nw ∅ →
      driver (QueuePutHead b c) 1 nw {[+ a +]}
  | driver_FlagmanWait c nw : winding nw c → driver (FlagmanWait c) 0 nw ∅.

(** The counter cells of the handles of the messages in a queue. *)
Definition queued_cells (l : list (item message_body)) : gmultiset nat :=
  list_to_set_disj (omap (λ x, payload x ≫= cell_of) l).

(** The heap has the counter cells the handles in [X] point to and no
    other, and each cell has the number of the handles that point to it. *)
Definition counted (h : heap) (X : gmultiset nat) : Prop :=
  ∀ a, cells h !! a
       = if decide (multiplicity a X = 0%nat) then None
         else Some (Z.of_nat (multiplicity a X)).

(** A state before [main] has passed [flagman_wait]: the queue holds
    messages only, the flagman counts them, the passes under way and the
    initial job not yet queued, and the counter cells count the handles, at
    most [k] of them. *)
Definition working (o : options) (k : nat) (s : state) : Prop :=
  ∃ (l : list (item message_body)) (m n : Z) (X Y : gmultiset nat),
    driver (main_thread s) m (List.length (workers s)) X ∧
    holds (q s) l ∧
    Queue.length (q s) = List.length l ∧
    Forall (λ x, ∃ b, payload x = Some b ∧ is_Some (cell_of b)) l ∧
    credits o (workers s) n Y ∧
    flagman s = Z.of_nat (List.length l) + n + m ∧
    counted (mem s) (X ⊎ queued_cells l ⊎ Y) ∧
    (size (X ⊎ queued_cells l ⊎ Y) ≤ k)%nat.

(** A state after [main] has passed [flagman_wait]: the flagman is 0, the
    queue holds terminators only, no worker has a pass under way beyond the
    freeing of its message, and the counter cells count the handles of the
    messages still to be freed. *)
Definition terminating (o : options) (k : nat) (s : state) : Prop :=
  ∃ (l : list (item message_body)) (Y : gmultiset nat),
    winding (List.length (workers s)) (main_thread s) ∧
    exact (q s) l ∧
    Forall (λ x, payload x = None) l ∧
    credits o (workers s) 0 Y ∧
    flagman s = 0 ∧
    counted (mem s) Y ∧
    (size Y ≤ k)%nat.

(** One or the other. *)
Definition accounted (o : options) (k : nat) (s : state) : Prop :=
  working o k s ∨ terminating o k s.

End Accounting.

(** ** What a run may write and queue *)

Module Output.

Import Shared Options FF.

(** The pointer of the handle [ChildRepo] gives (ff.c 174-182). *)
Definition child_scope (ni : bool) (opened : option git_repository)
    (r : shared_ptr) : option git_repository :=
  if ni then None
  else match opened with
       | Some g => Some g
       | None => ptr r
       end.

Section WithWorld.

Variable w : world.
Variable o : options.
Variable sc : scratch.

(** A message for a directory a traversal is to expand, with the length
    of its path, at a depth of at most [k]. *)
Definition wanted (k : nat) (b : message_body) : Prop :=
  reachable w o (depth b) (str b) (ptr (repo b)) ∧
  len b = String.length (str b) ∧
  0 ≤ depth b ≤ Z.of_nat k.

(** [sound k c]: on every path, the thread [c] writes expected lines only
    and queues wanted messages and terminators only. *)
Inductive sound (k : nat) : cmd → Prop :=
  | sound_Ret : sound k Ret
  | sound_Crash : sound k Crash
  | sound_Puts line c :
      expected w o sc line → sound k c → sound k (Puts line c)
  | sound_FlagmanAcquire c : sound k c → sound k (FlagmanAcquire c)
  | sound_FlagmanRelease c : sound k c → sound k (FlagmanRelease c)
  | sound_FlagmanWait c : sound k c → sound k (FlagmanWait c)
  | sound_ChildRepo (ni : bool) opened r f :
      (∀ cr, ptr cr = child_scope ni opened r → sound k (f cr)) →
      sound k (ChildRepo ni opened r f)
  | sound_RootRepo (ni : bool) opened f :
      (∀ r, ptr r = (if ni then None else opened) → sound k (f r)) →
      sound k (RootRepo ni opened f)
  | sound_MessageFree b c : sound k c → sound k (MessageFree b c)
  | sound_QueuePut b prio c :
      wanted k b → sound k c → sound k (QueuePut b prio c)
  | sound_QueuePutHead b c :
      wanted k b → sound k c → sound k (QueuePutHead b c)
  | sound_QueuePutTail c : sound k c → sound k (QueuePutTail None c)
  | sound_PthreadCreate c : sound k c → sound k (PthreadCreate c)
  | sound_PthreadJoin i c : sound k c → sound k (PthreadJoin i c).

(** A worker with the locals [sc], and a sound pass if it is in one. *)
Definition sound_worker (k : nat) (t : wstate) : Prop :=
  match t with
  | Created | Exited => True
  | Idle sc' => sc' = sc
  | Busy sc' c => sc' = sc ∧ sound k c
  end.

(** A state in which only expected lines have been written, only wanted
    messages are queued, and the threads are sound. *)
Definition faithful (k : nat) (s : state) : Prop :=
  Forall (expected w o sc) (stdout s) ∧
  sound k (main_thread s) ∧
  Forall (sound_worker k) (workers s) ∧
  map_Forall (λ _ n, ∀ b, Queue.msg n = Some b → wanted k b)
    (Queue.nodes (q s)).

End WithWorld.

End Output.

(** ** What a run has expanded *)

Module Progress.

Import Shared Options FF QueueModel Traces Accounting Output.

(** A directory to expand: its depth, its path and the ignore scope in
    effect in it. *)
Definition task : Type := Z * string * option git_repository.

(** The directory a message stands for. *)
Definition key (b : message_body) : task := (depth b, str b, ptr (repo b)).

(** The message a put operation queues. *)
Definition put_by (c : cmd) : option message_body :=
  match c with
  | QueuePut b _ _ | QueuePutHead b _ => Some b
  | _ => None
  end.

(** The line a [puts] writes. *)
Definition put_line (c : cmd) : list string :=
  match c with
  | Puts line _ => [line]
  | _ => []
  end.

(** [yields c L T]: on every path, the thread [c] writes the lines [L] and
    queues messages for the directories [T]. *)
Inductive yields : cmd → list string → list task → Prop :=
  | yields_any c : yields c [] []
  | yields_Puts line c L T :
      yields c L T → yields (Puts line c) (line :: L) T
  | yields_FlagmanAcquire c L T :
      yields c L T → yields (FlagmanAcquire c) L T
  | yields_PthreadCreate c L T :
      yields c L T → yields (PthreadCreate c) L T
  | yields_ChildRepo (ni : bool) opened r f L T :
      (∀ cr, ptr cr = child_scope ni opened r → yields (f cr) L T) →
      yields (ChildRepo ni opened r f) L T
  | yields_RootRepo (ni : bool) opened f L T :
      (∀ r, ptr r = (if ni then None else opened) → yields (f r) L T) →
      yields (RootRepo ni opened f) L T
  | yields_QueuePut b prio c L T :
      yields c L T → yields (QueuePut b prio c) L (key b :: T)
  | yields_QueuePutHead b c L T :
      yields c L T → yields (QueuePutHead b c) L (key b :: T).

Section WithWorld.

Variable w : world.
Variable o : options.
Variable sc : scratch.

(** The line [walk] writes for the entry [e] of the directory [t], and the
    directory it queues for it. *)
Definition entry_line (t : task) (e : dirent) : option string :=
  let '(d, parent, scope) := t in
  if shown w o sc scope e
  then Some (process_match w o (parent +:+ "/" +:+ d_name e) parent (d_name e))
  else None.

Definition entry_child (t : task) (e : dirent) : option task :=
  let '(d, parent, scope) := t in
  if entered w o scope e
  then Some (d + 1, parent +:+ "/" +:+ d_name e,
             if no_ignore o then None
             else match git_repository_open w (parent +:+ "/" +:+ d_name e) with
                  | Some r => Some r
                  | None => scope
                  end)
  else None.

Definition lines_of (t : task) : list string :=
  omap (entry_line t) (listing w o t.1.2 t.1.1).

Definition children_of (t : task) : list task :=
  omap (entry_child t) (listing w o t.1.2 t.1.1).

(** The directories [main] is to queue. *)
Definition root (t : task) : Prop :=
  ∃ path,
    path ∈ (if bool_decide (roots o = []) then ["."%string] else roots o) ∧
    t = (0, path, if no_ignore o then None else git_repository_open_ext w path).

(** What is known of a pass under way: the directory it expands, and the
    lines and the directories it has still to yield. *)
Definition ghost : Type := task * list string * list task.

(** A directory is known when it has been expanded, when a message for it
    is in the queue, or when a pass expands it. *)
Definition known (E : task → Prop) (l : list (item message_body))
    (gs : list (option ghost)) (t : task) : Prop :=
  E t ∨
  (∃ x b, x ∈ l ∧ payload x = Some b ∧ key b = t) ∨
  (∃ L T, Some (t, L, T) ∈ gs).

(** A worker and what is known of its pass. *)
Definition attends (E : task → Prop) (l : list (item message_body))
    (gs : list (option ghost)) (out : list string) (t : wstate)
    (g : option ghost) : Prop :=
  match t, g with
  | Busy _ c, Some (tk, L, T) =>
      yields c L T ∧
      (∀ line, line ∈ lines_of tk → line ∈ out ∨ line ∈ L) ∧
      (∀ ch, ch ∈ children_of tk → known E l gs ch ∨ ch ∈ T)
  | Busy _ _, None => False
  | _, None => True
  | _, Some _ => False
  end.

(** A state in which every root is known or still to be queued by [main],
    and every directory expanded has its lines written and its children
    known. *)
Definition expanding (s : state) : Prop :=
  ∃ (E : task → Prop) (l : list (item message_body))
    (gs : list (option ghost)) (Tm : list task),
    holds (q s) l ∧
    Queue.length (q s) = List.length l ∧
    yields (main_thread s) [] Tm ∧
    (∀ t, root t → known E l gs t ∨ t ∈ Tm) ∧
    Forall2 (attends E l gs (stdout s)) (workers s) gs ∧
    (∀ t, E t →
          (∀ line, line ∈ lines_of t → line ∈ stdout s) ∧
          (∀ ch, ch ∈ children_of t → known E l gs ch)).

(** Every expected line has been written. *)
Definition complete (s : state) : Prop :=
  ∀ line, expected w o sc line → line ∈ stdout s.

End WithWorld.

End Progress.

(** ** More concrete inputs *)

Module Runs.

Import Shared Options FF Queue QueueModel Traces Inputs.

(** A queue of one message, and its list. *)
Definition one_node : queue string :=
  {| length := 1; head := Some 0%nat; tail := Some 0%nat;
     nodes := {[ 0%nat := {| priority := 5; msg := Some "m"%string;
                             next := None |} ]} |}.
Definition one_item : item string :=
  {| addr := 0; prio := 5; payload := Some "m"%string |}.

(** [ff -j 1 "" b]: one root, one worker. *)
Definition one_root : options :=
  options_of (parse_options tree_libc [with_arg "j" "1"] [""; "b"]%string
                start).

(** [main] starts the worker and queues [b]; the worker walks [b], queues
    [b/x] and walks it; [main] wakes up and queues the terminator. *)
Definition work_schedule : list tid :=
  [Main; Main; Main; Main] ++ replicate 14 (Worker 0) ++ [Main; Main].

(** Then the worker takes the terminator and [main] joins it. *)
Definition full_schedule : list tid := work_schedule ++ [Worker 0; Main].

(** The states these schedules end in. *)
Definition state_after (sched : list tid) : state :=
  match run first_fit tree one_root sched (initial tree one_root) with
  | Done s => s
  | _ => initial tree one_root
  end.

(** The handle of the root [b], and the handle [walk] is given for
    [b/x]: nothing is a repository, so it is the root's. *)
Definition handle_b : shared_ptr := {| ptr := None; refcnt := Some 0%nat |}.

(** The message [main] queues for the root [b]. *)
Definition root_b : message_body := message_body_new 0 1 "b" handle_b.

(** The calls of [walk] for [b], without a pattern, with the type filter
    [f], and with the pattern [readme]. *)
Definition queue_x : list event :=
  [EFlagmanAcquire;
   EChildRepo false None handle_b handle_b;
   EQueuePut (message_body_new 1 3 "b/x" handle_b) 1].
Definition walk_b : list event := EPuts "b/x" :: queue_x.

(** [ff readme b], and the locals of its workers. *)
Definition regex_b : options :=
  options_of (parse_options tree_libc [] ["readme"; "b"]%string start).
Definition regex_scratch : scratch :=
  {| extra := Some (regex_compile "readme" false); glob_pattern := None;
     glob_flags := 0 |}.

(** The calls of [main] for [ff -j 1 "" b]. *)
Definition main_b : list event :=
  [EFlagmanAcquire; EPthreadCreate;
   ERootRepo false None handle_b; EQueuePutHead root_b;
   EFlagmanWait; EQueuePutTail None; EPthreadJoin 0].

(** A C library on a machine where every path names a directory. *)
Definition all_dirs_libc : libc :=
  {| strtoul := strtoul_decimal; opendir_ok := λ _, true |}.

End Runs.

(** ** Proof steps

    [sizes H] closes a bound on the size of a multiset of handles from the
    bound [H]; [bind_cases H] takes apart a chain of binds that [H] says
    succeeds. *)

Ltac sizes H :=
  revert H;
  rewrite ?gmultiset_size_disj_union, ?gmultiset_size_empty,
    ?gmultiset_size_singleton;
  lia.

Ltac bind_cases H :=
  repeat match type of H with
         | ?e ≫= _ = Some _ =>
             let E := fresh "E" in
             destruct e eqn:E; cbn [mbind option_bind] in H; [| done]
         end.

(** * Results *)

(** ** Shared ignore handles *)

Section SharedFacts.

Import Shared.

Lemma wrap_int_small z : - 2 ^ 31 ≤ z < 2 ^ 31 → wrap_int z = z.
Proof.
  intros Hz. unfold wrap_int.
  rewrite Z.mod_small; lia.
Qed.

Lemma wrap_int_pred_ne z : wrap_int (z - 1) ≠ z.
Proof.
  unfold wrap_int. intros H.
  pose proof (Z.div_mod (z - 1 + 2 ^ 31) (2 ^ 32)) as D.
  lia.
Qed.

Lemma times_freed_snoc_None r h cs :
  times_freed r {| cells := cs; repo_frees := repo_frees h ++ [None] |}
  = times_freed r h.
Proof.
  unfold times_freed, freed_repos; simpl.
  rewrite omap_app; simpl. by rewrite app_nil_r.
Qed.

Lemma times_freed_snoc_Some r h cs :
  times_freed r {| cells := cs; repo_frees := repo_frees h ++ [Some r] |}
  = S (times_freed r h).
Proof.
  unfold times_freed, freed_repos; simpl.
  rewrite omap_app, filter_app, length_app; simpl.
  rewrite filter_cons_True by done. simpl. lia.
Qed.

Lemma times_freed_cells r h cs :
  times_freed r {| cells := cs; repo_frees := repo_frees h |}
  = times_freed r h.
Proof. done. Qed.

Lemma free_shared_last s a h :
  refcnt s = Some a → cells h !! a = Some 1 →
  free_shared s h
  = Some {| cells := delete a (cells h);
            repo_frees := repo_frees h ++ [ptr s] |}.
Proof.
  intros Ha Hc. unfold free_shared. rewrite Ha; simpl. rewrite Hc; simpl.
  done.
Qed.

Lemma free_shared_more s a h n :
  refcnt s = Some a → cells h !! a = Some n → 1 < n < 2 ^ 31 →
  free_shared s h
  = Some {| cells := <[a := n - 1]> (cells h); repo_frees := repo_frees h |}.
Proof.
  intros Ha Hc Hn. unfold free_shared. rewrite Ha; simpl. rewrite Hc; simpl.
  rewrite wrap_int_small by lia.
  destruct (decide (n - 1 = 0)); [lia | done].
Qed.

Lemma make_shared_copy_live s a h n :
  refcnt s = Some a → cells h !! a = Some n → 0 ≤ n < 2 ^ 31 - 1 →
  make_shared_copy s h
  = Some ({| cells := <[a := n + 1]> (cells h);
             repo_frees := repo_frees h |}, s).
Proof.
  intros Ha Hc Hn. unfold make_shared_copy. rewrite Ha; simpl.
  rewrite Hc; simpl. by rewrite wrap_int_small by lia.
Qed.

(** The path of [walk] on which the child is no repository: the fresh
    handle is released, which frees its counter and no repository, and the
    parent's counter goes up by one. *)
Lemma child_repo_failed_open A s a h n :
  refcnt s = Some a → cells h !! a = Some n → 0 ≤ n < 2 ^ 31 - 1 →
  child_repo A false None s h
  = Some ({| cells := <[a := n + 1]> (cells h);
             repo_frees := repo_frees h ++ [None] |}, s).
Proof.
  intros Ha Hc Hn. unfold child_repo, make_shared.
  set (a' := alloc A (dom (cells h))).
  assert (cells h !! a' = None) as Hfresh
    by (apply not_elem_of_dom, alloc_fresh).
  rewrite (free_shared_last _ a') by (done || apply lookup_insert_eq).
  simpl. rewrite delete_insert_id by done.
  by rewrite (make_shared_copy_live s a _ n).
Qed.

(** One call through a live handle of the referent [r], whose counter holds
    the number of handles. *)
Lemma run_op_live A s r a o h m :
  ptr s = Some r → refcnt s = Some a →
  cells h !! a = Some (Z.of_nat (S m)) → Z.of_nat (S m) < 2 ^ 31 - 1 →
  ∃ h', run_op A s o h = Some h' ∧
    match o, m with
    | Rel, O => cells h' !! a = None ∧ times_freed r h' = S (times_freed r h)
    | Rel, S _ =>
        cells h' !! a = Some (Z.of_nat m) ∧ times_freed r h' = times_freed r h
    | _, _ =>
        cells h' !! a = Some (Z.of_nat (S (S m)))
        ∧ times_freed r h' = times_freed r h
    end.
Proof.
  intros Hp Ha Hc Hm. destruct o; simpl.
  - rewrite (make_shared_copy_live s a h _ Ha Hc) by lia. simpl.
    eexists; split; [done |]. simpl. rewrite lookup_insert_eq.
    split; [f_equal; lia | apply times_freed_cells].
  - destruct m as [| m'].
    + rewrite (free_shared_last s a h Ha Hc).
      eexists; split; [done |]. simpl. rewrite lookup_delete_eq, Hp.
      split; [done | apply times_freed_snoc_Some].
    + rewrite (free_shared_more s a h _ Ha Hc) by lia.
      eexists; split; [done |]. simpl. rewrite lookup_insert_eq.
      split; [f_equal; lia | apply times_freed_cells].
  - rewrite (child_repo_failed_open A s a h _ Ha Hc) by lia. simpl.
    eexists; split; [done |]. simpl. rewrite lookup_insert_eq.
    split; [f_equal; lia | apply times_freed_snoc_None].
Qed.

Lemma run_ops_live A s r a :
  ptr s = Some r → refcnt s = Some a →
  ∀ tr m h n,
    cells h !! a = Some (Z.of_nat (S m)) →
    times_freed r h = 0%nat →
    handles (S m) tr = Some n →
    Z.of_nat (S m) + Z.of_nat (length tr) < 2 ^ 31 - 1 →
    ∃ h', run_ops A s tr h = Some h' ∧
      (n ≠ 0%nat →
       cells h' !! a = Some (Z.of_nat n) ∧ times_freed r h' = 0%nat) ∧
      (n = 0%nat →
       cells h' !! a = None ∧ times_freed r h' = 1%nat ∧
       ∃ tr0 h0, tr = tr0 ++ [Rel] ∧ run_ops A s tr0 h = Some h0 ∧
                 cells h0 !! a = Some 1 ∧ times_freed r h0 = 0%nat).
Proof.
  intros Hp Ha. induction tr as [| o tr IH]; intros m h n Hc Hf Hn Hlen.
  - simpl in Hn. injection Hn as <-. exists h. split; [done |].
    split; [done | intros [=]].
  - simpl in Hlen.
    destruct (run_op_live A s r a o h m Hp Ha Hc) as (h1 & Hrun & Hstep);
      [lia |].
    simpl. rewrite Hrun; simpl.
    assert (∀ m1, cells h1 !! a = Some (Z.of_nat (S m1)) →
                  times_freed r h1 = 0%nat →
                  handles (S m1) tr = Some n →
                  Z.of_nat (S m1) + Z.of_nat (length tr) < 2 ^ 31 - 1 →
                  ∃ h', run_ops A s tr h1 = Some h' ∧
      (n ≠ 0%nat →
       cells h' !! a = Some (Z.of_nat n) ∧ times_freed r h' = 0%nat) ∧
      (n = 0%nat →
       cells h' !! a = None ∧ times_freed r h' = 1%nat ∧
       ∃ tr0 h0, (o :: tr) = tr0 ++ [Rel] ∧
                 run_ops A s tr0 h = Some h0 ∧
                 cells h0 !! a = Some 1 ∧ times_freed r h0 = 0%nat)) as Go.
    { intros m1 Hc1 Hf1 Hn1 Hl1.
      destruct (IH m1 h1 n Hc1 Hf1 Hn1 Hl1) as (h' & Hr & Hpos & Hzero).
      exists h'. split; [done |]. split; [done |].
      intros Hz. destruct (Hzero Hz) as (? & ? & tr0 & h0 & -> & ? & ? & ?).
      repeat split; try done.
      exists (o :: tr0), h0. simpl. rewrite Hrun. simpl. repeat split; done. }
    destruct o; simpl in Hn.
    + destruct Hstep as [Hc1 Hf1]. apply (Go (S m)); [done | lia | done | lia].
    + destruct m as [| m'].
      * destruct Hstep as [Hc1 Hf1].
        destruct tr as [| o' tr']; [| done].
        simpl in Hn. injection Hn as <-.
        exists h1. split; [done |]. split; [done |]. intros _.
        repeat split; [done | lia |].
        exists [], h. simpl. repeat split; try done.
      * destruct Hstep as [Hc1 Hf1]. apply (Go m'); [done | lia | done | lia].
    + destruct Hstep as [Hc1 Hf1]. apply (Go (S m)); [done | lia | done | lia].
Qed.

(** C5.  Take a referent [r] just opened: one handle [s], its counter at 1,
    [r] not yet released.  After any sequence of duplications
    ([make_shared_copy]), releases ([free_shared]) and failed child opens of
    [walk] ([child_repo]), each made while a handle is left, and fewer than
    2^31 - 2 of them (the counter is an [int]):  as long as [n > 0] handles
    remain, the counter holds [n] and [r] has not been released;  once none
    remains, the counter cell is gone and [r] has been released exactly
    once, by the last call, a release that found the counter at 1.
    Each call touches the counter by one atomic instruction, and only the
    release that reads 0 goes on to free, when no handle is left to make
    another call: the interleavings of the calls are their sequences. *)
Theorem referent_freed_exactly_once (A : allocator) (s : shared_ptr)
    (r : git_repository) (a : nat) (h : heap) (tr : list op) (n : nat) :
  ptr s = Some r →
  refcnt s = Some a →
  cells h !! a = Some 1 →
  times_freed r h = 0%nat →
  handles 1 tr = Some n →
  Z.of_nat (length tr) < 2 ^ 31 - 2 →
  ∃ h', run_ops A s tr h = Some h' ∧
    (n ≠ 0%nat →
     cells h' !! a = Some (Z.of_nat n) ∧ times_freed r h' = 0%nat) ∧
    (n = 0%nat →
     cells h' !! a = None ∧ times_freed r h' = 1%nat ∧
     ∃ tr0 h0, tr = tr0 ++ [Rel] ∧ run_ops A s tr0 h = Some h0 ∧
               cells h0 !! a = Some 1 ∧ times_freed r h0 = 0%nat).
Proof.
  intros Hp Ha Hc Hf Hn Hlen.
  apply (run_ops_live A s r a Hp Ha tr 0%nat h n); [done | done | done | lia].
Qed.

Lemma referent_freed_exactly_once_witness :
  (ptr Inputs.opened_handle = Some 7%nat ∧
   refcnt Inputs.opened_handle = Some 0%nat ∧
   cells Inputs.opened_heap !! 0%nat = Some 1 ∧
   times_freed 7%nat Inputs.opened_heap = 0%nat ∧
   handles 1 [Dup; ChildFail; Rel; Rel; Rel] = Some 0%nat ∧
   Z.of_nat (length [Dup; ChildFail; Rel; Rel; Rel]) < 2 ^ 31 - 2) ∧
  ∃ h', run_ops first_fit Inputs.opened_handle
          [Dup; ChildFail; Rel; Rel; Rel] Inputs.opened_heap = Some h' ∧
    (0%nat ≠ 0%nat →
     cells h' !! 0%nat = Some (Z.of_nat 0) ∧ times_freed 7%nat h' = 0%nat) ∧
    (0%nat = 0%nat →
     cells h' !! 0%nat = None ∧ times_freed 7%nat h' = 1%nat ∧
     ∃ tr0 h0, [Dup; ChildFail; Rel; Rel; Rel] = tr0 ++ [Rel] ∧
               run_ops first_fit Inputs.opened_handle tr0 Inputs.opened_heap
               = Some h0 ∧
               cells h0 !! 0%nat = Some 1 ∧ times_freed 7%nat h0 = 0%nat).
Proof.
  split.
  - repeat split; try reflexivity.
  - apply (referent_freed_exactly_once first_fit Inputs.opened_handle 7%nat 0%nat
             Inputs.opened_heap [Dup; ChildFail; Rel; Rel; Rel] 0%nat);
      reflexivity.
Defined.

(** C9, as stated, fails: releasing the handle [make_shared(NULL)] returns
    changes the heap; the handle owned a counter cell, and the release frees
    it. *)
Lemma null_release_changes_state :
  ptr Inputs.null_handle = None ∧
  cells Inputs.null_heap !! 0%nat = Some 1 ∧
  free_shared Inputs.null_handle Inputs.null_heap
  = Some {| cells := ∅; repo_frees := [None] |} ∧
  free_shared Inputs.null_handle Inputs.null_heap ≠ Some Inputs.null_heap.
Proof.
  assert (free_shared Inputs.null_handle Inputs.null_heap
          = Some {| cells := ∅; repo_frees := [None] |}) as E
    by (vm_compute; reflexivity).
  repeat split; done.
Qed.

(** C9, amended.  Releasing a handle without referent releases no
    repository, and it is not a no-op: it takes one off the handle's
    counter, and when the counter reaches 0 it calls [git_repository_free]
    on [NULL] and frees the counter cell.  Such a handle is a legal value
    that owns a cell of the heap: [make_shared(NULL)] allocates one and sets
    it to 1. *)
Theorem null_handle_release (A : allocator) (s : shared_ptr) (h h' : heap) :
  ptr s = None →
  free_shared s h = Some h' →
  freed_repos h' = freed_repos h ∧
  h' ≠ h ∧
  (∃ a n, refcnt s = Some a ∧ cells h !! a = Some n ∧
     if decide (wrap_int (n - 1) = 0)
     then cells h' = delete a (cells h)
          ∧ repo_frees h' = repo_frees h ++ [None]
     else cells h' = <[a := wrap_int (n - 1)]> (cells h)
          ∧ repo_frees h' = repo_frees h) ∧
  (∃ a1, ptr (make_shared A None h).2 = None ∧
         refcnt (make_shared A None h).2 = Some a1 ∧
         cells h !! a1 = None ∧
         cells (make_shared A None h).1 !! a1 = Some 1).
Proof.
  intros Hp Hfree. unfold free_shared in Hfree.
  destruct (refcnt s) as [a |] eqn:Ha; [| done]. simpl in Hfree.
  destruct (cells h !! a) as [n |] eqn:Hc; [| done]. simpl in Hfree.
  assert (∃ a1, ptr (make_shared A None h).2 = None ∧
                refcnt (make_shared A None h).2 = Some a1 ∧
                cells h !! a1 = None ∧
                cells (make_shared A None h).1 !! a1 = Some 1) as Hmake.
  { exists (alloc A (dom (cells h))). simpl.
    repeat split; [apply not_elem_of_dom, alloc_fresh | apply lookup_insert_eq]. }
  destruct (decide (wrap_int (n - 1) = 0)) as [Hz | Hnz];
    injection Hfree as <-.
  - repeat split; try done.
    + unfold freed_repos; simpl. rewrite omap_app, Hp; simpl.
      apply app_nil_r.
    + intros E. apply (f_equal (λ x, cells x !! a)) in E. simpl in E.
      rewrite lookup_delete_eq, Hc in E. done.
    + exists a, n. repeat split; try done.
      destruct (decide (wrap_int (n - 1) = 0)); [by rewrite Hp | done].
  - repeat split; try done.
    + intros E. apply (f_equal (λ x, cells x !! a)) in E. simpl in E.
      rewrite lookup_insert_eq, Hc in E. injection E as E.
      by apply wrap_int_pred_ne in E.
    + exists a, n. repeat split; try done.
      destruct (decide (wrap_int (n - 1) = 0)); done.
Qed.

Lemma null_handle_release_witness :
  (ptr Inputs.null_handle = None ∧
   free_shared Inputs.null_handle Inputs.null_heap
   = Some {| cells := ∅; repo_frees := [None] |}) ∧
  freed_repos {| cells := ∅; repo_frees := [None] |}
  = freed_repos Inputs.null_heap.
Proof.
  split.
  - split; [reflexivity | vm_compute; reflexivity].
  - apply (null_handle_release first_fit Inputs.null_handle Inputs.null_heap
             {| cells := ∅; repo_frees := [None] |});
      [reflexivity | vm_compute; reflexivity].
Defined.

End SharedFacts.

(** ** The message queue *)

Section QueueFacts.

Import Queue.

Lemma set_next_live {message : Type} (a : nat) (nx : option nat)
    (ns : gmap nat (node message)) (n : node message) :
  ns !! a = Some n →
  set_next a nx ns
  = Some (<[a := {| priority := priority n; msg := msg n; next := nx |}]> ns).
Proof. intros H. unfold set_next. by rewrite H. Qed.

(** [queue_put] never puts a node before the head: on a queue that is not
    empty, whatever the priority put, the next [queue_get] returns the
    message that was at the head before. *)
Lemma queue_put_keeps_head {message : Type} (A : allocator)
    (x : queue message) (m : option message) (prio : Z) (x' : queue message)
    (h : nat) (n : node message) :
  head x = Some h →
  nodes x !! h = Some n →
  queue_put A x m prio = Some x' →
  ∃ x'', queue_get x' = Done (msg n, x'').
Proof.
  intros Hh Hn. unfold queue_put, is_empty. rewrite Hh. simpl.
  set (new := alloc A (dom (nodes x))).
  assert (h ≠ new) as Hne.
  { intros ->. by apply (alloc_fresh A (dom (nodes x))), elem_of_dom. }
  set (ns := <[new := _]> (nodes x)).
  assert (ns !! h = Some n) as Hns
    by (unfold ns; by rewrite lookup_insert_ne).
  match goal with
  | |- ?e ≫= _ = _ → _ => destruct e as [p |]; [| done]
  end.
  simpl.
  destruct (ns !! p) as [np |] eqn:Hp; [| done]. simpl.
  rewrite (set_next_live p (Some new) ns np Hp). simpl.
  set (ns1 := <[p := _]> ns).
  assert (∃ n1, ns1 !! h = Some n1 ∧ msg n1 = msg n) as (n1 & Hn1 & Hmsg).
  { unfold ns1. destruct (decide (p = h)) as [-> | Hph].
    - rewrite lookup_insert_eq. eexists; split; [done |]. simpl. congruence.
    - rewrite lookup_insert_ne by done. by exists n. }
  unfold set_next.
  destruct (ns1 !! new) as [nn |]; [| done]. simpl.
  intros [= <-]. unfold queue_get. simpl.
  rewrite lookup_insert_ne by done. rewrite Hn1. simpl. rewrite <- Hmsg.
  destruct (next n1); eexists; done.
Qed.

(** C2 fails on the code.  [queue_put] never puts a node before the head and
    puts it behind the first node whose priority is not above the new one:
    a message of priority 5 put after one of priority 1 is dequeued second;
    and of three messages of priority 1 the third put is dequeued before
    the second. *)
Theorem queue_put_breaks_priority_order :
  Inputs.get_all 2
    <$> Inputs.put_all queue_new [("low", 1); ("high", 5)]%string
  = Some [Some "low"; Some "high"]%string ∧
  contents
    <$> Inputs.put_all queue_new [("low", 1); ("high", 5)]%string
  = Some [(1, Some "low"); (5, Some "high")]%string ∧
  Inputs.get_all 3
    <$> Inputs.put_all queue_new
          [("first", 1); ("second", 1); ("third", 1)]%string
  = Some [Some "first"; Some "third"; Some "second"]%string.
Proof. repeat split; vm_compute; reflexivity. Qed.

End QueueFacts.

(** ** Options *)

Section OptionsFacts.

Import Shared Options FF.

(** C6 fails on the code.  With [-g] and the empty pattern the mode stays
    [GLOB], with the empty string as the glob, for every C library and every
    state [parse_options] starts in; with [-g] and no pattern at all the
    mode is reset to [NONE].  In the tree, [ff -g "" t] then prints nothing
    for the directory [t], where [ff "" t] prints [t/README]. *)
Theorem empty_pattern_with_glob_stays_glob (L : libc) (st : pstate) :
  parse_options L [Inputs.short "g"] [""%string] st
  = Return OPTIONS_SUCCESS
      (with_opt (set_match (Pattern "")) (with_opt (set_roots [])
         (with_opt (set_mode GLOB) st))) ∧
  parse_options L [Inputs.short "g"] [] st
  = Return OPTIONS_SUCCESS
      (with_opt (set_roots []) (with_opt (set_mode NONE)
         (with_opt (set_mode GLOB) st))) ∧
  mode Inputs.glob_empty = GLOB ∧
  mode Inputs.plain_empty = NONE ∧
  Inputs.worker_pass Inputs.glob_empty Inputs.root_t
  = Some (FlagmanRelease (MessageFree Inputs.root_t Ret)) ∧
  Inputs.worker_pass Inputs.plain_empty Inputs.root_t
  = Some (Puts "t/README" (FlagmanRelease (MessageFree Inputs.root_t Ret))).
Proof. repeat split; reflexivity. Qed.

Lemma option_loop_app L pre g post st0 st :
  option_loop L pre st0 = Continue st →
  option_loop L (pre ++ g :: post) st0
  = match handle_option L g st with
    | Continue st1 => option_loop L post st1
    | stop => stop
    end.
Proof.
  revert st0. induction pre as [| g0 pre IH]; intros st0 H; simpl in *.
  - by injection H as ->.
  - destruct (handle_option L g0 st0); try done. by apply IH.
Qed.

(** C8, as stated, fails: [dir] is none of the seven arguments, and
    [--type dir] is accepted, as [d]. *)
Lemma type_dir_is_accepted :
  ("dir"%string ∉ Inputs.type_arguments) ∧
  parse_options Inputs.tree_libc [Inputs.with_arg "t" "dir"] [] Inputs.start
  = Return OPTIONS_SUCCESS (with_opt (set_only_type DT_DIR) Inputs.start) ∧
  exit_after_parse
    (parse_options Inputs.tree_libc [Inputs.with_arg "t" "dir"] []
       Inputs.start) = None.
Proof.
  repeat split; try reflexivity.
  apply (bool_decide_unpack _). vm_compute. exact I.
Qed.

Lemma type_of_char_letters c :
  match type_of_char c with
  | Some _ => c ∈ Inputs.type_letters
  | None => c ∉ Inputs.type_letters
  end.
Proof.
  destruct c as [[] [] [] [] [] [] [] []]; simpl;
    apply (bool_decide_unpack _); vm_compute; exact I.
Qed.

(** C8, amended.  [--type] looks at the first character of its argument
    only.  When the option loop reaches [--type x...]: if [x] is one of
    [b c d n l f s] the option is accepted and sets the type of [x],
    whatever follows [x]; otherwise [parse_options] prints the usage and
    fails, and [main] exits with 1.  (On the empty argument the assertion of
    options.c 79 stops the process.) *)
Theorem type_checks_first_character (L : libc) (pre post : list getopt_ret)
    (args : list string) (st0 st : pstate) (c : ascii) (rest : string) :
  option_loop L pre st0 = Continue st →
  handle_option L (Inputs.with_arg "t" "") st = AssertionFailed ∧
  match type_of_char c with
  | Some t =>
      (c ∈ Inputs.type_letters) ∧
      handle_option L (Inputs.with_arg "t" (String c rest)) st
      = Continue (with_opt (set_only_type t) st)
  | None =>
      (c ∉ Inputs.type_letters) ∧
      parse_options L (pre ++ Inputs.with_arg "t" (String c rest) :: post)
        args st0
      = Return OPTIONS_FAILURE
          (report (print_usage (Some "Invalid argument for --type")) st) ∧
      exit_after_parse
        (parse_options L (pre ++ Inputs.with_arg "t" (String c rest) :: post)
           args st0) = Some 1
  end.
Proof.
  intros Hpre. split; [reflexivity |].
  pose proof (type_of_char_letters c) as Hc.
  unfold parse_options. rewrite (option_loop_app L pre _ post st0 st Hpre).
  unfold handle_option, Inputs.with_arg; simpl.
  destruct (type_of_char c); simpl; repeat split; done.
Qed.

Lemma type_checks_first_character_witness :
  option_loop Inputs.tree_libc [Inputs.short "H"] Inputs.start
  = Continue (with_opt (set_skip_hidden false) Inputs.start) ∧
  ("x"%char ∉ Inputs.type_letters) ∧
  exit_after_parse
    (parse_options Inputs.tree_libc
       ([Inputs.short "H"] ++ Inputs.with_arg "t" "xyz" :: [Inputs.short "g"])
       ["t"%string] Inputs.start) = Some 1.
Proof.
  split; [reflexivity |].
  pose proof (type_checks_first_character Inputs.tree_libc [Inputs.short "H"]
                [Inputs.short "g"] ["t"%string] Inputs.start
                (with_opt (set_skip_hidden false) Inputs.start)
                "x"%char "yz"%string eq_refl) as [_ H].
  simpl in H. destruct H as (H1 & _ & H3). split; [exact H1 | exact H3].
Defined.

(** C7, as stated, fails: in the tree, the pattern [readme] does not match
    the name [README], and with [-i] it does; [ff readme t] prints nothing
    for [t], and [ff -i readme t] prints [t/README]. *)
Lemma icase_changes_regex_result :
  mode Inputs.regex_readme = REGEX ∧
  mode Inputs.regex_readme_icase = REGEX ∧
  Inputs.worker_matches Inputs.regex_readme "README" = Some false ∧
  Inputs.worker_matches Inputs.regex_readme_icase "README" = Some true ∧
  Inputs.worker_pass Inputs.regex_readme Inputs.root_t
  = Some (FlagmanRelease (MessageFree Inputs.root_t Ret)) ∧
  Inputs.worker_pass Inputs.regex_readme_icase Inputs.root_t
  = Some (Puts "t/README" (FlagmanRelease (MessageFree Inputs.root_t Ret))).
Proof. repeat split; vm_compute; reflexivity. Qed.

Lemma handle_option_icase L g st :
  match handle_option L g st with
  | Continue st1 => icase (opt st1) = icase (opt st) || is_i g
  | Return r _ => r ≠ OPTIONS_SUCCESS
  | AssertionFailed => True
  end.
Proof.
  destruct g as [c a]. unfold handle_option, is_i; simpl.
  destruct c as [[] [] [] [] [] [] [] []]; simpl;
    try done; try (by rewrite orb_false_r); try (by rewrite orb_true_r).
  all: destruct a as [a |]; [| done].
  all: try destruct (strtoul L a) as [v e]; simpl.
  all: try (destruct (_ || _); simpl; [done | by rewrite orb_false_r]).
  destruct a as [| c rest]; [done |].
  destruct (type_of_char c); simpl; [by rewrite orb_false_r | done].
Qed.

Lemma option_loop_icase L gs st :
  match option_loop L gs st with
  | Continue st1 => icase (opt st1) = icase (opt st) || existsb is_i gs
  | Return r _ => r ≠ OPTIONS_SUCCESS
  | AssertionFailed => True
  end.
Proof.
  revert st. induction gs as [| g gs IH]; intros st; simpl.
  - by rewrite orb_false_r.
  - pose proof (handle_option_icase L g st) as Hg.
    destruct (handle_option L g st) as [st1 | r st1 |]; try done.
    specialize (IH st1).
    destruct (option_loop L gs st1); try done.
    rewrite IH, Hg. by rewrite orb_assoc.
Qed.

Lemma scan_arguments_matcher L args st st' :
  scan_arguments L args st = Return OPTIONS_SUCCESS st' →
  icase (opt st') = icase (opt st) ∧
  match mode (opt st') with
  | REGEX => ∃ pattern dirs, args = pattern :: dirs ∧
               match_ (opt st')
               = Re (regex_compile pattern (icase (opt st')))
  | GLOB => ∃ pattern dirs, args = pattern :: dirs ∧
              match_ (opt st') = Pattern pattern
  | NONE => True
  end.
Proof.
  unfold scan_arguments.
  destruct args as [| p dirs].
  - destruct (check_dirs L []) as [bad | rs]; [done |].
    simpl. intros [= <-]. simpl. done.
  - destruct (check_dirs L dirs) as [bad | rs]; [done |].
    destruct (bool_decide (0 < String.length p)%nat
              && bool_decide (mode (opt st) = NONE)) eqn:E; simpl.
    + intros [= <-]. simpl. split; [done |]. by exists p, dirs.
    + destruct (mode (opt st)) eqn:Hm; simpl; intros [= <-]; simpl;
        rewrite ?Hm; simpl; split; try done; by exists p, dirs.
Qed.

(** C7, amended.  [-i] reaches both matchers.  After a successful
    [parse_options], [icase] is set exactly when it was set before or [-i]
    is among the options; in mode [REGEX] the worker matches a name with the
    pattern compiled with the case-fold flag [icase]; in mode [GLOB] it
    calls [fnmatch] with [FNM_CASEFOLD] when [icase] is set and with no flag
    otherwise; in mode [NONE] every name matches. *)
Theorem icase_reaches_both_matchers (L : libc) (gs : list getopt_ret)
    (args : list string) (st st' : pstate) :
  parse_options L gs args st = Return OPTIONS_SUCCESS st' →
  icase (opt st') = icase (opt st) || existsb is_i gs ∧
  ∃ sc, worker_setup (opt st') = Some sc ∧
    match mode (opt st') with
    | REGEX =>
        ∃ pattern dirs, args = pattern :: dirs ∧
          ∀ w name,
            matches w (opt st') sc name
            = Some (bool_decide
                      (0 < pcre_jit_exec w
                             (regex_compile pattern (icase (opt st')))
                             name))
    | GLOB =>
        ∃ pattern dirs, args = pattern :: dirs ∧
          ∀ w name,
            matches w (opt st') sc name
            = Some (bool_decide
                      (fnmatch w pattern name
                         (if icase (opt st') then FNM_CASEFOLD else 0) = 0))
    | NONE => ∀ w name, matches w (opt st') sc name = Some true
    end.
Proof.
  unfold parse_options. intros H.
  pose proof (option_loop_icase L gs st) as Hloop.
  destruct (option_loop L gs st) as [st1 | r st1 |]; try done.
  - destruct (scan_arguments_matcher L args st1 st' H) as [Hi Hm].
    split; [by rewrite Hi |].
    unfold worker_setup, matches.
    destruct (mode (opt st')).
    + eexists; split; [done |]. done.
    + destruct Hm as (p & dirs & -> & ->).
      eexists; split; [done |]. exists p, dirs. done.
    + destruct Hm as (p & dirs & -> & ->).
      eexists; split; [done |]. exists p, dirs. done.
  - by injection H as -> ->.
Qed.

Lemma icase_reaches_both_matchers_witness :
  parse_options Inputs.tree_libc [Inputs.short "i"] ["readme"; "t"]%string
    Inputs.start
  = Return OPTIONS_SUCCESS
      (with_opt (set_match (Re (regex_compile "readme" true)))
         (with_opt (set_roots ["t"%string])
            (with_opt (set_mode REGEX)
               (with_opt (set_icase true) Inputs.start)))) ∧
  icase Inputs.regex_readme_icase
  = icase (opt Inputs.start) || existsb is_i [Inputs.short "i"].
Proof.
  split; [reflexivity |].
  apply (icase_reaches_both_matchers Inputs.tree_libc [Inputs.short "i"]
           ["readme"; "t"]%string Inputs.start _ eq_refl).
Defined.

End OptionsFacts.

(** ** The traversal *)

Section TraversalFacts.

Import Shared Options FF.

Lemma worker_setup_matches w o sc name :
  worker_setup o = Some sc → is_Some (matches w o sc name).
Proof.
  unfold worker_setup, matches.
  destruct (mode o); [by intros _ | |].
  - destruct (match_ o); intros [= <-]; done.
  - destruct (match_ o); intros [= <-]; done.
Qed.

Lemma walk_entry_until w o sc parent l_parent depth repo e k rest :
  (∀ name, is_Some (matches w o sc name)) →
  until k rest →
  until k (walk_entry w o sc parent l_parent depth repo e rest).
Proof.
  intros Hm Hrest. unfold walk_entry.
  destruct (is_dot (d_name e)); [done |].
  destruct (skip_hidden o && hidden (d_name e)); [done |].
  destruct (ignored w o (ptr repo) (d_name e)); [done |].
  destruct (Hm (d_name e)) as [b ->].
  destruct (bool_decide (d_type e = DT_DIR)).
  - assert (∀ c f, (∀ s, until k (f s)) →
                   until k (FlagmanAcquire (ChildRepo (no_ignore o) c repo f)))
      as Hq by (intros; by do 2 constructor).
    destruct b; [destruct (type_ok o e); [constructor |] |];
      apply Hq; intros s; by constructor.
  - destruct b; [destruct (type_ok o e); [by constructor |] |]; done.
Qed.

Lemma walk_until w o sc parent l_parent depth repo k :
  (∀ name, is_Some (matches w o sc name)) →
  until k (walk w o sc parent l_parent depth repo k).
Proof.
  intros Hm. unfold walk, foreach_opendir.
  destruct (bool_decide (0 < max_depth o) && bool_decide (max_depth o ≤ depth));
    [constructor |].
  destruct (opendir w parent) as [es |]; [| constructor].
  induction es as [| e es IH]; simpl; [constructor |].
  by apply walk_entry_until.
Qed.

Lemma until_releases k c n : until k c → releases k n → releases c n.
Proof.
  induction 1; intros Hk; try (constructor; auto); done.
Qed.

(** C10.  The pass of a worker over a dequeued message [b] makes no call of
    [flagman_release] until [walk] has returned, then calls it once, frees
    the message and is over: exactly one release on every path.  When the
    depth limit is reached or the directory cannot be opened, the release
    is the first thing the pass does.  A worker at the head of its loop that
    dequeues [b] starts exactly this pass. *)
Theorem worker_releases_once (w : world) (o : options) (sc : scratch)
    (b : message_body) :
  worker_setup o = Some sc →
  until (FlagmanRelease (MessageFree b Ret)) (worker_item w o sc b) ∧
  releases (worker_item w o sc b) 1 ∧
  (0 < max_depth o ≤ depth b →
   worker_item w o sc b = FlagmanRelease (MessageFree b Ret)) ∧
  (opendir w (str b) = None →
   worker_item w o sc b = FlagmanRelease (MessageFree b Ret)) ∧
  (∀ A i s x,
     workers s !! i = Some (Idle sc) →
     Queue.queue_get (q s) = Done (Some b, x) →
     worker_step A w o i s
     = Done (set_workers (<[i := Busy sc (worker_item w o sc b)]> (workers s))
               (set_q x s))).
Proof.
  intros Hsc.
  assert (until (FlagmanRelease (MessageFree b Ret)) (worker_item w o sc b))
    as Hu.
  { apply (walk_until w o sc (str b) (len b) (depth b) (repo b)).
    intros name. by apply worker_setup_matches. }
  split; [done |]. split.
  { apply (until_releases _ _ _ Hu). repeat constructor. }
  unfold worker_item, foreach_queue_get, walk, foreach_opendir.
  repeat split.
  - intros [H1 H2].
    rewrite (bool_decide_eq_true_2 _ H1), (bool_decide_eq_true_2 _ H2). done.
  - intros ->. by destruct (_ && _).
  - intros A i s x Hi Hget. unfold worker_step. rewrite Hi, Hget. done.
Qed.

Lemma worker_releases_once_witness :
  worker_setup Inputs.two_roots = Some Inputs.no_scratch ∧
  releases
    (worker_item Inputs.tree Inputs.two_roots Inputs.no_scratch
       Inputs.item_b_x) 1.
Proof.
  split; [reflexivity |].
  apply (worker_releases_once Inputs.tree Inputs.two_roots Inputs.no_scratch
           Inputs.item_b_x eq_refl).
Defined.

Lemma repeat_create_seeding n c a p :
  seeding c a p → seeding (repeat_cmd n PthreadCreate c) a p.
Proof.
  intros H. unfold repeat_cmd.
  induction n as [| n IH]; simpl; [done | by constructor].
Qed.

Lemma seed_seeding w o path l c a p :
  seeding c a p → seeding (seed w o path l c) a (S p).
Proof. intros H. unfold seed. constructor. intros s. by constructor. Qed.

(** Before it waits, [main] calls [flagman_acquire] once and
    [queue_put_head] once per root (once when there is no root), for every
    world and all options. *)
Lemma main_acquires_once w o :
  seeding (main w o) 1 (Nat.max 1 (length (roots o))).
Proof.
  unfold main. constructor. apply repeat_create_seeding.
  assert (∀ l c, seeding
                   (foldr (λ arg k, seed w o arg (String.length arg) k)
                      (FlagmanWait c) l) 0 (length l)) as Hroots.
  { intros l c. induction l as [| arg l IH]; simpl; [constructor |].
    by apply seed_seeding. }
  destruct (roots o) as [| r rs] eqn:Hr; simpl.
  - apply seed_seeding. constructor.
  - apply seed_seeding. apply Hroots.
Qed.

(** C1 fails on the code.  [main] acquires the flagman once, whatever the
    number of roots: for [ff -j 1 "" a c] it is one [flagman_acquire]
    followed by two [queue_put_head].  Under the schedule in which the
    worker handles both roots, the counter is 0 after the first root, with
    the second still in the queue; the worker comes to the release for the
    second root with the counter at 0, and the release takes it to -1. *)
Theorem second_root_release_goes_negative :
  seeding (main Inputs.tree Inputs.two_empty_roots) 1 2 ∧
  main Inputs.tree Inputs.two_empty_roots
  = FlagmanAcquire
      (PthreadCreate
         (RootRepo false None
            (λ repo,
               QueuePutHead (message_body_new 0 1 "a" repo)
                 (RootRepo false None
                    (λ repo,
                       QueuePutHead (message_body_new 0 1 "c" repo)
                         (FlagmanWait
                            (QueuePutTail None (PthreadJoin 0 Ret)))))))) ∧
  observe (λ s, (flagman s, Queue.length (q s)))
    (run first_fit Inputs.tree Inputs.two_empty_roots
       (take 9 Inputs.one_worker_schedule)
       (initial Inputs.tree Inputs.two_empty_roots))
  = Some (0, 1%nat) ∧
  observe (λ s, (flagman s, workers s !! 0%nat))
    (run first_fit Inputs.tree Inputs.two_empty_roots
       (take 12 Inputs.one_worker_schedule)
       (initial Inputs.tree Inputs.two_empty_roots))
  = Some (0, Some (Busy Inputs.no_scratch
                     (FlagmanRelease (MessageFree Inputs.root_a Ret)))) ∧
  observe flagman
    (run first_fit Inputs.tree Inputs.two_empty_roots
       Inputs.one_worker_schedule
       (initial Inputs.tree Inputs.two_empty_roots))
  = Some (-1).
Proof.
  split; [apply (main_acquires_once Inputs.tree Inputs.two_empty_roots) |].
  repeat split; vm_compute; reflexivity.
Qed.

(** C3 fails on the code.  [ff -j 2 "" a b]: worker 1 finishes the empty
    root [a] while worker 0 is still in [b]; the flagman is 0, [main] wakes
    up and queues the terminators; worker 0 then queues [b/x], behind the
    terminator at the head.  Worker 0 next dequeues that terminator and
    returns, with [b/x] still in the queue. *)
Theorem terminator_dequeued_before_work :
  observe (λ s, (Queue.contents (q s), workers s !! 0%nat))
    (run first_fit Inputs.tree Inputs.two_roots
       Inputs.early_wakeup_schedule
       (initial Inputs.tree Inputs.two_roots))
  = Some ([(0, None); (1, Some Inputs.item_b_x)],
          Some (Idle Inputs.no_scratch)) ∧
  observe (λ s, (Queue.contents (q s), workers s !! 0%nat))
    (run first_fit Inputs.tree Inputs.two_roots
       (Inputs.early_wakeup_schedule ++ [Worker 0])
       (initial Inputs.tree Inputs.two_roots))
  = Some ([(1, Some Inputs.item_b_x)], Some Exited).
Proof. split; vm_compute; reflexivity. Qed.

Lemma b_x_f_expected :
  expected Inputs.tree Inputs.two_roots Inputs.no_scratch "b/x/f".
Proof.
  exists 1, "b/x"%string, None,
    [Inputs.dir "."; Inputs.dir ".."; Inputs.file "f"], (Inputs.file "f").
  split.
  { apply (reachable_child Inputs.tree Inputs.two_roots 0 "b" None
             [Inputs.dir "."; Inputs.dir ".."; Inputs.dir "x"]
             (Inputs.dir "x")); try reflexivity.
    - apply (reachable_root Inputs.tree Inputs.two_roots "b").
      apply (bool_decide_unpack _). vm_compute. exact I.
    - vm_compute. intros [H _]. discriminate H.
    - apply list_elem_of_In. simpl. auto. }
  repeat split; try reflexivity.
  - vm_compute. intros [H _]. discriminate H.
  - apply list_elem_of_In. simpl. auto.
Qed.

(** C4 fails on the code.  In the same run of [ff -j 2 "" a b], once
    worker 0 has taken the second terminator [main] joins both workers and
    returns.  The file [b/x/f] is reachable, passes every filter and is to
    be printed; the process has ended having printed [b/x] only. *)
Theorem reachable_entry_never_printed :
  expected Inputs.tree Inputs.two_roots Inputs.no_scratch "b/x/f" ∧
  match run first_fit Inputs.tree Inputs.two_roots
          Inputs.early_exit_schedule (initial Inputs.tree Inputs.two_roots)
  with
  | Done s => finished s ∧ stdout s = ["b/x"%string]
              ∧ "b/x/f"%string ∉ stdout s
  | _ => False
  end.
Proof.
  split; [apply b_x_f_expected |].
  vm_compute. repeat split.
  - repeat constructor.
  - intros H. apply list_elem_of_In in H. simpl in H.
    destruct H as [H | []]. discriminate H.
Qed.

End TraversalFacts.

(** ** The queue as a list *)

Section QueueModelFacts.

Import Queue QueueModel.

Context {message : Type}.
Implicit Types (ns : gmap nat (node message)) (l : list (item message)).

Lemma linked_frame_insert ns p l a n :
  a ∉ addr <$> l → linked ns p l → linked (<[a := n]> ns) p l.
Proof.
  revert p. induction l as [| x l IH]; intros p Ha; simpl; [done |].
  intros (-> & nx & Hx & Hl). split; [done |]. exists nx.
  apply not_elem_of_cons in Ha as [Hne Ha].
  rewrite lookup_insert_ne by done. split; [done |]. by apply IH.
Qed.

Lemma linked_frame_delete ns p l a :
  a ∉ addr <$> l → linked ns p l → linked (delete a ns) p l.
Proof.
  revert p. induction l as [| x l IH]; intros p Ha; simpl; [done |].
  intros (-> & nx & Hx & Hl). split; [done |]. exists nx.
  apply not_elem_of_cons in Ha as [Hne Ha].
  rewrite lookup_delete_ne by done. split; [done |]. by apply IH.
Qed.

Lemma linked_live ns p l a :
  linked ns p l → a ∈ addr <$> l → is_Some (ns !! a).
Proof.
  revert p. induction l as [| x l IH]; intros p; simpl.
  - intros _ H. by apply elem_of_nil in H.
  - intros (-> & nx & Hx & Hl) Ha.
    apply elem_of_cons in Ha as [-> | Ha]; [by eexists | by eapply IH].
Qed.

Lemma linked_fresh (A : allocator) ns p l :
  linked ns p l → alloc A (dom ns) ∉ addr <$> l.
Proof.
  intros Hl Hin. apply (alloc_fresh A (dom ns)).
  apply elem_of_dom. by eapply linked_live.
Qed.

Lemma linked_length ns p l :
  linked ns p l → NoDup (addr <$> l) → (List.length l ≤ size ns)%nat.
Proof.
  intros Hl Hnd.
  rewrite <- (length_fmap addr l), <- size_dom.
  rewrite <- (size_list_to_set (C := gset nat) _ Hnd).
  apply subseteq_size. intros a Ha. apply elem_of_list_to_set in Ha.
  apply elem_of_dom. by eapply linked_live.
Qed.

Lemma linked_head_nil ns a : ¬ linked ns (Some a) [].
Proof. done. Qed.

Lemma linked_None ns l : linked ns None l → l = [].
Proof. destruct l as [| x l]; [done |]. by intros [? _]. Qed.

Lemma linked_Some ns a l :
  linked ns (Some a) l → ∃ x l', l = x :: l' ∧ addr x = a.
Proof.
  destruct l as [| x l]; [done |]. intros [[= ->] _]. by exists x, l.
Qed.

(** The node at index [i] is given the successor [new], a node that ends
    the list: what followed the node at [i] is cut off. *)
Lemma linked_cut ns p l i x new pn mn :
  linked ns p l → NoDup (addr <$> l) → l !! i = Some x →
  new ∉ addr <$> l →
  ns !! new = Some {| priority := pn; msg := mn; next := None |} →
  linked
    (<[addr x := {| priority := prio x; msg := payload x;
                    next := Some new |}]> ns) p
    (take (S i) l ++ [{| addr := new; prio := pn; payload := mn |}]).
Proof.
  revert p i. induction l as [| y l IH]; intros p i Hl Hnd Hi Hnew Hn;
    [done |].
  apply NoDup_cons in Hnd as [Hy Hnd].
  apply not_elem_of_cons in Hnew as [Hny Hnew].
  destruct Hl as (-> & nx & Hlook & Hl).
  destruct i as [| i]; simpl in Hi.
  - injection Hi as ->. simpl. split; [done |]. exists (Some new).
    rewrite lookup_insert_eq. split; [done |]. split; [done |].
    exists None. by rewrite lookup_insert_ne.
  - assert (addr x ≠ addr y) as Hxy.
    { intros E. apply Hy. rewrite <- E. apply list_elem_of_fmap.
      exists x. split; [done |]. by eapply list_elem_of_lookup_2. }
    simpl. split; [done |]. exists nx.
    rewrite lookup_insert_ne by done. split; [done |].
    by apply IH.
Qed.

(** The node [new] is linked in behind the node at index [i]. *)
Lemma linked_insert_after ns p l i x nx new pn mn :
  linked ns p l → NoDup (addr <$> l) → l !! i = Some x →
  new ∉ addr <$> l →
  ns !! addr x
  = Some {| priority := prio x; msg := payload x; next := nx |} →
  linked
    (<[new := {| priority := pn; msg := mn; next := nx |}]>
       (<[addr x := {| priority := prio x; msg := payload x;
                       next := Some new |}]> ns)) p
    (take (S i) l ++ {| addr := new; prio := pn; payload := mn |}
       :: drop (S i) l).
Proof.
  revert p i. induction l as [| y l IH]; intros p i Hl Hnd Hi Hnew Hx;
    [done |].
  apply NoDup_cons in Hnd as [Hy Hnd].
  apply not_elem_of_cons in Hnew as [Hny Hnew].
  destruct Hl as (-> & ny & Hlook & Hl).
  destruct i as [| i]; simpl in Hi.
  - injection Hi as ->. rewrite Hlook in Hx. injection Hx as ->.
    simpl. rewrite drop_0. split; [done |]. exists (Some new).
    rewrite lookup_insert_ne, lookup_insert_eq by done.
    split; [done |]. split; [done |]. exists nx.
    rewrite lookup_insert_eq. split; [done |].
    apply linked_frame_insert; [exact Hnew |].
    apply linked_frame_insert; [exact Hy | exact Hl].
  - assert (addr x ≠ addr y) as Hxy.
    { intros E. apply Hy. rewrite <- E. apply list_elem_of_fmap.
      exists x. split; [done |]. by eapply list_elem_of_lookup_2. }
    simpl. split; [done |]. exists ny.
    rewrite !lookup_insert_ne by done. split; [done |].
    by apply IH.
Qed.

(** The loop of [queue_put] stops at the node [put_index] names. *)
Lemma walk_list_linked ns tl pr l fuel a :
  linked ns (Some a) l → (List.length l ≤ fuel)%nat →
  ∃ x, l !! put_index tl pr l = Some x ∧
       walk_list fuel ns tl pr a = Some (addr x).
Proof.
  revert fuel a. induction l as [| y l IH]; intros fuel a Hl Hf; [done |].
  destruct Hl as ([= ->] & ny & Hlook & Hl).
  destruct fuel as [| fuel]; [simpl in Hf; lia |].
  simpl. destruct (decide (Some (addr y) = tl)); [by exists y |].
  rewrite Hlook. simpl.
  destruct (decide (prio y > pr)); [| by exists y].
  destruct ny as [a' |].
  - destruct (linked_Some _ _ _ Hl) as (z & l' & -> & <-).
    apply IH; [done | simpl in *; lia].
  - apply linked_None in Hl as ->. by exists y.
Qed.

Lemma new_item_fresh (A : allocator) (q : queue message) l pr m :
  linked (nodes q) (head q) l → addr (new_item A q pr m) ∉ addr <$> l.
Proof. intros Hl. by apply (linked_fresh A (nodes q) (head q)). Qed.

(** [queue_get] takes the first node off the list. *)
Lemma queue_get_holds (q : queue message) x l :
  holds q (x :: l) → length q ≠ 0%nat →
  ∃ q', queue_get q = Done (payload x, q') ∧
        holds q' l ∧
        length q' = pred (length q) ∧
        (l ≠ [] → tail q' = tail q).
Proof.
  intros ((Hh & nx & Hx & Hl) & Hnd & _) Hlen.
  apply NoDup_cons in Hnd as [Hxl Hnd].
  unfold queue_get. destruct (length q) as [| len]; [done |].
  rewrite Hh. simpl. rewrite Hx. simpl.
  destruct nx as [a |].
  - destruct (linked_Some _ _ _ Hl) as (y & l' & -> & <-).
    eexists. split; [done |]. split; [| done].
    split; [| split; [exact Hnd | done]].
    apply linked_frame_delete; [exact Hxl | exact Hl].
  - apply linked_None in Hl as ->.
    eexists. split; [done |]. split; [| done].
    split; [done | split; [constructor | done]].
Qed.

(** [queue_put_head] puts the new node in front of the list. *)
Lemma queue_put_head_holds (A : allocator) (q : queue message) l m :
  holds q l →
  ∃ q', queue_put_head A q m = Some q' ∧
        holds q' (new_item A q QUEUE_PRIORITY_MAX m :: l) ∧
        length q' = S (length q) ∧
        tail q' = match l with
                  | [] => Some (alloc A (dom (nodes q)))
                  | _ => tail q
                  end.
Proof.
  intros (Hl & Hnd & He).
  pose proof (new_item_fresh A q l QUEUE_PRIORITY_MAX m Hl) as Hnew.
  unfold queue_put_head, is_empty.
  destruct l as [| x l].
  - simpl in Hl. rewrite Hl, (He eq_refl).
    eexists. split; [done |]. split; [| done].
    split; [| split; [apply NoDup_singleton | done]].
    split; [done |]. exists None. cbn [nodes new_item addr prio payload].
    by rewrite lookup_insert_eq.
  - destruct Hl as (Hh & nx & Hx & Hl). rewrite Hh.
    unfold set_next. rewrite lookup_insert_eq. simpl.
    eexists. split; [done |]. split; [| done].
    split; [| split; [| done]].
    + split; [done |]. exists (Some (addr x)).
      cbn [nodes new_item addr prio payload].
      rewrite lookup_insert_eq. split; [done |].
      split; [done |]. exists nx.
      apply not_elem_of_cons in Hnew as [Hne Hnew].
      rewrite !lookup_insert_ne by done. split; [done |].
      apply linked_frame_insert; [exact Hnew |].
      apply linked_frame_insert; [exact Hnew | exact Hl].
    + apply NoDup_cons. split; [exact Hnew | exact Hnd].
Qed.

Lemma lookup_addr l i x : l !! i = Some x → addr x ∈ addr <$> l.
Proof.
  intros Hi. apply list_elem_of_fmap. exists x. split; [done |].
  by eapply list_elem_of_lookup_2.
Qed.

Lemma linked_lookup ns p l i x :
  linked ns p l → l !! i = Some x →
  ∃ nx, ns !! addr x
        = Some {| priority := prio x; msg := payload x; next := nx |}.
Proof.
  revert p i. induction l as [| y l IH]; intros p i Hl Hi; [done |].
  destruct Hl as (_ & ny & Hy & Hl). destruct i as [| i]; simpl in Hi.
  - injection Hi as <-. by exists ny.
  - by apply (IH ny i).
Qed.

Lemma NoDup_insert_after (l : list (item message)) (y : item message) i :
  NoDup (addr <$> l) → addr y ∉ addr <$> l →
  NoDup (addr <$> take i l ++ y :: drop i l).
Proof.
  intros Hnd Hy. rewrite <- (take_drop i l) in Hnd, Hy.
  rewrite fmap_app in *. rewrite fmap_cons.
  apply NoDup_app in Hnd as (H1 & H2 & H3).
  apply not_elem_of_app in Hy as [Hy1 Hy2].
  apply NoDup_app. split; [done |]. split.
  - intros a Ha Hin. apply elem_of_cons in Hin as [-> | Hin]; [done |].
    by apply (H2 a).
  - apply NoDup_cons. by split.
Qed.

(** [queue_put] links the new node in behind the node at which its loop
    stops; the other nodes keep their order, and [tail] is left as it was
    unless the queue was empty. *)
Lemma queue_put_holds (A : allocator) (q : queue message) l m pr :
  holds q l →
  ∃ q', queue_put A q m pr = Some q' ∧
        holds q' (take (S (put_index (tail q) pr l)) l
                  ++ new_item A q pr m
                  :: drop (S (put_index (tail q) pr l)) l) ∧
        length q' = S (length q) ∧
        tail q' = match l with
                  | [] => Some (alloc A (dom (nodes q)))
                  | _ => tail q
                  end.
Proof.
  intros (Hl & Hnd & He).
  pose proof (new_item_fresh A q l pr m Hl) as Hnew.
  unfold queue_put, is_empty.
  destruct l as [| x0 l0].
  - simpl in Hl. rewrite Hl, (He eq_refl).
    eexists. split; [done |]. split; [| done].
    split; [| split; [apply NoDup_singleton | done]].
    split; [done |]. exists None. cbn [nodes new_item addr prio payload].
    by rewrite lookup_insert_eq.
  - set (l := x0 :: l0) in *.
    assert (head q = Some (addr x0)) as Hh by apply Hl.
    rewrite Hh. cbn [mbind option_bind].
    set (new := alloc A (dom (nodes q))) in *.
    set (ns := <[new := _]> (nodes q)).
    assert (linked ns (Some (addr x0)) l) as Hl'.
    { rewrite <- Hh. apply linked_frame_insert; [exact Hnew | exact Hl]. }
    assert (List.length l ≤ S (size ns))%nat as Hfuel.
    { pose proof (linked_length _ _ _ Hl' Hnd). lia. }
    destruct (walk_list_linked ns (tail q) pr l _ _ Hl' Hfuel)
      as (x & Hi & ->).
    cbn [mbind option_bind].
    destruct (linked_lookup _ _ _ _ _ Hl' Hi) as (nx & Hx).
    rewrite Hx. cbn [mbind option_bind].
    rewrite (set_next_live _ _ _ _ Hx). cbn [mbind option_bind priority msg].
    assert (new ≠ addr x) as Hnx.
    { intros E. apply Hnew. change (new ∈ addr <$> l). rewrite E.
      by eapply lookup_addr. }
    rewrite (set_next_live new _ _
               {| priority := pr; msg := m; next := None |})
      by (rewrite lookup_insert_ne by done; apply lookup_insert_eq).
    cbn [mbind option_bind priority msg next].
    eexists. split; [done |]. split; [| done].
    split; [| split; [| done]].
    + cbn [nodes head].
      apply (linked_insert_after ns (Some (addr x0)) l _ x nx new pr m);
        done.
    + by apply NoDup_insert_after.
Qed.

(** [queue_put_tail] links the new node in behind the node [tail] points
    to, and cuts off what followed that node. *)
Lemma queue_put_tail_holds (A : allocator) (q : queue message) l m i :
  holds q l →
  match l with
  | [] => True
  | _ => ∃ x, l !! i = Some x ∧ tail q = Some (addr x)
  end →
  ∃ q', queue_put_tail A q m = Some q' ∧
        holds q' (take (S i) l ++ [new_item A q QUEUE_PRIORITY_MIN m]) ∧
        length q' = S (length q) ∧
        tail q' = Some (alloc A (dom (nodes q))).
Proof.
  intros (Hl & Hnd & He) Ht.
  pose proof (new_item_fresh A q l QUEUE_PRIORITY_MIN m Hl) as Hnew.
  unfold queue_put_tail, is_empty.
  destruct l as [| x0 l0].
  - simpl in Hl. rewrite Hl, (He eq_refl).
    eexists. split; [done |]. split; [| done].
    split; [| split; [apply NoDup_singleton | done]].
    split; [done |]. exists None. cbn [nodes new_item addr prio payload].
    by rewrite lookup_insert_eq.
  - set (l := x0 :: l0) in *.
    destruct Ht as (x & Hi & Htl).
    assert (head q = Some (addr x0)) as Hh by apply Hl.
    rewrite Hh, Htl. cbn [mbind option_bind].
    set (new := alloc A (dom (nodes q))) in *.
    set (ns := <[new := _]> (nodes q)).
    assert (linked ns (Some (addr x0)) l) as Hl'.
    { rewrite <- Hh. apply linked_frame_insert; [exact Hnew | exact Hl]. }
    destruct (linked_lookup _ _ _ _ _ Hl' Hi) as (nx & Hx).
    rewrite (set_next_live _ _ _ _ Hx). cbn [mbind option_bind priority msg].
    eexists. split; [done |]. split; [| done].
    split; [| split; [| done]].
    + cbn [nodes head].
      apply (linked_cut ns (Some (addr x0)) l i x new); try done.
      apply lookup_insert_eq.
    + rewrite fmap_app, fmap_take. apply NoDup_app.
      split; [eapply sublist_NoDup; [exact Hnd | apply sublist_take] |].
      split; [| apply NoDup_singleton].
      intros a Ha Hin. apply list_elem_of_singleton in Hin as ->.
      apply Hnew. eapply elem_of_sublist; [exact Ha | apply sublist_take].
Qed.

(** X1.  [queue_put_head] followed by [queue_get] gives the message back and
    leaves the queue exactly as it was. *)
Theorem queue_put_head_get (A : allocator) (q q' : queue message) m :
  (head q = None → tail q = None) →
  queue_put_head A q m = Some q' →
  queue_get q' = Done (m, q).
Proof.
  intros He. unfold queue_put_head, is_empty.
  set (new := alloc A (dom (nodes q))).
  assert (nodes q !! new = None) as Hnew
    by apply not_elem_of_dom, alloc_fresh.
  destruct q as [len hd tl ns]. simpl in *.
  destruct hd as [h |].
  - unfold set_next. rewrite lookup_insert_eq. simpl.
    intros [= <-]. unfold queue_get. simpl.
    rewrite lookup_insert_eq. simpl.
    by rewrite delete_insert_eq, delete_insert_id.
  - rewrite (He eq_refl). intros [= <-]. unfold queue_get. simpl.
    rewrite lookup_insert_eq. simpl. by rewrite delete_insert_id.
Qed.

Lemma holds_queue_new : holds (queue_new (message := message)) [].
Proof. split; [done |]. split; [constructor | done]. Qed.

Lemma last_lookup_item l x :
  last l = Some x → l !! pred (List.length l) = Some x.
Proof. intros H. by rewrite <- last_lookup. Qed.

Lemma exact_put_head (A : allocator) (q : queue message) l m :
  exact q l →
  ∃ q', queue_put_head A q m = Some q' ∧
        exact q' (new_item A q QUEUE_PRIORITY_MAX m :: l).
Proof.
  intros (Hh & Hlen & Hlast).
  destruct (queue_put_head_holds A q l m Hh) as (q' & Hq & Hh' & Hl' & Ht').
  exists q'. split; [done |]. split; [done |].
  split; [simpl; lia |].
  destruct l as [| x l]; [done |].
  rewrite Ht'. change (last (new_item A q QUEUE_PRIORITY_MAX m :: x :: l))
    with (last (x :: l)).
  by destruct (last (x :: l)).
Qed.

Lemma exact_put_tail (A : allocator) (q : queue message) l m :
  exact q l →
  ∃ q', queue_put_tail A q m = Some q' ∧
        exact q' (l ++ [new_item A q QUEUE_PRIORITY_MIN m]).
Proof.
  intros (Hh & Hlen & Hlast).
  destruct (queue_put_tail_holds A q l m (pred (List.length l)) Hh)
    as (q' & Hq & Hh' & Hl' & Ht').
  { destruct l as [| x l]; [done |].
    destruct (last (x :: l)) as [y |] eqn:Hy.
    - exists y. split; [by apply last_lookup_item | done].
    - by apply last_None in Hy. }
  assert (take (S (pred (List.length l))) l = l) as Htake
    by (apply take_ge; lia).
  rewrite Htake in Hh'.
  exists q'. split; [done |]. split; [done |].
  split; [rewrite length_app; simpl; lia |].
  by rewrite last_snoc.
Qed.

Lemma exact_get (q : queue message) x l :
  exact q (x :: l) →
  ∃ q', queue_get q = Done (payload x, q') ∧ exact q' l.
Proof.
  intros (Hh & Hlen & Hlast).
  destruct (queue_get_holds q x l Hh) as (q' & Hq & Hh' & Hl' & Ht');
    [simpl in Hlen; lia |].
  exists q'. split; [done |]. split; [done |].
  split; [simpl in Hlen; lia |].
  destruct l as [| y l]; [done |].
  rewrite Ht' by done. exact Hlast.
Qed.

Lemma exact_get_empty (q : queue message) :
  exact q [] → queue_get q = Blocked.
Proof. intros (_ & Hlen & _). unfold queue_get. by rewrite Hlen. Qed.

Lemma run_qops_exact (A : allocator) ops (q : queue message) l :
  exact q l → run_qops A ops q = deque_qops ops (payload <$> l).
Proof.
  revert q l. induction ops as [| o ops IH]; intros q l Hq; [done |].
  destruct o as [m | m |]; simpl.
  - destruct (exact_put_head A q l m Hq) as (q' & -> & Hq'). simpl.
    by rewrite (IH _ _ Hq').
  - destruct (exact_put_tail A q l m Hq) as (q' & -> & Hq'). simpl.
    rewrite (IH _ _ Hq'). by rewrite fmap_app.
  - destruct l as [| x l].
    + by rewrite (exact_get_empty q Hq).
    + destruct (exact_get q x l Hq) as (q' & -> & Hq'). simpl.
      by rewrite (IH _ _ Hq').
Qed.

(** X2.  Used through [queue_put_head], [queue_put_tail] and [queue_get]
    only, a new queue is a double-ended queue: the operations never fail,
    [queue_get] blocks exactly when no message is left, and the messages come
    out from the front. *)
Theorem queue_without_put_is_deque (A : allocator)
    (ops : list (qop message)) :
  run_qops A ops queue_new = deque_qops ops [].
Proof.
  apply (run_qops_exact A ops queue_new []).
  split; [apply holds_queue_new | done].
Qed.

(** X3.  [queue_put] does not move [tail]: after a [queue_put] on a queue of
    one message, [queue_put_tail] unlinks the message just put.  The
    semaphore still counts it, and the third [queue_get] reads through a null
    head. *)
Theorem queue_put_tail_drops_put (A : allocator)
    (m1 m2 m3 : option message) (p1 p2 : Z) :
  ∃ q3 q4 q5,
    (q1 ← queue_put A queue_new m1 p1;
     q2 ← queue_put A q1 m2 p2;
     queue_put_tail A q2 m3) = Some q3 ∧
    queue_get q3 = Done (m1, q4) ∧
    queue_get q4 = Done (m3, q5) ∧
    queue_get q5 = Fault.
Proof.
  destruct (queue_put_holds A queue_new [] m1 p1 holds_queue_new)
    as (q1 & -> & H1 & L1 & T1).
  simpl in H1, T1. cbn [mbind option_bind].
  destruct (queue_put_holds A q1 _ m2 p2 H1) as (q2 & -> & H2 & L2 & T2).
  cbn [mbind option_bind]. rewrite T1 in H2, T2.
  simpl in H2. rewrite decide_True in H2 by done. simpl in H2.
  destruct (queue_put_tail_holds A q2 _ m3 0 H2) as (q3 & -> & H3 & L3 & T3).
  { eexists. split; [done |]. by rewrite T2. }
  simpl in H3.
  destruct (queue_get_holds q3 _ _ H3) as (q4 & G3 & H4 & L4 & _);
    [rewrite L3; lia |].
  destruct (queue_get_holds q4 _ _ H4) as (q5 & G4 & H5 & L5 & _);
    [rewrite L4, L3; simpl; lia |].
  exists q3, q4, q5. split; [done |]. split; [done |]. split; [done |].
  destruct H5 as (Hhead & _). simpl in Hhead.
  unfold queue_get. rewrite L5, L4, L3, L2, L1. simpl. by rewrite Hhead.
Qed.

Lemma holds_head (q : queue message) x l :
  holds q (x :: l) → head q = Some (addr x).
Proof. by intros ((Hh & _) & _). Qed.

(** X4.  [queue_get] on a queue whose list is [x :: l]: it blocks while the
    semaphore is 0; otherwise it returns the payload of [x], the list that is
    left is [l], the semaphore is one less, and [tail] is as before unless
    the list is now empty. *)
Theorem queue_get_list (q : queue message) x l :
  holds q (x :: l) →
  (length q = 0%nat → queue_get q = Blocked) ∧
  (length q ≠ 0%nat →
   ∃ q', queue_get q = Done (payload x, q') ∧
         holds q' l ∧
         length q' = pred (length q) ∧
         (l ≠ [] → tail q' = tail q)).
Proof.
  intros Hh. split.
  - intros H0. unfold queue_get. by rewrite H0.
  - intros Hn. by apply queue_get_holds.
Qed.

(** X5.  [queue_put_head] on a queue whose list is [l] does not fail; the new
    node is the head and the first of the list, the others follow as they
    were; the semaphore is one more; [tail] is the new node if the list was
    empty and is as before otherwise. *)
Theorem queue_put_head_list (A : allocator) (q : queue message) l m :
  holds q l →
  ∃ q', queue_put_head A q m = Some q' ∧
        holds q' (new_item A q QUEUE_PRIORITY_MAX m :: l) ∧
        head q' = Some (alloc A (dom (nodes q))) ∧
        length q' = S (length q) ∧
        tail q' = match l with
                  | [] => Some (alloc A (dom (nodes q)))
                  | _ => tail q
                  end.
Proof.
  intros Hh.
  destruct (queue_put_head_holds A q l m Hh) as (q' & Hq & Hh' & Hl' & Ht').
  exists q'. split_and!; try done. by apply holds_head in Hh'.
Qed.

(** X6.  [queue_put] on a queue whose list is [l] does not fail; the new node
    comes right behind the node the walk stops at: the first that is [tail],
    or whose priority is not above the new one, or that is the last.  So it
    is never put in front of a list that is not empty: the head stays.  The
    nodes that were in the list are still there, in their order; the
    semaphore is one more; [tail] is the new node if the list was empty and
    is as before otherwise. *)
Theorem queue_put_list (A : allocator) (q : queue message) l m pr :
  holds q l →
  ∃ q' l',
    queue_put A q m pr = Some q' ∧
    holds q' l' ∧
    l' = take (S (put_index (tail q) pr l)) l
         ++ new_item A q pr m :: drop (S (put_index (tail q) pr l)) l ∧
    l `sublist_of` l' ∧
    (l ≠ [] → head q' = head q) ∧
    length q' = S (length q) ∧
    tail q' = match l with
              | [] => Some (alloc A (dom (nodes q)))
              | _ => tail q
              end.
Proof.
  intros Hh.
  destruct (queue_put_holds A q l m pr Hh) as (q' & Hq & Hh' & Hl' & Ht').
  exists q'. eexists. split_and!; try done.
  - rewrite <- (take_drop (S (put_index (tail q) pr l)) l) at 1.
    apply sublist_app; [done |]. by apply sublist_cons.
  - destruct l as [| x l]; [done |]. intros _.
    simpl in Hh'. apply holds_head in Hh, Hh'. by rewrite Hh, Hh'.
Qed.

(** X7.  [queue_put_tail] on a queue whose list is [l] does not fail; the new
    node comes right behind the node [tail] points to, and what was behind
    that node is no longer in the list; [tail] is the new node, and the
    semaphore is one more. *)
Theorem queue_put_tail_list (A : allocator) (q : queue message) l m i :
  holds q l →
  match l with
  | [] => True
  | _ => ∃ x, l !! i = Some x ∧ tail q = Some (addr x)
  end →
  ∃ q', queue_put_tail A q m = Some q' ∧
        holds q' (take (S i) l ++ [new_item A q QUEUE_PRIORITY_MIN m]) ∧
        length q' = S (length q) ∧
        tail q' = Some (alloc A (dom (nodes q))).
Proof. intros Hh Ht. by apply queue_put_tail_holds. Qed.

Lemma gets_holds (q : queue message) l :
  holds q l → length q = List.length l →
  gets (List.length l) q = payload <$> l.
Proof.
  revert q. induction l as [| x l IH]; intros q Hh Hlen; [done |].
  destruct (queue_get_holds q x l Hh) as (q' & Hq & Hh' & Hl' & _);
    [simpl in Hlen; lia |].
  simpl. rewrite Hq. f_equal. apply IH; [done |].
  rewrite Hl', Hlen. done.
Qed.

Lemma puts_behind_first (A : allocator) ms (q : queue message) x l :
  holds q (x :: l) → tail q = Some (addr x) →
  length q = S (List.length l) →
  ∃ q' l', puts A ms q = Some q' ∧
           holds q' (x :: l') ∧
           length q' = S (List.length l') ∧
           payload <$> l' = reverse ms.*1 ++ (payload <$> l).
Proof.
  revert q l. induction ms as [| [m p] ms IH]; intros q l Hh Ht Hlen.
  - exists q, l. by split_and!.
  - destruct (queue_put_holds A q (x :: l) m p Hh)
      as (q1 & Hq & Hh1 & Hl1 & Ht1).
    rewrite Ht in Hh1. simpl in Hh1. rewrite decide_True in Hh1 by done.
    simpl in Hh1. rewrite drop_0 in Hh1.
    destruct (IH q1 (new_item A q p m :: l) Hh1) as (q' & l' & Hp & Hh' & Hl' & Hpay);
      [by rewrite Ht1 | simpl; lia |].
    exists q', l'. simpl. rewrite Hq. simpl. split_and!; try done.
    rewrite Hpay. simpl. rewrite reverse_cons, <- app_assoc. done.
Qed.

(** X8.  With [queue_put] alone, whatever the priorities: the message put
    first stays first, and the others come out behind it, the last put first. *)
Theorem queue_put_only (A : allocator) (m : option message) (p : Z)
    (ms : list (option message * Z)) :
  ∃ q, puts A ((m, p) :: ms) queue_new = Some q ∧
       length q = S (List.length ms) ∧
       gets (S (List.length ms)) q = m :: reverse ms.*1.
Proof.
  destruct (queue_put_holds A queue_new [] m p holds_queue_new)
    as (q1 & Hq & Hh1 & Hl1 & Ht1).
  simpl in Hh1, Ht1.
  destruct (puts_behind_first A ms q1 _ [] Hh1 Ht1 Hl1)
    as (q' & l' & Hp & Hh' & Hl' & Hpay).
  exists q'.
  change (puts A ((m, p) :: ms) queue_new)
    with (queue_put A queue_new m p ≫= puts A ms).
  rewrite Hq. cbn [mbind option_bind]. split; [done |].
  assert (List.length l' = List.length ms) as Hlen.
  { rewrite <- (length_fmap payload l'), Hpay, app_nil_r, length_reverse.
    by rewrite length_fmap. }
  split; [by rewrite Hl', Hlen |].
  rewrite <- Hlen.
  pose proof (gets_holds q' (_ :: l') Hh') as Hg.
  cbn [List.length] in Hg. rewrite Hg by lia.
  rewrite fmap_cons. rewrite Hpay. by rewrite app_nil_r.
Qed.

End QueueModelFacts.

(** ** Handles made and released *)

Section SharedMore.

Import Shared.

(** X9.  A handle made and released at once: the cells are as before, and
    [git_repository_free] has been called once, on the referent. *)
Theorem make_shared_free_shared (A : allocator)
    (repo : option git_repository) (h : heap) :
  free_shared (make_shared A repo h).2 (make_shared A repo h).1
  = Some {| cells := cells h; repo_frees := repo_frees h ++ [repo] |}.
Proof.
  unfold make_shared. simpl.
  assert (cells h !! alloc A (dom (cells h)) = None) as Hfresh
    by apply not_elem_of_dom, alloc_fresh.
  rewrite (free_shared_last _ (alloc A (dom (cells h))))
    by (done || apply lookup_insert_eq).
  simpl. by rewrite delete_insert_id.
Qed.

(** X10.  A duplicate released again leaves the heap as it was, as long as
    the counter is positive and below [INT_MAX]. *)
Theorem make_shared_copy_free_shared (s : shared_ptr) (a : nat) (h : heap)
    (n : Z) :
  refcnt s = Some a →
  cells h !! a = Some n →
  0 < n < 2 ^ 31 - 1 →
  (make_shared_copy s h ≫= λ '(h', s'), free_shared s' h') = Some h.
Proof.
  intros Ha Hc Hn.
  rewrite (make_shared_copy_live s a h n Ha Hc) by lia. simpl.
  rewrite (free_shared_more s a _ (n + 1) Ha) by
    (simpl; rewrite ?lookup_insert_eq; (done || lia)).
  simpl. destruct h as [cs fr]. simpl in *. f_equal. f_equal.
  rewrite insert_insert_eq. replace (n + 1 - 1) with n by lia.
  by apply insert_id.
Qed.

(** X11.  The scope of a child, made by [walk] and released by
    [message_free]: the counters are as before; the repository opened for the
    child, if any, has been released, and no other. *)
Theorem child_repo_free_shared (A : allocator) (no_ignore : bool)
    (opened : option git_repository) (repo : shared_ptr) (a : nat)
    (h : heap) (n : Z) :
  refcnt repo = Some a →
  cells h !! a = Some n →
  0 < n < 2 ^ 31 - 1 →
  ∃ h' s' h'',
    child_repo A no_ignore opened repo h = Some (h', s') ∧
    free_shared s' h' = Some h'' ∧
    cells h'' = cells h ∧
    freed_repos h''
    = freed_repos h
      ++ (if no_ignore then []
          else match opened with Some r => [r] | None => [] end).
Proof.
  intros Ha Hc Hn.
  assert (cells h !! alloc A (dom (cells h)) = None) as Hfresh
    by apply not_elem_of_dom, alloc_fresh.
  destruct no_ignore; [| destruct opened as [r |]].
  - unfold child_repo, make_shared. do 2 eexists.
    eexists. split; [done |].
    rewrite (free_shared_last _ (alloc A (dom (cells h))))
      by (done || apply lookup_insert_eq).
    split; [done |]. simpl. split; [by rewrite delete_insert_id |].
    unfold freed_repos. simpl. by rewrite omap_app.
  - unfold child_repo, make_shared. do 2 eexists.
    eexists. split; [done |].
    rewrite (free_shared_last _ (alloc A (dom (cells h))))
      by (done || apply lookup_insert_eq).
    split; [done |]. simpl. split; [by rewrite delete_insert_id |].
    unfold freed_repos. simpl. by rewrite omap_app.
  - rewrite (child_repo_failed_open A repo a h n Ha Hc) by lia.
    do 2 eexists. eexists. split; [done |].
    rewrite (free_shared_more repo a _ (n + 1) Ha) by
      (simpl; rewrite ?lookup_insert_eq; (done || lia)).
    split; [done |]. simpl. split.
    + rewrite insert_insert_eq. replace (n + 1 - 1) with n by lia.
      by apply insert_id.
    + unfold freed_repos. simpl. rewrite omap_app. simpl.
      by rewrite !app_nil_r.
Qed.

End SharedMore.

(** ** What [parse_options] leaves *)

Section OptionsMore.

Import Options OptionsModel.

Lemma handle_option_effect L g st :
  match handle_option L g st with
  | Continue st1 => effect (λ c, is_opt c g) st st1
  | Return r st1 =>
      r ≠ OPTIONS_SUCCESS ∧ ∃ msg, stderr st1 = stderr st ++ [print_usage msg]
  | AssertionFailed => True
  end.
Proof.
  destruct g as [c a]. unfold handle_option, effect, is_opt; simpl.
  destruct c as [[] [] [] [] [] [] [] []]; simpl;
    try (split; [done | by eexists]);
    try (by rewrite ?orb_false_r, ?orb_true_r, ?andb_true_r, ?andb_false_r).
  all: destruct a as [a |]; [| done].
  all: try destruct (strtoul L a) as [v e]; simpl.
  all: try (destruct (bool_decide _) eqn:Hz; simpl;
            [split; [done | by eexists] |];
            destruct (erange st || e); simpl;
            [split; [done | by eexists] |];
            apply bool_decide_eq_false in Hz;
            by rewrite ?orb_false_r, ?andb_true_r).
  destruct a as [| c rest]; [done |].
  destruct (type_of_char c); simpl;
    [by rewrite ?orb_false_r, ?andb_true_r | split; [done | by eexists]].
Qed.

Lemma effect_refl st : effect (λ _, false) st st.
Proof.
  unfold effect. by rewrite !orb_false_r, andb_true_r.
Qed.

Lemma effect_trans f1 f2 st st1 st2 :
  effect f1 st st1 → effect f2 st1 st2 →
  effect (λ c, f1 c || f2 c) st st2.
Proof.
  unfold effect.
  intros (H1 & H2 & H3 & H4 & H5 & H6 & H7 & H8 & H9 & H10 & H11)
         (K1 & K2 & K3 & K4 & K5 & K6 & K7 & K8 & K9 & K10 & K11).
  rewrite K1, K2, K3, K4, K5, K6, K7, K8, K9, H1, H2, H3, H4, H5.
  repeat split; try done; try (by auto).
  - by rewrite negb_orb, andb_assoc.
  - by rewrite orb_assoc.
  - by rewrite orb_assoc.
  - by rewrite orb_assoc.
  - by destruct (f1 "g"%char), (f2 "g"%char).
Qed.

Lemma option_loop_effect L gs st :
  match option_loop L gs st with
  | Continue st1 => effect (λ c, has_opt c gs) st st1
  | Return r st1 =>
      r ≠ OPTIONS_SUCCESS ∧
      ∃ msg, stderr st1 = stderr st ++ [print_usage msg]
  | AssertionFailed => True
  end.
Proof.
  revert st. induction gs as [| g gs IH]; intros st; simpl.
  - apply effect_refl.
  - pose proof (handle_option_effect L g st) as Hg.
    destruct (handle_option L g st) as [st1 | r st1 |]; try done.
    specialize (IH st1).
    destruct (option_loop L gs st1) as [st2 | r st2 |]; try done.
    + apply (effect_trans _ _ _ _ _ Hg IH).
    + destruct IH as [Hr [msg Hm]]. split; [done |]. exists msg.
      rewrite Hm. by destruct Hg as (_ & _ & _ & _ & _ & _ & _ & _ & -> & _).
Qed.

(** X12.  The flags add up: after the option loop a flag is switched exactly
    when it was before or its option is among those given, in whatever order;
    and the loop writes nothing to the standard error stream. *)
Theorem flags_accumulate L gs st st1 :
  option_loop L gs st = Continue st1 →
  skip_hidden (opt st1) = skip_hidden (opt st) && negb (has_opt "H" gs) ∧
  no_ignore (opt st1) = no_ignore (opt st) || has_opt "I" gs ∧
  icase (opt st1) = icase (opt st) || has_opt "i" gs ∧
  deterministic (opt st1) = deterministic (opt st) || has_opt "D" gs ∧
  mode (opt st1) = (if has_opt "g" gs then GLOB else mode (opt st)) ∧
  stderr st1 = stderr st.
Proof.
  intros H. pose proof (option_loop_effect L gs st) as He.
  rewrite H in He.
  destruct He as (H1 & H2 & H3 & H4 & H5 & _ & _ & _ & H9 & _).
  done.
Qed.

(** [check_dirs] fails on the first directory that cannot be opened, and
    otherwise gives every directory without its trailing slashes. *)
Lemma check_dirs_find L dirs :
  check_dirs L dirs
  = match find (λ d, negb (opendir_ok L d)) dirs with
    | Some bad => inl bad
    | None => inr (truncate_slashes <$> dirs)
    end.
Proof.
  induction dirs as [| d dirs IH]; simpl; [done |].
  destruct (opendir_ok L d); simpl; [| done].
  rewrite IH. by destruct (find _ dirs).
Qed.

(** The mode and the matcher after a successful [parse_options], by the
    pattern and [-g]. *)
Lemma parse_options_mode_cases L gs args st st' :
  parse_options L gs args st = Return OPTIONS_SUCCESS st' →
  mode (opt st) = NONE →
  match args with
  | [] => mode (opt st') = NONE
  | pattern :: _ =>
      if has_opt "g" gs
      then mode (opt st') = GLOB ∧ match_ (opt st') = Pattern pattern
      else if bool_decide (pattern = ""%string)
           then mode (opt st') = NONE
           else mode (opt st') = REGEX ∧
                match_ (opt st')
                = Re (regex_compile pattern
                        (icase (opt st) || has_opt "i" gs))
  end.
Proof.
  unfold parse_options. intros H Hm.
  pose proof (option_loop_effect L gs st) as He.
  destruct (option_loop L gs st) as [st1 | r st1 |]; try done.
  2:{ injection H as -> _. by destruct He. }
  destruct He as (_ & _ & Hi & _ & Hmode & _).
  rewrite Hm in Hmode. unfold scan_arguments in H.
  destruct args as [| p dirs].
  - destruct (check_dirs L []); [done |]. by injection H as <-.
  - destruct (check_dirs L dirs) as [bad | rs]; [done |].
    destruct (has_opt "g" gs); rewrite Hmode in H; simpl in H.
    + rewrite andb_false_r in H. simpl in H. rewrite Hmode in H.
      by injection H as <-.
    + rewrite andb_true_r in H.
      destruct p as [| c p]; simpl in H.
      * rewrite Hmode in H. by injection H as <-.
      * injection H as <-. simpl. by rewrite Hi.
Qed.


(** X14.  After a successful [parse_options] the roots are the arguments
    behind the pattern, each openable and without its trailing slashes; and a
    depth limit and a number of threads that were not 0 before are not 0
    after ([-d 0] and [-j 0] are refused). *)
Theorem parse_options_roots L gs args st st' :
  parse_options L gs args st = Return OPTIONS_SUCCESS st' →
  roots (opt st') = truncate_slashes <$> tail args ∧
  Forall (λ d, opendir_ok L d = true) (tail args) ∧
  (max_depth (opt st) ≠ 0 → max_depth (opt st') ≠ 0) ∧
  (nthreads (opt st) ≠ 0 → nthreads (opt st') ≠ 0).
Proof.
  unfold parse_options. intros H.
  pose proof (option_loop_effect L gs st) as He.
  destruct (option_loop L gs st) as [st1 | r1 st1 |]; try done.
  2:{ injection H as -> _. by destruct He. }
  destruct He as (_ & _ & _ & _ & _ & _ & _ & _ & _ & Hd & Hn).
  unfold scan_arguments in H.
  assert (find (λ d, negb (opendir_ok L d)) (tail args) = None →
          Forall (λ d, opendir_ok L d = true) (tail args)) as Hopen.
  { intros Hf. apply Forall_forall. intros d Hin.
    destruct (opendir_ok L d) eqn:E; [done |].
    induction (tail args) as [| d' ds IH]; [by apply elem_of_nil in Hin |].
    simpl in Hf. destruct (opendir_ok L d') eqn:E'; simpl in Hf; [| done].
    apply elem_of_cons in Hin as [-> | Hin]; [congruence | by apply IH]. }
  destruct args as [| p dirs]; simpl in *.
  - injection H as <-. simpl. by repeat split.
  - rewrite check_dirs_find in H.
    destruct (find _ dirs) as [bad |] eqn:Hf; [done |].
    injection H as <-.
    destruct (_ && _); simpl;
      [| destruct (mode (opt st1))]; simpl; repeat split; auto.
Qed.

Lemma truncate_rev_other c r : c ≠ "/"%char → truncate_rev (c :: r) = c :: r.
Proof.
  intros Hc. destruct c as [[] [] [] [] [] [] [] []]; try done.
Qed.

Lemma truncate_rev_slash c r :
  truncate_rev ("/"%char :: c :: r) = truncate_rev (c :: r).
Proof. done. Qed.

Lemma truncate_rev_spec r :
  (∃ k, r = replicate k "/"%char ++ truncate_rev r) ∧
  (r ≠ [] → truncate_rev r ≠ []) ∧
  (∀ r', truncate_rev r = "/"%char :: r' → r' = []).
Proof.
  induction r as [| c r IH]; [by split; [exists 0%nat |] |].
  destruct (decide (c = "/"%char)) as [-> | Hc].
  - destruct r as [| c' r].
    + split; [by exists 0%nat |]. split; [done |]. by intros r' [= <-].
    + rewrite truncate_rev_slash. destruct IH as ([k Hk] & Hne & Hs).
      split; [| split; [by auto | done]].
      exists (S k). change (replicate (S k) "/"%char ++ truncate_rev (c' :: r))
        with ("/"%char :: (replicate k "/"%char ++ truncate_rev (c' :: r))).
      by rewrite <- Hk.
  - rewrite (truncate_rev_other c r Hc).
    split; [by exists 0%nat |]. split; [done |]. by intros r' [= ->].
Qed.

(** X15.  [truncate_slashes] removes slashes from the end of the name and
    nothing else; it leaves a name that is not empty not empty; what it
    leaves ends in a slash only if it is the single slash; and applied again
    it changes nothing. *)
Theorem truncate_slashes_spec (s : string) :
  (∃ k, String.list_ascii_of_string s
        = String.list_ascii_of_string (truncate_slashes s)
          ++ replicate k "/"%char) ∧
  (s ≠ ""%string → truncate_slashes s ≠ ""%string) ∧
  (∀ r, String.list_ascii_of_string (truncate_slashes s) = r ++ ["/"%char] →
        truncate_slashes s = "/"%string) ∧
  truncate_slashes (truncate_slashes s) = truncate_slashes s.
Proof.
  unfold truncate_slashes.
  set (r := reverse (String.list_ascii_of_string s)).
  destruct (truncate_rev_spec r) as ([k Hk] & Hne & Hs).
  rewrite !String.list_ascii_of_string_of_list_ascii.
  assert (∀ r', reverse (truncate_rev r) = r' ++ ["/"%char] →
                truncate_rev r = ["/"%char]) as Hlast.
  { intros r' E. apply (f_equal reverse) in E.
    rewrite reverse_involutive, reverse_app in E. simpl in E.
    rewrite E. f_equal. by apply (Hs (reverse r')). }
  split; [| split; [| split]].
  - exists k. apply (f_equal reverse) in Hk. unfold r in Hk at 1.
    rewrite reverse_involutive, reverse_app in Hk.
    rewrite Hk. f_equal. apply reverse_replicate.
  - intros Hs0 E.
    apply (f_equal String.list_ascii_of_string) in E.
    rewrite String.list_ascii_of_string_of_list_ascii in E. simpl in E.
    apply (f_equal reverse) in E. rewrite reverse_involutive in E.
    simpl in E. apply Hne; [| done].
    intros Er. apply Hs0. unfold r in Er.
    apply (f_equal reverse) in Er. rewrite reverse_involutive in Er.
    simpl in Er. rewrite <- (String.string_of_list_ascii_of_string s).
    by rewrite Er.
  - intros r' E. by rewrite (Hlast r' E).
  - rewrite reverse_involutive. f_equal. f_equal.
    destruct (truncate_rev r) as [| c t] eqn:Et; [done |].
    destruct (decide (c = "/"%char)) as [-> | Hc].
    + by rewrite (Hs t eq_refl).
    + by apply truncate_rev_other.
Qed.

(** X16.  The mode [parse_options] settles on, from the mode [NONE] that
    [main] sets: [NONE] without a pattern; with one, [GLOB] if [-g] was
    given, else [NONE] for the empty pattern and [REGEX] for any other.  The
    matcher set up is the one of that mode, on that pattern, so that [worker]
    reads the member of the union that was written. *)
Theorem parse_options_mode L gs args st st' :
  parse_options L gs args st = Return OPTIONS_SUCCESS st' →
  mode (opt st) = NONE →
  match args with
  | [] => mode (opt st') = NONE
  | pattern :: _ =>
      if has_opt "g" gs
      then mode (opt st') = GLOB ∧ match_ (opt st') = Pattern pattern
      else if bool_decide (pattern = ""%string)
           then mode (opt st') = NONE
           else mode (opt st') = REGEX ∧
                match_ (opt st')
                = Re (regex_compile pattern
                        (icase (opt st) || has_opt "i" gs))
  end ∧
  is_Some (FF.worker_setup (opt st')).
Proof.
  intros Hp Hm.
  pose proof (parse_options_mode_cases L gs args st st' Hp Hm) as H.
  split; [done |]. unfold FF.worker_setup.
  destruct args as [| pattern args]; [by rewrite H |].
  destruct (has_opt "g" gs); [destruct H as [-> ->]; done |].
  destruct (bool_decide (pattern = ""%string)); [by rewrite H |].
  destruct H as [-> ->]. done.
Qed.

End OptionsMore.

(** ** The calls of [walk] and [main] *)

Section TracesFacts.

Import Shared Options FF Traces.

Lemma performs_Puts_inv line k es :
  performs (Puts line k) es → ∃ es', es = EPuts line :: es' ∧ performs k es'.
Proof. inversion 1; subst. by eexists. Qed.

Lemma performs_FlagmanAcquire_inv k es :
  performs (FlagmanAcquire k) es →
  ∃ es', es = EFlagmanAcquire :: es' ∧ performs k es'.
Proof. inversion 1; subst. by eexists. Qed.

Lemma performs_ChildRepo_inv ni opened r k es :
  performs (ChildRepo ni opened r k) es →
  ∃ s es', es = EChildRepo ni opened r s :: es' ∧ performs (k s) es'.
Proof. inversion 1; subst. by do 2 eexists. Qed.

Lemma performs_QueuePut_inv b prio k es :
  performs (QueuePut b prio k) es →
  ∃ es', es = EQueuePut b prio :: es' ∧ performs k es'.
Proof. inversion 1; subst. by eexists. Qed.

Lemma walk_entry_performs w o sc parent l_parent depth repo e rest evs :
  is_Some (matches w o sc (d_name e)) →
  performs (walk_entry w o sc parent l_parent depth repo e rest) evs →
  ∃ s evs', evs = entry_events w o sc parent l_parent depth repo s e ++ evs' ∧
            performs rest evs'.
Proof.
  intros [b Hb]. unfold walk_entry, entry_events, visible.
  destruct (is_dot (d_name e)); simpl; [by exists repo, evs |].
  destruct (skip_hidden o && hidden (d_name e)); simpl;
    [by exists repo, evs |].
  destruct (ignored w o (ptr repo) (d_name e)); simpl;
    [by exists repo, evs |].
  rewrite Hb.
  assert (∀ evs0,
    performs
      (if bool_decide (d_type e = DT_DIR)
       then FlagmanAcquire
              (ChildRepo (no_ignore o)
                 (if no_ignore o then None
                  else git_repository_open w
                         (assemble parent l_parent (d_name e)))
                 repo
                 (λ currentrepo,
                    QueuePut
                      (message_body_new (wrap_int (depth + 1))
                         (l_parent + String.length (d_name e) + 1)
                         (assemble parent l_parent (d_name e)) currentrepo)
                      (to_size_t (wrap_int (depth + 1))) rest))
       else rest) evs0 →
    ∃ s evs',
      evs0 = (if bool_decide (d_type e = DT_DIR)
              then [EFlagmanAcquire;
                    EChildRepo (no_ignore o)
                      (if no_ignore o then None
                       else git_repository_open w
                              (assemble parent l_parent (d_name e)))
                      repo s;
                    EQueuePut
                      (message_body_new (wrap_int (depth + 1))
                         (l_parent + String.length (d_name e) + 1)
                         (assemble parent l_parent (d_name e)) s)
                      (to_size_t (wrap_int (depth + 1)))]
              else []) ++ evs' ∧ performs rest evs') as Hq.
  { intros evs0. destruct (bool_decide (d_type e = DT_DIR)).
    - intros H.
      apply performs_FlagmanAcquire_inv in H as (e1 & -> & H).
      apply performs_ChildRepo_inv in H as (s & e2 & -> & H).
      apply performs_QueuePut_inv in H as (e3 & -> & H).
      by exists s, e3.
    - intros H. by exists repo, evs0. }
  destruct b; simpl.
  - try (rewrite bool_decide_eq_true_2 by done); simpl.
    destruct (type_ok o e); simpl.
    + intros H. apply performs_Puts_inv in H as (e1 & -> & H).
      destruct (Hq _ H) as (s & evs' & -> & Hr). by exists s, evs'.
    + apply Hq.
  - try (rewrite bool_decide_eq_false_2 by done); simpl. apply Hq.
Qed.

Lemma walk_performs w o sc parent l_parent depth repo k evs :
  (∀ name, is_Some (matches w o sc name)) →
  performs (walk w o sc parent l_parent depth repo k) evs →
  ∃ e1 e2, evs = e1 ++ e2 ∧
           walk_events w o sc parent l_parent depth repo
             (listing w o parent depth) e1 ∧
           performs k e2.
Proof.
  intros Hm. unfold walk, foreach_opendir, listing.
  destruct (bool_decide (0 < max_depth o) && bool_decide (max_depth o ≤ depth)).
  { intros H. exists [], evs. split; [done |]. split; [constructor | done]. }
  destruct (opendir w parent) as [es |]; simpl.
  2:{ intros H. exists [], evs. split; [done |]. split; [constructor | done]. }
  revert evs. induction es as [| e es IH]; intros evs H; simpl in *.
  - exists [], evs. split; [done |]. split; [constructor | done].
  - apply walk_entry_performs in H as (s & evs' & -> & H); [| done].
    destruct (IH _ H) as (e1 & e2 & -> & He1 & He2).
    eexists _, e2. split; [by rewrite app_assoc |].
    split; [by constructor | done].
Qed.

Lemma walk_entry_performs_some w o sc parent l_parent depth repo e rest evs s :
  is_Some (matches w o sc (d_name e)) →
  performs rest evs →
  performs (walk_entry w o sc parent l_parent depth repo e rest)
    (entry_events w o sc parent l_parent depth repo s e ++ evs).
Proof.
  intros [b Hb] Hr. unfold walk_entry, entry_events, visible.
  destruct (is_dot (d_name e)); simpl; [done |].
  destruct (skip_hidden o && hidden (d_name e)); simpl; [done |].
  destruct (ignored w o (ptr repo) (d_name e)); simpl; [done |].
  rewrite Hb.
  destruct b; simpl.
  - try (rewrite bool_decide_eq_true_2 by done); simpl.
    destruct (type_ok o e); simpl; [constructor |];
      destruct (bool_decide (d_type e = DT_DIR)); simpl;
      repeat constructor; done.
  - try (rewrite bool_decide_eq_false_2 by done); simpl.
    destruct (bool_decide (d_type e = DT_DIR)); simpl;
      repeat constructor; done.
Qed.

Lemma walk_performs_some w o sc parent l_parent depth repo k e2 :
  (∀ name, is_Some (matches w o sc name)) →
  performs k e2 →
  ∃ e1, performs (walk w o sc parent l_parent depth repo k) (e1 ++ e2).
Proof.
  intros Hm Hk. unfold walk, foreach_opendir.
  destruct (bool_decide (0 < max_depth o) && bool_decide (max_depth o ≤ depth));
    [by exists [] |].
  destruct (opendir w parent) as [es |]; [| by exists []].
  induction es as [| e es [e1 IH]]; simpl; [by exists [] |].
  eexists. rewrite <- app_assoc.
  by apply (walk_entry_performs_some _ _ _ _ _ _ _ _ _ _ repo).
Qed.

Lemma printed_app e1 e2 : printed (e1 ++ e2) = printed e1 ++ printed e2.
Proof. apply omap_app. Qed.

Lemma queued_app e1 e2 : queued (e1 ++ e2) = queued e1 ++ queued e2.
Proof. apply omap_app. Qed.

Lemma walk_events_printed w o sc parent l_parent depth repo es evs :
  walk_events w o sc parent l_parent depth repo es evs →
  printed evs
  = (λ e, process_match w o (assemble parent l_parent (d_name e)) parent
            (d_name e))
      <$> List.filter (shown w o sc (ptr repo)) es.
Proof.
  induction 1 as [| e es s evs _ IH]; [done |].
  rewrite printed_app, IH. simpl. unfold entry_events, shown.
  destruct (visible w o (ptr repo) e); simpl; [| done].
  destruct (bool_decide (matches w o sc (d_name e) = Some true) && type_ok o e);
    simpl;
    destruct (bool_decide (d_type e = DT_DIR)); done.
Qed.

Lemma walk_events_queued w o sc parent l_parent depth repo es evs :
  walk_events w o sc parent l_parent depth repo es evs →
  queued evs
  = (λ e, (assemble parent l_parent (d_name e),
           (l_parent + String.length (d_name e) + 1)%nat,
           wrap_int (depth + 1), to_size_t (wrap_int (depth + 1))))
      <$> List.filter (entered w o (ptr repo)) es.
Proof.
  induction 1 as [| e es s evs _ IH]; [done |].
  rewrite queued_app, IH. simpl. unfold entry_events, entered.
  destruct (visible w o (ptr repo) e); simpl; [| done].
  destruct (bool_decide (matches w o sc (d_name e) = Some true) && type_ok o e);
    simpl;
    destruct (bool_decide (d_type e = DT_DIR)); done.
Qed.

Lemma non_puts_app e1 e2 : non_puts (e1 ++ e2) = non_puts e1 ++ non_puts e2.
Proof. apply List.filter_app. Qed.

Lemma walk_events_threes w o sc parent l_parent depth repo es evs :
  walk_events w o sc parent l_parent depth repo es evs →
  ∃ threes,
    non_puts evs = concat threes ∧
    Forall (λ t, ∃ ni opened s b prio,
                   t = [EFlagmanAcquire; EChildRepo ni opened repo s;
                        EQueuePut b prio] ∧ FF.repo b = s) threes.
Proof.
  induction 1 as [| e es s evs _ (threes & IH & Hall)]; [by exists [] |].
  rewrite non_puts_app, IH. unfold entry_events.
  destruct (visible w o (ptr repo) e); simpl; [| by exists threes].
  destruct (bool_decide (d_type e = DT_DIR)); simpl.
  - exists ([EFlagmanAcquire;
              EChildRepo (no_ignore o)
                (if no_ignore o then None
                 else git_repository_open w
                        (assemble parent l_parent (d_name e)))
                repo s;
              EQueuePut
                (message_body_new (wrap_int (depth + 1))
                   (l_parent + String.length (d_name e) + 1)
                   (assemble parent l_parent (d_name e)) s)
                (to_size_t (wrap_int (depth + 1)))] :: threes).
    split.
    + by destruct (_ && _).
    + constructor; [| done]. by do 5 eexists.
  - exists threes. split; [| done]. by destruct (_ && _).
Qed.

Lemma performs_Ret_inv evs : performs Ret evs → evs = [].
Proof. by inversion 1. Qed.

Lemma walk_performs_Ret w o sc parent l_parent depth repo evs :
  worker_setup o = Some sc →
  performs (walk w o sc parent l_parent depth repo Ret) evs →
  walk_events w o sc parent l_parent depth repo (listing w o parent depth)
    evs.
Proof.
  intros Hsc H.
  apply walk_performs in H as (e1 & e2 & -> & H1 & H2);
    [| intros name; by apply worker_setup_matches].
  apply performs_Ret_inv in H2 as ->. by rewrite app_nil_r.
Qed.

(** X17.  What [walk] prints: one line for every entry of the listing that is
    visible, matches the pattern and has the type asked for, in the order of
    [readdir]; the line is made from the parent's path, a slash and the name. *)
Theorem walk_prints w o sc parent l_parent depth repo :
  worker_setup o = Some sc →
  (∃ evs, performs (walk w o sc parent l_parent depth repo Ret) evs) ∧
  ∀ evs,
    performs (walk w o sc parent l_parent depth repo Ret) evs →
    printed evs
    = (λ e, process_match w o (assemble parent l_parent (d_name e)) parent
              (d_name e))
        <$> List.filter (shown w o sc (ptr repo))
              (listing w o parent depth).
Proof.
  intros Hsc. split.
  - destruct (walk_performs_some w o sc parent l_parent depth repo Ret [])
      as [e1 H]; [intros name; by apply worker_setup_matches | constructor |].
    by exists (e1 ++ []).
  - intros evs H. eapply walk_events_printed.
    by apply walk_performs_Ret.
Qed.

(** X18.  What [walk] queues: every visible entry of type directory, whether
    or not it matches the pattern or has the type asked for, one level
    deeper, with the depth as priority; each [queue_put] comes right after
    one [flagman_acquire] and the making of the child's scope from the
    parent's handle, and carries the handle made; [walk] makes no other call
    but [puts]. *)
Theorem walk_queues w o sc parent l_parent depth repo evs :
  worker_setup o = Some sc →
  performs (walk w o sc parent l_parent depth repo Ret) evs →
  queued evs
  = (λ e, (assemble parent l_parent (d_name e),
           (l_parent + String.length (d_name e) + 1)%nat,
           wrap_int (depth + 1), to_size_t (wrap_int (depth + 1))))
      <$> List.filter (entered w o (ptr repo)) (listing w o parent depth) ∧
  ∃ threes,
    non_puts evs = concat threes ∧
    Forall (λ t, ∃ ni opened s b prio,
                   t = [EFlagmanAcquire; EChildRepo ni opened repo s;
                        EQueuePut b prio] ∧ FF.repo b = s) threes.
Proof.
  intros Hsc H. apply walk_performs_Ret in H; [| done].
  split; [by eapply walk_events_queued | by eapply walk_events_threes].
Qed.

Lemma filter_sublist {T} (f g : T → bool) (l : list T) :
  (∀ x, f x = true → g x = true) →
  List.filter f l `sublist_of` List.filter g l.
Proof.
  intros Hfg. induction l as [| x l IH]; simpl; [constructor |].
  destruct (f x) eqn:Hf.
  - rewrite (Hfg x Hf). by constructor.
  - destruct (g x); [by constructor | done].
Qed.

(** X19.  A type filter narrows what [walk] prints and leaves what it queues
    as it is: the lines printed under [--type] are a sublist of those printed
    without, and the directories queued are the same. *)
Theorem type_filter_narrows w o sc t parent l_parent depth repo evs evs' :
  worker_setup o = Some sc →
  performs (walk w (set_only_type t o) sc parent l_parent depth repo Ret)
    evs →
  performs
    (walk w (set_only_type DT_UNKNOWN o) sc parent l_parent depth repo Ret)
    evs' →
  printed evs `sublist_of` printed evs' ∧ queued evs = queued evs'.
Proof.
  intros Hsc H H'.
  apply walk_performs_Ret in H; [| done].
  apply walk_performs_Ret in H'; [| done].
  rewrite (walk_events_printed _ _ _ _ _ _ _ _ _ H),
    (walk_events_printed _ _ _ _ _ _ _ _ _ H'),
    (walk_events_queued _ _ _ _ _ _ _ _ _ H),
    (walk_events_queued _ _ _ _ _ _ _ _ _ H').
  split; [| done].
  apply fmap_sublist. apply filter_sublist.
  intros e. unfold shown, type_ok, visible, matches, ignored. simpl.
  intros He. apply andb_true_iff in He as [He _].
  by rewrite He.
Qed.

(** X20.  The pattern and the type filter have no part in what [walk] queues:
    options that agree on the depth limit, on [skip_hidden] and on
    [no_ignore] queue the same directories. *)
Theorem walk_queues_whatever_matches w o o' sc sc' parent l_parent depth
    repo evs evs' :
  max_depth o = max_depth o' →
  skip_hidden o = skip_hidden o' →
  no_ignore o = no_ignore o' →
  worker_setup o = Some sc →
  worker_setup o' = Some sc' →
  performs (walk w o sc parent l_parent depth repo Ret) evs →
  performs (walk w o' sc' parent l_parent depth repo Ret) evs' →
  queued evs = queued evs'.
Proof.
  intros Hd Hh Hi Hsc Hsc' H H'.
  apply walk_performs_Ret in H; [| done].
  apply walk_performs_Ret in H'; [| done].
  rewrite (walk_events_queued _ _ _ _ _ _ _ _ _ H),
    (walk_events_queued _ _ _ _ _ _ _ _ _ H').
  unfold listing, entered, visible, ignored. by rewrite Hd, Hh, Hi.
Qed.

Lemma string_length_app (s1 s2 : string) :
  String.length (s1 +:+ s2) = (String.length s1 + String.length s2)%nat.
Proof. induction s1 as [| c s1 IH]; simpl; [done | by rewrite IH]. Qed.

Lemma substring_all (s : string) :
  String.substring 0 (String.length s) s = s.
Proof. induction s as [| c s IH]; simpl; [done | by rewrite IH]. Qed.

Lemma assemble_exact parent name :
  assemble parent (String.length parent) name = parent +:+ "/" +:+ name ∧
  String.length (assemble parent (String.length parent) name)
  = (String.length parent + String.length name + 1)%nat.
Proof.
  unfold assemble. rewrite decide_True by done. rewrite substring_all.
  split; [done |]. rewrite !string_length_app. simpl. lia.
Qed.

(** X21.  When the length that comes with the parent's path is its length,
    every path [walk] queues is the parent's path, a slash and a name, and
    comes with its own length. *)
Theorem walk_queues_lengths w o sc parent depth repo evs :
  worker_setup o = Some sc →
  performs (walk w o sc parent (String.length parent) depth repo Ret) evs →
  Forall (λ x, (∃ name, x.1.1.1 = parent +:+ "/" +:+ name) ∧
               x.1.1.2 = String.length x.1.1.1) (queued evs).
Proof.
  intros Hsc H. apply walk_performs_Ret in H; [| done].
  rewrite (walk_events_queued _ _ _ _ _ _ _ _ _ H).
  apply Forall_fmap, Forall_forall. intros e _. simpl.
  destruct (assemble_exact parent (d_name e)) as [E1 E2].
  split; [by eexists | by rewrite E2].
Qed.

Lemma performs_RootRepo_inv ni opened k es :
  performs (RootRepo ni opened k) es →
  ∃ s es', es = ERootRepo ni opened s :: es' ∧ performs (k s) es'.
Proof. inversion 1; subst. by do 2 eexists. Qed.

Lemma performs_QueuePutHead_inv b k es :
  performs (QueuePutHead b k) es →
  ∃ es', es = EQueuePutHead b :: es' ∧ performs k es'.
Proof. inversion 1; subst. by eexists. Qed.

Lemma performs_QueuePutTail_inv b k es :
  performs (QueuePutTail b k) es →
  ∃ es', es = EQueuePutTail b :: es' ∧ performs k es'.
Proof. inversion 1; subst. by eexists. Qed.

Lemma performs_FlagmanWait_inv k es :
  performs (FlagmanWait k) es →
  ∃ es', es = EFlagmanWait :: es' ∧ performs k es'.
Proof. inversion 1; subst. by eexists. Qed.

Lemma performs_PthreadCreate_inv k es :
  performs (PthreadCreate k) es →
  ∃ es', es = EPthreadCreate :: es' ∧ performs k es'.
Proof. inversion 1; subst. by eexists. Qed.

Lemma performs_PthreadJoin_inv i k es :
  performs (PthreadJoin i k) es →
  ∃ es', es = EPthreadJoin i :: es' ∧ performs k es'.
Proof. inversion 1; subst. by eexists. Qed.

Lemma performs_creates n k es :
  performs (repeat_cmd n PthreadCreate k) es →
  ∃ es', es = replicate n EPthreadCreate ++ es' ∧ performs k es'.
Proof.
  unfold repeat_cmd. revert es. induction n as [| n IH]; intros es; simpl.
  - intros H. by exists es.
  - intros H. apply performs_PthreadCreate_inv in H as (e1 & -> & H).
    destruct (IH _ H) as (e2 & -> & H2). by exists e2.
Qed.

Lemma performs_terminators n k es :
  performs (repeat_cmd n (QueuePutTail None) k) es →
  ∃ es', es = replicate n (EQueuePutTail None) ++ es' ∧ performs k es'.
Proof.
  unfold repeat_cmd. revert es. induction n as [| n IH]; intros es; simpl.
  - intros H. by exists es.
  - intros H. apply performs_QueuePutTail_inv in H as (e1 & -> & H).
    destruct (IH _ H) as (e2 & -> & H2). by exists e2.
Qed.

Lemma performs_joins i n k es :
  performs (join_from i n k) es →
  ∃ es', es = (EPthreadJoin <$> seq i n) ++ es' ∧ performs k es'.
Proof.
  revert i es. induction n as [| n IH]; intros i es; simpl.
  - intros H. by exists es.
  - intros H. apply performs_PthreadJoin_inv in H as (e1 & -> & H).
    destruct (IH _ _ H) as (e2 & -> & H2). by exists e2.
Qed.

Lemma performs_seed w o path k es :
  performs (seed w o path (String.length path) k) es →
  ∃ s es', es = seed_events w o s path ++ es' ∧ performs k es'.
Proof.
  unfold seed. intros H.
  apply performs_RootRepo_inv in H as (s & e1 & -> & H).
  apply performs_QueuePutHead_inv in H as (e2 & -> & H).
  by exists s, e2.
Qed.

Lemma performs_seeds w o l k es :
  performs (foldr (λ arg k, seed w o arg (String.length arg) k) k l) es →
  ∃ ss es', List.length ss = List.length l ∧
            es = concat (zip_with (seed_events w o) ss l) ++ es' ∧
            performs k es'.
Proof.
  revert es. induction l as [| path l IH]; intros es; simpl.
  - intros H. by exists [], es.
  - intros H. apply performs_seed in H as (s & e1 & -> & H).
    destruct (IH _ H) as (ss & e2 & Hlen & -> & H2).
    exists (s :: ss), e2. simpl. rewrite Hlen.
    done.
Qed.

(** X22.  The calls of [main], whatever handles it is given: one
    [flagman_acquire]; one [pthread_create] per thread; for each root, in the
    order of the arguments (for [.] when there is none), the making of its
    scope and a [queue_put_head]; one [flagman_wait]; one terminator per
    thread; and the [pthread_join] of the threads in the order of their
    creation. *)
Theorem main_performs w o evs :
  performs (main w o) evs →
  ∃ ss,
    List.length ss
    = List.length (if bool_decide (roots o = []) then ["."%string]
                   else roots o) ∧
    evs
    = EFlagmanAcquire
      :: replicate (Z.to_nat (nthreads o)) EPthreadCreate
      ++ concat (zip_with (seed_events w o) ss
                   (if bool_decide (roots o = []) then ["."%string]
                    else roots o))
      ++ EFlagmanWait
      :: replicate (Z.to_nat (nthreads o)) (EQueuePutTail None)
      ++ (EPthreadJoin <$> seq 0 (Z.to_nat (nthreads o))).
Proof.
  unfold main. intros H.
  apply performs_FlagmanAcquire_inv in H as (e1 & -> & H).
  apply performs_creates in H as (e2 & -> & H).
  assert (∃ ss e3,
    List.length ss
    = List.length (if bool_decide (roots o = []) then ["."%string]
                   else roots o) ∧
    e2 = concat (zip_with (seed_events w o) ss
                   (if bool_decide (roots o = []) then ["."%string]
                    else roots o)) ++ e3 ∧
    performs
      (FlagmanWait
         (repeat_cmd (Z.to_nat (nthreads o)) (QueuePutTail None)
            (join_from 0 (Z.to_nat (nthreads o)) Ret))) e3)
    as (ss & e3 & Hlen & -> & H3).
  { destruct (roots o) as [| r rs] eqn:Hr; simpl in H.
    - apply (performs_seed w o ".") in H as (s & e3 & -> & H).
      exists [s], e3. split; [done |]. split; [| done]. done.
    - apply (performs_seeds w o (r :: rs)) in H as (ss & e3 & Hl & -> & H).
      exists ss, e3. split; [done |]. split; [| done]. done. }
  apply performs_FlagmanWait_inv in H3 as (e4 & -> & H3).
  apply performs_terminators in H3 as (e5 & -> & H3).
  apply performs_joins in H3 as (e6 & -> & H3).
  apply performs_Ret_inv in H3 as ->.
  exists ss. split; [done |]. by rewrite app_nil_r.
Qed.

(** The calls of a thread are the commands it runs: a step of [exec] makes
    the first call of every sequence the rest of the thread can make. *)
Lemma exec_performs A c s k s' :
  exec A c s = Done (k, s') →
  ∃ e, ∀ es, performs k es → performs c (e :: es).
Proof.
  destruct c as [| | line c | c | c | c | ni opened r f | ni opened f | b c
                 | b prio c | b c | b c | c | j c]; simpl; try done;
    repeat match goal with
           | |- outcome_bind _ ?e = _ → _ => destruct e; simpl
           | |- (let '(_, _) := ?e in _) = _ → _ => destruct e
           | |- match ?e with _ => _ end = _ → _ => destruct e
           end; try done; intros [= <- _]; eexists; intros es Hes;
    by constructor.
Qed.

End TracesFacts.

(** ** Runs with at most one root: the accounting *)

Section AccountingFacts.

Import Shared Options FF Queue QueueModel Accounting.

Implicit Types X Y : gmultiset nat.

Lemma multiplicity_le_size a X : (multiplicity a X ≤ size X)%nat.
Proof.
  induction X as [| x X IH] using gmultiset_ind.
  - by rewrite multiplicity_empty.
  - rewrite multiplicity_disj_union, gmultiset_size_disj_union,
      gmultiset_size_singleton.
    destruct (decide (a = x)) as [-> |].
    + rewrite multiplicity_singleton_eq. lia.
    + rewrite multiplicity_singleton_ne by done. lia.
Qed.

Lemma counted_eq h X Y : counted h X → X = Y → counted h Y.
Proof. by intros H <-. Qed.

Lemma counted_fresh (A : allocator) h X :
  counted h X → multiplicity (alloc A (dom (cells h))) X = 0%nat.
Proof.
  intros Hc. pose proof (alloc_fresh A (dom (cells h))) as Hf.
  apply not_elem_of_dom in Hf. rewrite Hc in Hf.
  by destruct (decide (multiplicity (alloc A (dom (cells h))) X = 0%nat)).
Qed.

Lemma counted_insert h X a r :
  counted h X → multiplicity a X = 0%nat →
  counted {| cells := <[a := 1]> (cells h); repo_frees := r |}
    ({[+ a +]} ⊎ X).
Proof.
  intros Hc Ha b. simpl. rewrite multiplicity_disj_union.
  destruct (decide (b = a)) as [-> | Hne].
  - rewrite lookup_insert_eq, multiplicity_singleton_eq, Ha. done.
  - rewrite lookup_insert_ne by done.
    rewrite multiplicity_singleton_ne by done. apply Hc.
Qed.

Lemma counted_make_shared (A : allocator) r h X :
  counted h X →
  ∃ a, refcnt (make_shared A r h).2 = Some a ∧
       ptr (make_shared A r h).2 = r ∧
       counted (make_shared A r h).1 ({[+ a +]} ⊎ X).
Proof.
  intros Hc. eexists. split; [done |]. split; [done |]. simpl.
  apply counted_insert; [done | by apply counted_fresh].
Qed.

Lemma counted_free_shared s a h X :
  refcnt s = Some a → counted h ({[+ a +]} ⊎ X) →
  Z.of_nat (size X) < 2 ^ 31 →
  ∃ h', free_shared s h = Some h' ∧ counted h' X.
Proof.
  intros Hs Hc Hb. unfold free_shared. rewrite Hs. simpl.
  pose proof (Hc a) as Ha.
  rewrite multiplicity_disj_union, multiplicity_singleton_eq in Ha.
  simpl in Ha. rewrite Ha. simpl.
  pose proof (multiplicity_le_size a X).
  replace (Z.of_nat (S (multiplicity a X)) - 1)
    with (Z.of_nat (multiplicity a X)) by lia.
  rewrite wrap_int_small by lia.
  destruct (decide (Z.of_nat (multiplicity a X) = 0)) as [H0 | H0].
  - eexists. split; [done |]. intros b. simpl.
    destruct (decide (b = a)) as [-> | Hne].
    + rewrite lookup_delete_eq.
      destruct (decide (multiplicity a X = 0%nat)); [done | lia].
    + rewrite lookup_delete_ne by done. rewrite Hc.
      rewrite multiplicity_disj_union, multiplicity_singleton_ne by done.
      done.
  - eexists. split; [done |]. intros b. simpl.
    destruct (decide (b = a)) as [-> | Hne].
    + rewrite lookup_insert_eq.
      destruct (decide (multiplicity a X = 0%nat)); [lia | done].
    + rewrite lookup_insert_ne by done. rewrite Hc.
      rewrite multiplicity_disj_union, multiplicity_singleton_ne by done.
      done.
Qed.

Lemma counted_make_shared_copy s a h X :
  refcnt s = Some a → a ∈ X → counted h X →
  Z.of_nat (size X) < 2 ^ 31 - 1 →
  ∃ h', make_shared_copy s h = Some (h', s) ∧ counted h' ({[+ a +]} ⊎ X).
Proof.
  intros Hs Ha Hc Hb. unfold make_shared_copy. rewrite Hs. simpl.
  assert (0 < multiplicity a X)%nat as Hpos by (by apply elem_of_multiplicity).
  pose proof (Hc a) as Hca.
  destruct (decide (multiplicity a X = 0%nat)); [lia |].
  rewrite Hca. simpl.
  pose proof (multiplicity_le_size a X).
  rewrite wrap_int_small by lia.
  eexists. split; [done |]. intros b. simpl.
  rewrite multiplicity_disj_union.
  destruct (decide (b = a)) as [-> | Hne].
  - rewrite lookup_insert_eq, multiplicity_singleton_eq. simpl.
    f_equal. lia.
  - rewrite lookup_insert_ne by done.
    rewrite multiplicity_singleton_ne by done. apply Hc.
Qed.

Lemma counted_child_repo (A : allocator) ni opened r a h X :
  refcnt r = Some a → a ∈ X → counted h X →
  Z.of_nat (size X) < 2 ^ 31 - 1 →
  ∃ h' cr a', child_repo A ni opened r h = Some (h', cr) ∧
              refcnt cr = Some a' ∧
              counted h' ({[+ a' +]} ⊎ X).
Proof.
  intros Hr Ha Hc Hb. unfold child_repo.
  destruct (counted_make_shared A None h X Hc) as (a1 & Ha1 & _ & Hc1).
  destruct (make_shared A None h) as [h1 cr] eqn:Hm. simpl in Ha1, Hc1.
  destruct ni; [by eauto 6 |].
  destruct opened as [g |]; [by eauto 6 |].
  destruct (counted_free_shared cr a1 h1 X Ha1 Hc1) as (h2 & -> & Hc2);
    [lia |].
  simpl.
  destruct (counted_make_shared_copy r a h2 X Hr Ha Hc2 Hb) as (h3 & -> & Hc3).
  by eauto 6.
Qed.

Lemma counted_root_repo (A : allocator) ni opened h X :
  counted h X →
  ∃ a, refcnt (root_repo A ni opened h).2 = Some a ∧
       counted (root_repo A ni opened h).1 ({[+ a +]} ⊎ X).
Proof.
  intros Hc. unfold root_repo.
  destruct (counted_make_shared A None h X Hc) as (a1 & Ha1 & _ & Hc1).
  destruct (make_shared A None h) as [h1 cr] eqn:Hm. simpl in Ha1, Hc1.
  destruct ni; simpl; eauto.
Qed.

Lemma pass_nonneg c n X : pass c n X → 0 ≤ n.
Proof. induction 1; lia. Qed.

Lemma credit_of_nonneg o t n X : credit_of o t n X → 0 ≤ n.
Proof.
  destruct t; simpl; [intros [-> _]; lia | intros [-> _]; lia | |
                      intros [-> _]; lia].
  intros [H _]. by eapply pass_nonneg.
Qed.

Lemma credits_nonneg o ts n X : credits o ts n X → 0 ≤ n.
Proof.
  induction 1 as [| t ts n m X Y Ht _ IH]; [lia |].
  apply credit_of_nonneg in Ht. lia.
Qed.

Lemma credits_snoc o ts n X t :
  credits o ts n X → credit_of o t 0 ∅ → credits o (ts ++ [t]) n X.
Proof.
  induction 1 as [| t0 ts n m X Y Ht _ IH]; intros H0; simpl.
  - replace 0 with (0 + 0) by lia.
    replace (∅ : gmultiset nat) with (∅ ⊎ ∅ : gmultiset nat)
      by multiset_solver.
    constructor; [done | constructor].
  - constructor; [done | by apply IH].
Qed.

Lemma credits_lookup o ts total Z i t :
  credits o ts total Z → ts !! i = Some t →
  ∃ n m X Y, credit_of o t n X ∧ total = n + m ∧ 0 ≤ m ∧ Z = X ⊎ Y ∧
             ∀ t' n' X', credit_of o t' n' X' →
                         credits o (<[i := t']> ts) (n' + m) (X' ⊎ Y).
Proof.
  intros H. revert i. induction H as [| t0 ts n m X Y Ht Hts IH];
    intros i Hi; [done |].
  destruct i as [| i]; simpl in Hi.
  - injection Hi as ->. exists n, m, X, Y.
    split; [done |]. split; [done |].
    split; [by eapply credits_nonneg |]. split; [done |].
    intros t' n' X' Ht'. simpl. by constructor.
  - destruct (IH i Hi) as (k & r & X0 & Y0 & Hk & -> & Hr & -> & Hupd).
    pose proof (credit_of_nonneg _ _ _ _ Ht).
    exists k, (n + r), X0, (X ⊎ Y0).
    split; [done |]. split; [lia |]. split; [lia |].
    split; [multiset_solver |].
    intros t' n' X' Ht'. simpl.
    replace (n' + (n + r)) with (n + (n' + r)) by lia.
    replace (X' ⊎ (X ⊎ Y0)) with (X ⊎ (X' ⊎ Y0)) by multiset_solver.
    constructor; [done | by apply Hupd].
Qed.

Lemma driver_nonneg c n nw X : driver c n nw X → 0 ≤ n.
Proof.
  induction 1 as [| | ni opened f n nw _ IH | |]; try lia; try done.
  by apply (IH {| ptr := None; refcnt := Some 0%nat |} 0%nat).
Qed.

Lemma walk_entry_pass w o sc parent l_parent depth repo a e rest X :
  (∀ name, is_Some (matches w o sc name)) →
  refcnt repo = Some a → a ∈ X →
  pass rest 1 X →
  pass (walk_entry w o sc parent l_parent depth repo e rest) 1 X.
Proof.
  intros Hm Hr Ha Hrest. unfold walk_entry.
  destruct (is_dot (d_name e)); [done |].
  destruct (skip_hidden o && hidden (d_name e)); [done |].
  destruct (ignored w o (ptr repo) (d_name e)); [done |].
  destruct (Hm (d_name e)) as [b ->].
  destruct (bool_decide (d_type e = DT_DIR)).
  - assert (∀ c l s p,
              pass (FlagmanAcquire
                      (ChildRepo (no_ignore o) c repo
                         (λ cr, QueuePut (message_body_new l s p cr)
                                  (to_size_t l) rest))) 1 X) as Hq.
    { intros c l s p. constructor. econstructor; [done | done |].
      intros cr a' Hcr. by constructor. }
    destruct b; [destruct (type_ok o e); [constructor |] |]; apply Hq.
  - destruct b; [destruct (type_ok o e); [by constructor |] |]; done.
Qed.

Lemma walk_pass w o sc parent l_parent depth repo a k X :
  (∀ name, is_Some (matches w o sc name)) →
  refcnt repo = Some a → a ∈ X →
  pass k 1 X →
  pass (walk w o sc parent l_parent depth repo k) 1 X.
Proof.
  intros Hm Hr Ha Hk. unfold walk, foreach_opendir.
  destruct (bool_decide (0 < max_depth o) && bool_decide (max_depth o ≤ depth));
    [done |].
  destruct (opendir w parent) as [es |]; [| done].
  induction es as [| e es IH]; simpl; [done |].
  by eapply walk_entry_pass.
Qed.

Lemma worker_item_pass w o sc b a :
  worker_setup o = Some sc → cell_of b = Some a →
  pass (worker_item w o sc b) 1 {[+ a +]}.
Proof.
  intros Hsc Hb. unfold worker_item, foreach_queue_get.
  eapply walk_pass.
  - intros name. by eapply worker_setup_matches.
  - exact Hb.
  - multiset_solver.
  - do 2 constructor. done.
Qed.

Lemma winding_join nw i n :
  (i + n ≤ nw)%nat → winding nw (join_from i n Ret).
Proof.
  revert i. induction n as [| n IH]; intros i Hi; simpl; constructor;
    [lia | apply IH; lia].
Qed.

Lemma winding_main n :
  winding n (repeat_cmd n (QueuePutTail None) (join_from 0 n Ret)).
Proof.
  unfold repeat_cmd.
  generalize (join_from 0 n Ret) (winding_join n 0 n (le_n _)).
  intros c Hc. generalize n at 2. intros k.
  induction k as [| k IH]; simpl; [done | by constructor].
Qed.

Lemma main_driver w o :
  (List.length (roots o) ≤ 1)%nat → driver (main w o) 0 0 ∅.
Proof.
  intros Hr. unfold main. constructor.
  assert (∀ n k c, driver c 1 (n + k) ∅ →
                   driver (repeat_cmd n PthreadCreate c) 1 k ∅) as Hn.
  { intros n. unfold repeat_cmd.
    induction n as [| n IH]; intros k c Hc; simpl; [done |].
    constructor. apply IH.
    by replace (n + S k)%nat with (S n + k)%nat by lia. }
  apply Hn. rewrite Nat.add_0_r.
  pose proof (winding_main (Z.to_nat (nthreads o))) as Hw.
  destruct (roots o) as [| r [| r' rs]]; simpl in *; [| | lia].
  - constructor. intros s a Hs. constructor; [done |]. by constructor.
  - constructor. intros s a Hs. constructor; [done |]. by constructor.
Qed.

Lemma queued_cells_app (l1 l2 : list (item message_body)) :
  queued_cells (l1 ++ l2) = queued_cells l1 ⊎ queued_cells l2.
Proof. unfold queued_cells. by rewrite omap_app, list_to_set_disj_app. Qed.

Lemma queued_cells_cons x (l : list (item message_body)) b a :
  payload x = Some b → cell_of b = Some a →
  queued_cells (x :: l) = {[+ a +]} ⊎ queued_cells l.
Proof.
  intros Hx Hb. unfold queued_cells. simpl. by rewrite Hx; simpl; rewrite Hb.
Qed.

Lemma queued_cells_insert i x (l : list (item message_body)) b a :
  payload x = Some b → cell_of b = Some a →
  queued_cells (take i l ++ x :: drop i l) = {[+ a +]} ⊎ queued_cells l.
Proof.
  intros Hx Hb.
  rewrite queued_cells_app, (queued_cells_cons _ _ _ _ Hx Hb).
  rewrite <- (take_drop i l) at 3. rewrite queued_cells_app.
  multiset_solver.
Qed.

Lemma queued_cells_none (l : list (item message_body)) :
  Forall (λ x, payload x = None) l → queued_cells l = ∅.
Proof.
  unfold queued_cells. induction 1 as [| x l Hx _ IH]; simpl; [done |].
  by rewrite Hx.
Qed.

Lemma step_main_working A w o s k :
  working o k s → Z.of_nat k < 2 ^ 31 - 2 →
  match step A w o Main s with
  | Done s' =>
      (working o (S k) s' ∧ ∀ c, main_thread s ≠ FlagmanWait c) ∨
      (terminating o (S k) s' ∧
       ∃ c, main_thread s = FlagmanWait c ∧ flagman s = 0 ∧
            stdout s' = stdout s)
  | Blocked => True
  | Fault => False
  end.
Proof.
  intros (l & m & n & X & Y & Hd & Hq & Hlen & Hsome & Hc & Hf & Hh & Hk) Hb.
  simpl.
  inversion Hd as [c nw Hd' Hm | c k' nw X' Hd' Hm | ni opened f k' nw Hd' Hm
                   | b c a nw Hb' Hd' Hm | c nw Hw Hm]; subst;
    try rewrite <- Hm; simpl.
  - left. split; [| done]. exists l, 1, n, ∅, Y. simpl.
    unfold Flagman.flagman_acquire. split_and!; try done; lia.
  - left. split; [| done]. exists l, m, n, X, Y. simpl.
    split_and!; try done; [| by apply credits_snoc | lia].
    by rewrite length_app, Nat.add_1_r.
  - destruct (counted_root_repo A ni opened (mem s) _ Hh) as (a & Ha & Hh').
    destruct (root_repo A ni opened (mem s)) as [h r]. simpl in Ha, Hh'.
    simpl. left. split; [| done]. exists l, m, n, {[+ a +]}, Y. simpl.
    split_and!; try done; [by apply Hd' | |].
    + eapply counted_eq; [exact Hh' | multiset_solver].
    + sizes Hk.
  - destruct (queue_put_head_holds A (q s) l (Some b) Hq)
      as (q' & Hput & Hq' & Hlen' & _).
    rewrite Hput. simpl.
    left. split; [| done].
    exists (new_item A (q s) QUEUE_PRIORITY_MAX (Some b) :: l), 0, n, ∅, Y.
    rewrite (queued_cells_cons _ l b a) by done.
    simpl. split_and!; try done.
    + by rewrite Hlen', Hlen.
    + constructor; [by eauto | done].
    + lia.
    + eapply counted_eq; [exact Hh | multiset_solver].
    + sizes Hk.
  - unfold Flagman.flagman_wait.
    destruct (decide (flagman s = 0)) as [H0 | H0]; [| done]. simpl.
    pose proof (credits_nonneg _ _ _ _ Hc).
    assert (l = []) as -> by (destruct l; [done | simpl in Hf; lia]).
    simpl in Hf. assert (n = 0) as -> by lia.
    right. split; [| by eauto]. exists [], Y. simpl.
    split_and!; try done.
    + eapply counted_eq; [exact Hh | multiset_solver].
    + sizes Hk.
Qed.

Lemma step_worker_working A w o i s k :
  is_Some (worker_setup o) →
  working o k s → Z.of_nat k < 2 ^ 31 - 2 →
  match step A w o (Worker i) s with
  | Done s' => working o (S k) s'
  | Blocked => True
  | Fault => workers s !! i = None
  end.
Proof.
  intros [sc0 Hsc0]
    (l & m & n & X & Y & Hd & Hq & Hlen & Hsome & Hc & Hf & Hh & Hk) Hb.
  simpl. unfold worker_step.
  destruct (workers s !! i) as [t |] eqn:Hi; [| done].
  destruct (credits_lookup _ _ _ _ _ _ Hc Hi)
    as (n0 & r & X0 & Y0 & Ht & -> & Hr & -> & Hupd).
  destruct t as [| sc | sc c |]; simpl in Ht.
  - destruct Ht as [-> ->]. rewrite Hsc0. simpl.
    exists l, m, (0 + r), X, (∅ ⊎ Y0). simpl.
    split_and!; try done; try lia; try (by rewrite length_insert); [by apply Hupd].
  - destruct Ht as (-> & -> & Hsc).
    destruct (length (q s)) as [| len] eqn:Hn;
      [by unfold queue_get; rewrite Hn |].
    destruct l as [| x l']; [simpl in Hlen; lia |].
    destruct (queue_get_holds (q s) x l' Hq) as (q' & Hget & Hq' & Hlen' & _);
      [lia |].
    rewrite Hget. simpl.
    apply Forall_cons in Hsome as [(b & Hx & a & Ha) Hsome]. rewrite Hx.
    rewrite (queued_cells_cons _ _ _ _ Hx Ha) in Hh, Hk.
    exists l', m, (1 + r), X, ({[+ a +]} ⊎ Y0). simpl.
    split_and!; try done; try lia; try (by rewrite length_insert).
    + rewrite Hlen', Hn. simpl in Hlen. lia.
    + apply Hupd. split; [by apply worker_item_pass | done].
    + simpl in Hf. lia.
    + eapply counted_eq; [exact Hh | multiset_solver].
    + sizes Hk.
  - destruct Ht as [Hp Hsc].
    destruct Hp as [c X0 Hfin | c X0 Hfin | line c X0 Hp | c X0 Hp
                    | ni opened p f a X0 Hp Ha Hf' | b prio c a X0 Hb' Hp].
    + destruct Hfin as [| b a Ha].
      * exists l, m, (0 + r), X, (∅ ⊎ Y0). simpl.
        split_and!; try done; try lia; try (by rewrite length_insert); [by apply Hupd].
      * simpl.
        destruct (counted_free_shared (repo b) a (mem s)
                    (X ⊎ queued_cells l ⊎ Y0)) as (h' & -> & Hh');
          [done | eapply counted_eq; [exact Hh | multiset_solver]
           | sizes Hk |].
        simpl. exists l, m, (0 + r), X, (∅ ⊎ Y0). simpl.
        split_and!; try done; try lia; try (by rewrite length_insert).
        -- apply Hupd. split; [do 2 constructor | done].
        -- eapply counted_eq; [exact Hh' | multiset_solver].
        -- sizes Hk.
    + simpl. exists l, m, (0 + r), X, (X0 ⊎ Y0). simpl.
      split_and!; try done; try lia; try (by rewrite length_insert).
      * apply Hupd. split; [by constructor | done].
      * unfold Flagman.flagman_release. lia.
    + simpl. exists l, m, (1 + r), X, (X0 ⊎ Y0). simpl.
      split_and!; try done; try lia; try (by rewrite length_insert); [by apply Hupd].
    + simpl. exists l, m, (2 + r), X, (X0 ⊎ Y0). simpl.
      split_and!; try done; try lia; try (by rewrite length_insert).
      * by apply Hupd.
      * unfold Flagman.flagman_acquire. lia.
    + simpl.
      destruct (counted_child_repo A ni opened p a (mem s)
                  (X ⊎ queued_cells l ⊎ (X0 ⊎ Y0)))
        as (h' & cr & a' & -> & Hcr & Hh'); [done | multiset_solver | done
                                              | lia |].
      simpl. exists l, m, (2 + r), X, (({[+ a' +]} ⊎ X0) ⊎ Y0). simpl.
      split_and!; try done; try lia; try (by rewrite length_insert).
      * apply Hupd. split; [by apply Hf' | done].
      * eapply counted_eq; [exact Hh' | multiset_solver].
      * sizes Hk.
    + simpl.
      destruct (queue_put_holds A (q s) l (Some b) prio Hq)
        as (q' & -> & Hq' & Hlen' & _).
      simpl.
      eexists _, m, (1 + r), X, (X0 ⊎ Y0). simpl.
      split_and!; [by rewrite length_insert | exact Hq' | ..].
      * rewrite Hlen', Hlen, length_app. simpl.
        rewrite <- (take_drop (S (put_index (tail (q s)) prio l)) l) at 1.
        rewrite length_app. lia.
      * apply Forall_app. split; [by apply Forall_take |].
        constructor; [by eauto | by apply Forall_drop].
      * by apply Hupd.
      * rewrite length_app. simpl.
        rewrite <- (take_drop (S (put_index (tail (q s)) prio l)) l) in Hf at 1.
        rewrite length_app in Hf. lia.
      * rewrite (queued_cells_insert _ _ _ b a) by done.
        eapply counted_eq; [exact Hh | multiset_solver].
      * rewrite (queued_cells_insert _ _ _ b a) by done.
        sizes Hk.
  - done.
Qed.

Lemma step_terminating A w o t s k :
  is_Some (worker_setup o) →
  terminating o k s → Z.of_nat k < 2 ^ 31 - 2 →
  match step A w o t s with
  | Done s' => terminating o (S k) s'
  | Blocked => True
  | Fault => ∃ i, t = Worker i ∧ workers s !! i = None
  end.
Proof.
  intros [sc0 Hsc0] (l & Y & Hw & Hq & Hnone & Hc & Hf & Hh & Hk) Hb.
  destruct t as [| i]; simpl.
  - inversion Hw as [Hm | c Hw' Hm | i c Hi Hw' Hm]; try rewrite <- Hm;
      simpl; [done | |].
    + destruct (exact_put_tail A (q s) l None Hq) as (q' & -> & Hq').
      simpl. eexists _, Y. simpl.
      split_and!; [done | exact Hq' | | done | done | done | lia].
      apply Forall_app. split; [done | by constructor].
    + destruct (lookup_lt_is_Some_2 (workers s) i Hi) as [t ->].
      destruct t; try done. exists l, Y. split_and!; try done. lia.
  - unfold worker_step.
    destruct (workers s !! i) as [t |] eqn:Hi; [| by eauto].
    destruct (credits_lookup _ _ _ _ _ _ Hc Hi)
      as (n0 & r & X0 & Y0 & Ht & H0 & Hr & -> & Hupd).
    pose proof (credit_of_nonneg _ _ _ _ Ht).
    assert (n0 = 0) as -> by lia. assert (r = 0) as -> by lia.
    destruct t as [| sc | sc c |]; simpl in Ht.
    + destruct Ht as [_ ->]. rewrite Hsc0. simpl.
      exists l, (∅ ⊎ Y0). simpl.
      split_and!; try done; try lia; try (by rewrite length_insert); [by apply (Hupd _ 0 ∅)].
    + destruct Ht as (_ & -> & Hsc).
      destruct l as [| x l'].
      * by rewrite (exact_get_empty _ Hq).
      * destruct (exact_get _ _ _ Hq) as (q' & -> & Hq'). simpl.
        apply Forall_cons in Hnone as [-> Hnone].
        exists l', (∅ ⊎ Y0). simpl.
        split_and!; try done; try lia; try (by rewrite length_insert); [by apply (Hupd _ 0 ∅)].
    + destruct Ht as [Hp Hsc].
      inversion Hp as [c' X' Hfin Hc' | | | | |]; subst.
      destruct Hfin as [| b a Ha].
      * exists l, (∅ ⊎ Y0). simpl.
        split_and!; try done; try lia; try (by rewrite length_insert); [by apply (Hupd _ 0 ∅)].
      * simpl.
        destruct (counted_free_shared (repo b) a (mem s) Y0)
          as (h' & -> & Hh'); [done | done | sizes Hk |].
        simpl. exists l, (∅ ⊎ Y0). simpl.
        split_and!; try done; try lia; try (by rewrite length_insert).
        -- apply (Hupd (Busy sc Ret) 0 ∅). split; [do 2 constructor | done].
        -- eapply counted_eq; [exact Hh' | multiset_solver].
        -- sizes Hk.
    + done.
Qed.

Lemma step_accounted A w o t s k :
  is_Some (worker_setup o) →
  accounted o k s → Z.of_nat k < 2 ^ 31 - 2 →
  match step A w o t s with
  | Done s' => accounted o (S k) s'
  | Blocked => True
  | Fault => ∃ i, t = Worker i ∧ workers s !! i = None
  end.
Proof.
  intros Hsc [Hs | Hs] Hb.
  - destruct t as [| i].
    + pose proof (step_main_working A w o s k Hs Hb) as H.
      destruct (step A w o Main s); [| done | done].
      destruct H as [[H _] | [H _]]; [by left | by right].
    + pose proof (step_worker_working A w o i s k Hsc Hs Hb) as H.
      destruct (step A w o (Worker i) s); [by left | done | by eauto].
  - pose proof (step_terminating A w o t s k Hsc Hs Hb) as H.
    destruct (step A w o t s); [by right | done | done].
Qed.

Lemma initial_working w o :
  (List.length (roots o) ≤ 1)%nat → working o 0 (initial w o).
Proof.
  intros Hr. exists [], 0, 0, ∅, ∅. simpl.
  split_and!; [by apply main_driver | apply holds_queue_new | done | done
               | constructor | done | | done].
  intros a. simpl. by rewrite lookup_empty.
Qed.

Lemma run_accounted A w o sched s s' k :
  is_Some (worker_setup o) →
  accounted o k s →
  Z.of_nat (k + List.length sched) < 2 ^ 31 - 1 →
  run A w o sched s = Done s' →
  accounted o (k + List.length sched) s'.
Proof.
  intros Hsc. revert s k. induction sched as [| t sched IH];
    intros s k Hs Hb Hrun; simpl in Hrun.
  - injection Hrun as <-. simpl. by rewrite Nat.add_0_r.
  - simpl in Hb.
    pose proof (step_accounted A w o t s k Hsc Hs) as H.
    destruct (step A w o t s) as [s1 | |]; [| done | done].
    simpl in Hrun. simpl.
    replace (k + S (List.length sched))%nat
      with (S k + List.length sched)%nat by lia.
    apply (IH s1); [apply H; lia | lia | done].
Qed.

Lemma accounted_flagman o k s : accounted o k s → 0 ≤ flagman s.
Proof.
  intros [(l & m & n & X & Y & Hd & _ & _ & _ & Hc & -> & _)
         | (l & Y & _ & _ & _ & _ & -> & _)]; [| done].
  apply driver_nonneg in Hd. apply credits_nonneg in Hc. lia.
Qed.

Lemma exec_workers A c s k s' :
  exec A c s = Done (k, s') →
  (List.length (workers s) ≤ List.length (workers s'))%nat.
Proof.
  destruct c as [| | line c | c | c | c | ni opened r f | ni opened f | b c
                 | b prio c | b c | b c | c | i c];
    simpl; try done; try (by intros [= _ <-]).
  - destruct (Flagman.flagman_wait (flagman s)); simpl; [| done | done].
    by intros [= _ <-].
  - destruct (child_repo A ni opened r (mem s)) as [[h cr] |];
      simpl; [| done]. by intros [= _ <-].
  - destruct (root_repo A ni opened (mem s)) as [h r0].
    by intros [= _ <-].
  - destruct (free_shared (repo b) (mem s)); simpl; [| done].
    by intros [= _ <-].
  - destruct (queue_put A (q s) (Some b) prio); simpl; [| done].
    by intros [= _ <-].
  - destruct (queue_put_head A (q s) (Some b)); simpl; [| done].
    by intros [= _ <-].
  - destruct (queue_put_tail A (q s) b); simpl; [| done].
    by intros [= _ <-].
  - intros [= _ <-]. simpl. rewrite length_app. lia.
  - destruct (workers s !! i) as [[| | |] |]; try done. by intros [= _ <-].
Qed.

Lemma working_no_exit A w o k i s s' :
  working o k s → step A w o (Worker i) s = Done s' →
  workers s' !! i ≠ Some Exited.
Proof.
  intros (l & m & n & X & Y & Hd & Hq & Hlen & Hsome & Hc & Hf & Hh & Hk).
  simpl. unfold worker_step.
  destruct (workers s !! i) as [t |] eqn:Hi; [| done].
  pose proof (lookup_lt_Some _ _ _ Hi) as Hlt.
  destruct t as [| sc | sc c |].
  - destruct (worker_setup o); simpl; [| done]. intros [= <-]. simpl.
    by rewrite list_lookup_insert_eq.
  - destruct (length (q s)) as [| len] eqn:Hn;
      [by unfold queue_get; rewrite Hn |].
    destruct l as [| x l']; [simpl in Hlen; lia |].
    destruct (queue_get_holds (q s) x l' Hq) as (q' & -> & _); [lia |].
    apply Forall_cons in Hsome as [(b & -> & _) _]. simpl.
    intros [= <-]. simpl. by rewrite list_lookup_insert_eq.
  - assert (∀ x, outcome_bind
                   (λ '(k0, s0),
                      Done (set_workers (<[i := Busy sc k0]> (workers s0)) s0))
                   x = Done s' → ∃ k0 s0, x = Done (k0, s0) ∧
                     s' = set_workers (<[i := Busy sc k0]> (workers s0)) s0)
      as Hbind.
    { intros [[k0 s0] | |]; simpl; [| done | done]. intros [= <-]. eauto. }
    destruct c as [| | line c | c | c | c | ni opened r f | ni opened f | b c
                   | b prio c | b c | b c | c | j c];
      try (intros (k0 & s0 & Hx & ->)%Hbind; apply exec_workers in Hx;
           simpl; rewrite list_lookup_insert_eq by lia; done).
    intros [= <-]. simpl. by rewrite list_lookup_insert_eq.
  - done.
Qed.

(** X23.  On a run with at most one root, of fewer than 2^31 steps (so
    that no [int] wraps), the accounting holds in every state reached.
    Before [main] has passed [flagman_wait], the flagman is the number of
    messages in the queue, plus one for each pass that has not called
    [flagman_release] yet, plus one for each [flagman_acquire] whose message
    is not queued yet; the queue holds no terminator.  Afterwards the
    flagman is 0, the queue holds terminators only, and no pass is under
    way beyond the freeing of its message.  Throughout, every counter cell
    holds the number of the handles that point to it.  So the flagman is
    never negative.  (The flagman is the counter the spec describes.) *)
Theorem single_root_accounted A w o sched s :
  (List.length (roots o) ≤ 1)%nat →
  is_Some (worker_setup o) →
  Z.of_nat (List.length sched) < 2 ^ 31 - 1 →
  run A w o sched (initial w o) = Done s →
  accounted o (List.length sched) s ∧ 0 ≤ flagman s.
Proof.
  intros Hr Hsc Hb Hrun.
  assert (accounted o (List.length sched) s) as H.
  { apply (run_accounted A w o sched (initial w o) s 0 Hsc); [| done | done].
    left. by apply initial_working. }
  split; [done | by eapply accounted_flagman].
Qed.

(** X24.  On a run with at most one root, of fewer than 2^31 steps, with
    a matcher that fits the mode, nothing undefined happens: in every state
    reached, the next step of [main] and of every worker that exists
    returns or blocks.  No queue operation follows a null or dangling
    pointer, no counter cell is read after it was freed, [worker] reads the
    member of the union that was written, and [pthread_join] is called on
    threads that were created. *)
Theorem single_root_no_fault A w o sched s :
  (List.length (roots o) ≤ 1)%nat →
  is_Some (worker_setup o) →
  Z.of_nat (List.length sched) < 2 ^ 31 - 2 →
  run A w o sched (initial w o) = Done s →
  step A w o Main s ≠ Fault ∧
  ∀ i, is_Some (workers s !! i) → step A w o (Worker i) s ≠ Fault.
Proof.
  intros Hr Hsc Hb Hrun.
  assert (accounted o (List.length sched) s) as H.
  { apply (run_accounted A w o sched (initial w o) s 0 Hsc);
      [| simpl; lia | done].
    left. by apply initial_working. }
  split.
  - intros Hstep.
    pose proof (step_accounted A w o Main s _ Hsc H Hb) as Hs.
    rewrite Hstep in Hs. by destruct Hs as (i & Hi & _).
  - intros i [t Ht] Hstep.
    pose proof (step_accounted A w o (Worker i) s _ Hsc H Hb) as Hs.
    rewrite Hstep in Hs. destruct Hs as (j & [= <-] & Hj). congruence.
Qed.

(** X25.  When a run with at most one root has ended ([main] and every
    worker have returned), every counter cell obtained from [malloc] has
    been freed, the flagman is 0, and what is left in the queue is
    terminators. *)
Theorem single_root_no_leak A w o sched s :
  (List.length (roots o) ≤ 1)%nat →
  is_Some (worker_setup o) →
  Z.of_nat (List.length sched) < 2 ^ 31 - 1 →
  run A w o sched (initial w o) = Done s →
  finished s →
  cells (mem s) = ∅ ∧ flagman s = 0 ∧
  ∃ l, exact (q s) l ∧ Forall (λ x, payload x = None) l.
Proof.
  intros Hr Hsc Hb Hrun [Hm Hex].
  assert (accounted o (List.length sched) s) as H.
  { apply (run_accounted A w o sched (initial w o) s 0 Hsc); [| done | done].
    left. by apply initial_working. }
  destruct H as [(l & m & n & X & Y & Hd & _) | (l & Y & _ & Hq & Hn & Hc & Hf & Hh & _)].
  - rewrite Hm in Hd. inversion Hd.
  - assert (Y = ∅) as ->.
    { clear Hh. revert Hex Hc. generalize 0. generalize (workers s).
      intros ts z Hex Hc. induction Hc as [| t ts n m X Y Ht _ IH]; [done |].
      apply Forall_cons in Hex as [-> Hex]. destruct Ht as [_ ->].
      rewrite (IH Hex). multiset_solver. }
    split; [| by eauto].
    apply map_eq. intros a. rewrite Hh, lookup_empty.
    by rewrite multiplicity_empty.
Qed.

(** X26.  On a run with at most one root a worker returns only after
    [main] has passed [flagman_wait]: if a step of a worker leaves it
    returned, then in the state before it the flagman was 0, the queue held
    terminators only, and no pass was under way beyond the freeing of its
    message. *)
Theorem terminator_taken_after_wait A w o sched s i s' :
  (List.length (roots o) ≤ 1)%nat →
  is_Some (worker_setup o) →
  Z.of_nat (List.length sched) < 2 ^ 31 - 1 →
  run A w o sched (initial w o) = Done s →
  step A w o (Worker i) s = Done s' →
  workers s' !! i = Some Exited →
  terminating o (List.length sched) s.
Proof.
  intros Hr Hsc Hb Hrun Hstep Hex.
  assert (accounted o (List.length sched) s) as H.
  { apply (run_accounted A w o sched (initial w o) s 0 Hsc); [| done | done].
    left. by apply initial_working. }
  destruct H as [H | H]; [| done].
  by destruct (working_no_exit A w o _ i s s' H Hstep).
Qed.

End AccountingFacts.

(** ** Runs: what is written is expected *)

Section OutputFacts.

Import Shared Options FF Queue Output.

Lemma set_next_msgs {M} (P : option M → Prop) a nx (ns ns' : gmap nat (node M)) :
  map_Forall (λ _ n, P (msg n)) ns →
  set_next a nx ns = Some ns' →
  map_Forall (λ _ n, P (msg n)) ns'.
Proof.
  intros Hns. unfold set_next.
  destruct (ns !! a) as [n |] eqn:Ha; [| done]. simpl. intros [= <-].
  apply map_Forall_insert_2; [| done]. simpl. by apply (Hns a n).
Qed.

(** The payloads of the nodes of a queue are those that were put. *)
Lemma queue_put_msgs {M} (P : option M → Prop) A (qu qu' : queue M) m pr :
  map_Forall (λ _ n, P (msg n)) (nodes qu) → P m →
  queue_put A qu m pr = Some qu' →
  map_Forall (λ _ n, P (msg n)) (nodes qu').
Proof.
  intros Hns Hm. unfold queue_put.
  set (ns := <[_ := _]> (nodes qu)).
  assert (map_Forall (λ _ n, P (msg n)) ns) as Hns'
    by (by apply map_Forall_insert_2).
  destruct (is_empty qu); [by intros [= <-] |].
  intros H. bind_cases H. injection H as <-. simpl.
  eapply set_next_msgs; [| eassumption]. by eapply set_next_msgs.
Qed.

Lemma queue_put_head_msgs {M} (P : option M → Prop) A (qu qu' : queue M) m :
  map_Forall (λ _ n, P (msg n)) (nodes qu) → P m →
  queue_put_head A qu m = Some qu' →
  map_Forall (λ _ n, P (msg n)) (nodes qu').
Proof.
  intros Hns Hm. unfold queue_put_head.
  set (ns := <[_ := _]> (nodes qu)).
  assert (map_Forall (λ _ n, P (msg n)) ns) as Hns'
    by (by apply map_Forall_insert_2).
  destruct (is_empty qu); [by intros [= <-] |].
  intros H. bind_cases H. injection H as <-. simpl.
  by eapply set_next_msgs.
Qed.

Lemma queue_put_tail_msgs {M} (P : option M → Prop) A (qu qu' : queue M) m :
  map_Forall (λ _ n, P (msg n)) (nodes qu) → P m →
  queue_put_tail A qu m = Some qu' →
  map_Forall (λ _ n, P (msg n)) (nodes qu').
Proof.
  intros Hns Hm. unfold queue_put_tail.
  set (ns := <[_ := _]> (nodes qu)).
  assert (map_Forall (λ _ n, P (msg n)) ns) as Hns'
    by (by apply map_Forall_insert_2).
  destruct (is_empty qu); [by intros [= <-] |].
  intros H. bind_cases H. injection H as <-. simpl.
  by eapply set_next_msgs.
Qed.

Lemma queue_get_msgs {M} (P : option M → Prop) (qu qu' : queue M) m :
  map_Forall (λ _ n, P (msg n)) (nodes qu) →
  queue_get qu = Done (m, qu') →
  P m ∧ map_Forall (λ _ n, P (msg n)) (nodes qu').
Proof.
  intros Hns. unfold queue_get.
  destruct (length qu) as [| len]; [done |].
  destruct (head qu) as [h |]; [| done]. simpl.
  destruct (nodes qu !! h) as [n |] eqn:Hn; [| done]. simpl.
  assert (map_Forall (λ _ n, P (msg n)) (delete h (nodes qu))) as Hd
    by (by apply map_Forall_delete).
  destruct (next n); simpl; intros [= <- <-]; simpl;
    (split; [by apply (Hns h n) | done]).
Qed.

Lemma wanted_mono w o k k' b : (k ≤ k')%nat → wanted w o k b → wanted w o k' b.
Proof. intros Hk (Hr & Hl & Hd). split_and!; try done; lia. Qed.

Lemma sound_mono w o sc k k' c :
  (k ≤ k')%nat → sound w o sc k c → sound w o sc k' c.
Proof.
  intros Hk. induction 1; constructor; eauto using wanted_mono.
Qed.

Lemma child_repo_ptr A ni opened r h h' cr :
  child_repo A ni opened r h = Some (h', cr) →
  ptr cr = child_scope ni opened r.
Proof.
  unfold child_repo, child_scope. simpl.
  destruct ni; [by intros [= _ <-] |].
  destruct opened as [g |]; [by intros [= _ <-] |].
  intros H. bind_cases H. unfold make_shared_copy in H. bind_cases H.
  by injection H as _ <-.
Qed.

Lemma root_repo_ptr A ni opened h :
  ptr (root_repo A ni opened h).2 = if ni then None else opened.
Proof. unfold root_repo. simpl. by destruct ni. Qed.

Lemma walk_entry_sound w o sc k parent depth repo es e rest :
  reachable w o depth parent (ptr repo) →
  0 ≤ depth ≤ Z.of_nat k → Z.of_nat k < 2 ^ 31 - 2 →
  ¬ (0 < max_depth o ≤ depth) →
  opendir w parent = Some es → e ∈ es →
  sound w o sc (S k) rest →
  sound w o sc (S k)
    (walk_entry w o sc parent (String.length parent) depth repo e rest).
Proof.
  intros Hr Hd Hk Hmax Hes He Hrest. unfold walk_entry.
  destruct (is_dot (d_name e)) eqn:Hdot; [done |].
  destruct (skip_hidden o && hidden (d_name e)) eqn:Hhid; [done |].
  destruct (ignored w o (ptr repo) (d_name e)) eqn:Hign; [done |].
  destruct (assemble_exact parent (d_name e)) as [-> _].
  rewrite wrap_int_small by lia.
  set (queue_it := if bool_decide (d_type e = DT_DIR) then _ else rest).
  assert (sound w o sc (S k) queue_it) as Hq.
  { unfold queue_it. case_bool_decide as Hdir; [| done].
    constructor. constructor. intros cr Hcr. constructor; [| done].
    split_and!; simpl.
    - rewrite Hcr. unfold child_scope.
      pose proof (reachable_child w o depth parent (ptr repo) es e
                    Hr Hmax Hes He Hdot Hhid Hign Hdir) as Hc.
      by destruct (no_ignore o).
    - rewrite !string_length_app. simpl. lia.
    - lia.
    - lia. }
  destruct (matches w o sc (d_name e)) as [[|] |] eqn:Hm;
    [| done | constructor].
  destruct (type_ok o e) eqn:Hty; [| done].
  constructor; [| done].
  exists depth, parent, (ptr repo), es, e. by split_and!.
Qed.

Lemma walk_sound w o sc k b c :
  wanted w o k b → Z.of_nat k < 2 ^ 31 - 2 →
  sound w o sc (S k) c →
  sound w o sc (S k) (walk w o sc (str b) (len b) (depth b) (repo b) c).
Proof.
  intros (Hr & Hl & Hd) Hk Hc. unfold walk, foreach_opendir.
  destruct (bool_decide (0 < max_depth o) && bool_decide (max_depth o ≤ depth b))
    eqn:Hmax; [done |].
  assert (¬ (0 < max_depth o ≤ depth b)) as Hmax'.
  { intros [H1 H2]. apply andb_false_iff in Hmax as [Hmax | Hmax];
      by apply bool_decide_eq_false in Hmax. }
  destruct (opendir w (str b)) as [es |] eqn:Hes; [| done].
  assert (∀ es', Forall (λ e, e ∈ es) es' →
                 sound w o sc (S k)
                   (foldr (walk_entry w o sc (str b) (len b) (depth b) (repo b))
                      c es')) as Hall.
  { induction 1 as [| e es' He _ IH]; simpl; [done |].
    rewrite Hl. eapply walk_entry_sound; try done. by rewrite <- Hl. }
  apply Hall. by apply Forall_forall.
Qed.

Lemma worker_item_sound w o sc k b :
  wanted w o k b → Z.of_nat k < 2 ^ 31 - 2 →
  sound w o sc (S k) (worker_item w o sc b).
Proof.
  intros Hb Hk. unfold worker_item, foreach_queue_get.
  apply walk_sound; [done | done |]. by repeat constructor.
Qed.

Lemma seed_sound w o sc path k c :
  path ∈ (if bool_decide (roots o = []) then ["."%string] else roots o) →
  sound w o sc k c →
  sound w o sc k (seed w o path (String.length path) c).
Proof.
  intros Hp Hc. unfold seed. constructor. intros r Hr.
  constructor; [| done]. split_and!; simpl; [| done | lia | lia].
  rewrite Hr.
  pose proof (reachable_root w o path Hp) as H.
  by destruct (no_ignore o).
Qed.

Lemma main_sound w o sc : sound w o sc 0 (main w o).
Proof.
  unfold main. constructor.
  assert (∀ n f c, (∀ c, sound w o sc 0 c → sound w o sc 0 (f c)) →
                   sound w o sc 0 c → sound w o sc 0 (repeat_cmd n f c))
    as Hrep.
  { intros n f c Hf Hc. unfold repeat_cmd.
    induction n as [| n IH]; simpl; [done | by apply Hf]. }
  apply Hrep; [by constructor |].
  assert (sound w o sc 0
            (FlagmanWait
               (repeat_cmd (Z.to_nat (nthreads o)) (QueuePutTail None)
                  (join_from 0 (Z.to_nat (nthreads o)) Ret)))) as Hw.
  { constructor. apply Hrep; [by constructor |].
    assert (∀ n i, sound w o sc 0 (join_from i n Ret)) as Hj
      by (induction n as [| n IH]; intros i; simpl; by constructor).
    apply Hj. }
  case_bool_decide as Hroots.
  - rewrite Hroots. simpl.
    apply (seed_sound w o sc "."); [| done].
    rewrite bool_decide_eq_true_2 by done. set_solver.
  - simpl.
    assert (∀ rs, Forall (λ r, r ∈ roots o) rs →
                  sound w o sc 0
                    (foldr (λ arg k, seed w o arg (String.length arg) k)
                       (FlagmanWait
                          (repeat_cmd (Z.to_nat (nthreads o))
                             (QueuePutTail None)
                             (join_from 0 (Z.to_nat (nthreads o)) Ret)))
                       rs)) as Hall.
    { induction 1 as [| r rs Hr _ IH]; simpl; [done |].
      apply seed_sound; [| done]. by rewrite bool_decide_eq_false_2. }
    apply Hall. by apply Forall_forall.
Qed.

Lemma sound_worker_mono w o sc k k' t :
  (k ≤ k')%nat → sound_worker w o sc k t → sound_worker w o sc k' t.
Proof.
  intros Hk. destruct t; simpl; try done.
  intros [-> H]. split; [done | by eapply sound_mono].
Qed.

Lemma faithful_mono w o sc k k' s :
  (k ≤ k')%nat → faithful w o sc k s → faithful w o sc k' s.
Proof.
  intros Hk (Ho & Hm & Hw & Hq). split_and!; [done | by eapply sound_mono | |].
  - eapply Forall_impl; [exact Hw |]. intros t. by apply sound_worker_mono.
  - intros a n Hn b Hb. eapply wanted_mono; [done |]. by eapply Hq.
Qed.

Lemma exec_faithful A w o sc k c s c' s' :
  sound w o sc k c →
  Forall (expected w o sc) (stdout s) →
  map_Forall (λ _ n, ∀ b, msg n = Some b → wanted w o k b) (nodes (q s)) →
  exec A c s = Done (c', s') →
  sound w o sc k c' ∧
  Forall (expected w o sc) (stdout s') ∧
  map_Forall (λ _ n, ∀ b, msg n = Some b → wanted w o k b) (nodes (q s')) ∧
  (workers s' = workers s ∨ workers s' = workers s ++ [Created]).
Proof.
  intros Hc Ho Hq.
  pose (P := λ m : option message_body, ∀ b, m = Some b → wanted w o k b).
  destruct Hc as [| | line c Hl Hc | c Hc | c Hc | c Hc | ni opened r f Hf
                  | ni opened f Hf | b c Hc | b prio c Hb Hc | b c Hb Hc
                  | c Hc | c Hc | i c Hc]; simpl; try done.
  - intros [= <- <-]. simpl. split_and!; try done; [| by left].
    apply Forall_app. split; [done | by constructor].
  - intros [= <- <-]. by split_and!; try done; left.
  - intros [= <- <-]. by split_and!; try done; left.
  - destruct (Flagman.flagman_wait (flagman s)); simpl; [| done | done].
    intros [= <- <-]. by split_and!; try done; left.
  - destruct (child_repo A ni opened r (mem s)) as [[h cr] |] eqn:Hcr;
      simpl; [| done].
    intros [= <- <-]. simpl. split_and!; try done; [| by left].
    apply Hf. by eapply child_repo_ptr.
  - pose proof (root_repo_ptr A ni opened (mem s)) as Hr.
    destruct (root_repo A ni opened (mem s)) as [h r0]. simpl in Hr.
    intros [= <- <-]. simpl. split_and!; try done; [by apply Hf | by left].
  - destruct (free_shared (repo b) (mem s)); simpl; [| done].
    intros [= <- <-]. by split_and!; try done; left.
  - destruct (queue_put A (q s) (Some b) prio) as [q' |] eqn:Hput; simpl;
      [| done].
    intros [= <- <-]. simpl. split_and!; try done; [| by left].
    apply (queue_put_msgs P A (q s) q' (Some b) prio); [done | | done].
    by intros b' [= <-].
  - destruct (queue_put_head A (q s) (Some b)) as [q' |] eqn:Hput; simpl;
      [| done].
    intros [= <- <-]. simpl. split_and!; try done; [| by left].
    apply (queue_put_head_msgs P A (q s) q' (Some b)); [done | | done].
    by intros b' [= <-].
  - destruct (queue_put_tail A (q s) None) as [q' |] eqn:Hput; simpl;
      [| done].
    intros [= <- <-]. simpl. split_and!; try done; [| by left].
    by apply (queue_put_tail_msgs P A (q s) q' None).
  - intros [= <- <-]. simpl. by split_and!; try done; right.
  - destruct (workers s !! i) as [[| | |] |]; try done.
    intros [= <- <-]. by split_and!; try done; left.
Qed.

Lemma step_faithful A w o sc k t s s' :
  worker_setup o = Some sc →
  Z.of_nat k < 2 ^ 31 - 2 →
  faithful w o sc k s →
  step A w o t s = Done s' →
  faithful w o sc (S k) s'.
Proof.
  intros Hsc Hk (Ho & Hm & Hw & Hq).
  assert (k ≤ S k)%nat as Hle by lia.
  destruct t as [| i]; simpl.
  - destruct (exec A (main_thread s) s) as [[c' s1] | |] eqn:Hex; simpl;
      [| done | done].
    intros [= <-].
    destruct (exec_faithful A w o sc k _ _ _ _ Hm Ho Hq Hex)
      as (Hc' & Ho' & Hq' & Hw').
    apply (faithful_mono w o sc k); [done |]. split_and!; simpl; try done.
    destruct Hw' as [-> | ->]; [done |].
    apply Forall_app. split; [done | by constructor].
  - unfold worker_step.
    destruct (workers s !! i) as [t |] eqn:Hi; [| done].
    pose proof (Forall_lookup_1 _ _ _ _ Hw Hi) as Ht.
    destruct t as [| sc' | sc' c |]; simpl in Ht.
    + rewrite Hsc. simpl. intros [= <-].
      apply (faithful_mono w o sc k); [done |]. split_and!; simpl; try done.
      by apply Forall_insert.
    + destruct (queue_get (q s)) as [[m q'] | |] eqn:Hget; simpl;
        [| done | done].
      intros [= <-].
      pose (P := λ m : option message_body, ∀ b, m = Some b → wanted w o k b).
      destruct (queue_get_msgs P (q s) q' m Hq Hget) as [Hm' Hq'].
      split_and!; simpl.
      * done.
      * by eapply sound_mono.
      * apply Forall_insert.
        -- eapply Forall_impl; [exact Hw |]. intros t.
           by apply sound_worker_mono.
        -- destruct m as [b |]; simpl; [| done]. split; [done |].
           rewrite Ht. apply worker_item_sound; [by apply Hm' | done].
      * intros a n Hn b Hb. eapply wanted_mono; [done |]. by eapply Hq'.
    + destruct Ht as [-> Hc].
      assert (∀ x, outcome_bind
                     (λ '(k0, s0),
                        Done (set_workers (<[i := Busy sc k0]> (workers s0))
                                s0))
                     x = Done s' →
                   ∃ k0 s0, x = Done (k0, s0) ∧
                     s' = set_workers (<[i := Busy sc k0]> (workers s0)) s0)
        as Hbind.
      { intros [[k0 s0] | |]; simpl; [| done | done]. intros [= <-]. eauto. }
      assert (∀ k0 s0, exec A c s = Done (k0, s0) →
                       faithful w o sc (S k)
                         (set_workers (<[i := Busy sc k0]> (workers s0)) s0))
        as Hgen.
      { intros k0 s0 Hx.
        destruct (exec_faithful A w o sc k _ _ _ _ Hc Ho Hq Hx)
          as (Hc' & Ho' & Hq' & Hw').
        apply (faithful_mono w o sc k); [done |].
        assert (main_thread s0 = main_thread s) as Hmt.
        { clear -Hx. destruct c; simpl in Hx; try done;
            repeat match type of Hx with
                   | outcome_bind _ ?e = _ => destruct e; simpl in Hx
                   | (let '(_, _) := ?e in _) = _ => destruct e
                   | match ?e with _ => _ end = _ => destruct e
                   end; try done; by injection Hx as _ <-. }
        split_and!; simpl; try done; [by rewrite Hmt |].
        apply Forall_insert; [| done].
        destruct Hw' as [-> | ->]; [done |].
        apply Forall_app. split; [done | by constructor]. }
      destruct c as [| | line c | c | c | c | ni opened r f | ni opened f
                     | b c | b prio c | b c | b c | c | j c];
        try (intros (k0 & s0 & Hx & ->)%Hbind; by apply Hgen).
      intros [= <-].
      apply (faithful_mono w o sc k); [done |]. split_and!; simpl; try done.
      by apply Forall_insert.
    + done.
Qed.

Lemma initial_faithful w o sc : faithful w o sc 0 (initial w o).
Proof.
  split_and!; simpl; [done | apply main_sound | done |].
  apply map_Forall_empty.
Qed.

Lemma run_faithful A w o sc sched s s' k :
  worker_setup o = Some sc →
  faithful w o sc k s →
  Z.of_nat (k + List.length sched) < 2 ^ 31 - 1 →
  run A w o sched s = Done s' →
  faithful w o sc (k + List.length sched) s'.
Proof.
  intros Hsc. revert s k. induction sched as [| t sched IH];
    intros s k Hs Hb Hrun; simpl in Hrun.
  - injection Hrun as <-. simpl. by rewrite Nat.add_0_r.
  - simpl in Hb.
    destruct (step A w o t s) as [s1 | |] eqn:Hstep; [| done | done].
    simpl in Hrun. simpl.
    replace (k + S (List.length sched))%nat
      with (S k + List.length sched)%nat by lia.
    apply (IH s1); [| lia | done].
    eapply step_faithful; [done | lia | done | done].
Qed.

(** X27.  Whatever the roots and the schedule, a run (of fewer than 2^31
    steps) writes expected lines only: every line on the standard output is
    the line of an entry of a reachable directory within the depth limit
    that passes the hidden and the ignore filter, matches the pattern and
    has the type asked for. *)
Theorem only_expected_lines A w o sc sched s :
  worker_setup o = Some sc →
  Z.of_nat (List.length sched) < 2 ^ 31 - 1 →
  run A w o sched (initial w o) = Done s →
  Forall (expected w o sc) (stdout s).
Proof.
  intros Hsc Hb Hrun.
  by destruct (run_faithful A w o sc sched (initial w o) s 0 Hsc
                 (initial_faithful w o sc) Hb Hrun).
Qed.

End OutputFacts.

(** ** Runs with at most one root: what is expected is written *)

Section ProgressFacts.

Import Shared Options FF Queue QueueModel Traces Accounting Output Progress.

Lemma reachable_closed w o (E : task → Prop) :
  (∀ t, root w o t → E t) →
  (∀ t ch, E t → ch ∈ children_of w o t → E ch) →
  ∀ d parent scope, reachable w o d parent scope → E (d, parent, scope).
Proof.
  intros Hroot Hch d parent scope Hr.
  induction Hr as [path Hp | d parent scope es e _ IH Hmax Hes He Hdot Hhid
                                 Hign Hdir].
  - apply Hroot. by exists path.
  - apply (Hch _ _ IH). unfold children_of. simpl.
    apply list_elem_of_omap. exists e. split.
    + unfold listing. rewrite Hes. simpl.
      destruct (bool_decide (0 < max_depth o) && bool_decide (max_depth o ≤ d))
        eqn:Hm; [| done].
      apply andb_true_iff in Hm as [H1%bool_decide_eq_true H2%bool_decide_eq_true].
      by destruct Hmax.
    + unfold entry_child, entered, visible.
      rewrite Hdot, Hhid, Hign. simpl.
      by rewrite bool_decide_eq_true_2.
Qed.

Lemma expected_lines_of w o sc line :
  expected w o sc line →
  ∃ d parent scope, reachable w o d parent scope ∧
                    line ∈ lines_of w o sc (d, parent, scope).
Proof.
  intros (d & parent & scope & es & e & Hr & Hmax & Hes & He & Hdot & Hhid
          & Hign & Hm & Hty & ->).
  exists d, parent, scope. split; [done |].
  unfold lines_of. simpl. apply list_elem_of_omap. exists e. split.
  - unfold listing. rewrite Hes. simpl.
    destruct (bool_decide (0 < max_depth o) && bool_decide (max_depth o ≤ d))
      eqn:Hm'; [| done].
    apply andb_true_iff in Hm' as [H1%bool_decide_eq_true H2%bool_decide_eq_true].
    by destruct Hmax.
  - unfold entry_line, shown, visible.
    rewrite Hdot, Hhid, Hign, Hm, Hty. simpl.
    try rewrite bool_decide_eq_true_2 by done. done.
Qed.

Lemma walk_entry_yields w o sc k parent depth repo e rest L T :
  (∀ name, is_Some (matches w o sc name)) →
  0 ≤ depth ≤ Z.of_nat k → Z.of_nat k < 2 ^ 31 - 2 →
  yields rest L T →
  yields (walk_entry w o sc parent (String.length parent) depth repo e rest)
    (match entry_line w o sc (depth, parent, ptr repo) e with
     | Some line => line :: L
     | None => L
     end)
    (match entry_child w o (depth, parent, ptr repo) e with
     | Some ch => ch :: T
     | None => T
     end).
Proof.
  intros Hm Hd Hk Hrest. unfold walk_entry, entry_line, entry_child, shown,
    entered, visible.
  destruct (is_dot (d_name e)); [done |].
  destruct (skip_hidden o && hidden (d_name e)); [done |].
  destruct (ignored w o (ptr repo) (d_name e)); [done |]. simpl.
  destruct (assemble_exact parent (d_name e)) as [-> _].
  rewrite wrap_int_small by lia.
  set (queue_it := if bool_decide (d_type e = DT_DIR) then _ else rest).
  assert (yields queue_it L
            (if bool_decide (d_type e = DT_DIR)
             then (depth + 1, parent +:+ "/" +:+ d_name e,
                   if no_ignore o then None
                   else match git_repository_open w
                                (parent +:+ "/" +:+ d_name e) with
                        | Some r => Some r
                        | None => ptr repo
                        end) :: T
             else T)) as Hq.
  { unfold queue_it. case_bool_decide as Hdir; [| done].
    constructor. constructor. intros cr Hcr.
    match goal with
    | |- yields (QueuePut ?b _ _) _ (?t :: _) =>
        replace t with (key b); [by constructor |]
    end.
    unfold key. simpl. rewrite Hcr. unfold child_scope.
    by destruct (no_ignore o). }
  clearbody queue_it.
  destruct (Hm (d_name e)) as [[|] ->];
    destruct (bool_decide (d_type e = DT_DIR)); simpl;
    try destruct (type_ok o e); simpl; try done; by apply yields_Puts.
Qed.

Lemma walk_yields w o sc k b c :
  (∀ name, is_Some (matches w o sc name)) →
  wanted w o k b → Z.of_nat k < 2 ^ 31 - 2 →
  yields (walk w o sc (str b) (len b) (depth b) (repo b) c)
    (lines_of w o sc (key b)) (children_of w o (key b)).
Proof.
  intros Hm (_ & Hl & Hd) Hk. unfold walk, foreach_opendir, lines_of,
    children_of, listing. simpl.
  destruct (bool_decide (0 < max_depth o) && bool_decide (max_depth o ≤ depth b));
    [constructor |].
  destruct (opendir w (str b)) as [es |]; simpl; [| constructor].
  rewrite Hl.
  induction es as [| e es IH]; simpl; [constructor |].
  by eapply walk_entry_yields.
Qed.

Lemma worker_item_yields w o sc k b :
  (∀ name, is_Some (matches w o sc name)) →
  wanted w o k b → Z.of_nat k < 2 ^ 31 - 2 →
  yields (worker_item w o sc b)
    (lines_of w o sc (key b)) (children_of w o (key b)).
Proof. intros. unfold worker_item, foreach_queue_get. by eapply walk_yields. Qed.

Lemma seed_yields w o path c T :
  yields c [] T →
  yields (seed w o path (String.length path) c) []
    ((0, path, if no_ignore o then None else git_repository_open_ext w path)
       :: T).
Proof.
  intros Hc. unfold seed. constructor. intros r Hr.
  match goal with
  | |- yields (QueuePutHead ?b _) _ (?t :: _) =>
      replace t with (key b); [by constructor |]
  end.
  unfold key. simpl. rewrite Hr. by destruct (no_ignore o).
Qed.

Lemma main_yields w o :
  ∃ Tm, yields (main w o) [] Tm ∧ ∀ t, root w o t → t ∈ Tm.
Proof.
  exists ((λ path, (0, path, if no_ignore o then None
                             else git_repository_open_ext w path))
            <$> (if bool_decide (roots o = []) then ["."%string] else roots o)).
  split; [| intros t (path & Hp & ->); apply list_elem_of_fmap; by exists path].
  unfold main. constructor.
  assert (∀ n c T, yields c [] T → yields (repeat_cmd n PthreadCreate c) [] T)
    as Hrep.
  { intros n c T Hc. unfold repeat_cmd.
    induction n as [| n IH]; simpl; [done | by constructor]. }
  apply Hrep.
  case_bool_decide as Hroots.
  - rewrite Hroots. simpl. apply (seed_yields w o "."). constructor.
  - simpl. clear Hroots.
    induction (roots o) as [| r rs IH]; simpl; [constructor |].
    by apply seed_yields.
Qed.

Lemma exec_yields A c s c' s' L T :
  yields c L T → exec A c s = Done (c', s') →
  ∃ L' T', yields c' L' T' ∧
           (L = [] → L' = []) ∧
           (∀ line, line ∈ L → line ∈ put_line c ∨ line ∈ L') ∧
           (∀ t, t ∈ T → (∃ b, put_by c = Some b ∧ key b = t) ∨ t ∈ T').
Proof.
  intros Hy Hx.
  destruct Hy as [c | line c L T Hy | c L T Hy | c L T Hy
                  | ni opened r f L T Hy | ni opened f L T Hy
                  | b prio c L T Hy | b c L T Hy].
  - exists [], []. split_and!; [constructor | done | |];
      intros x Hx'; by apply elem_of_nil in Hx'.
  - injection Hx as <- <-. exists L, T. split_and!; try done; try (by auto).
    intros x [-> | Hx']%elem_of_cons; [left; simpl; set_solver | by right].
  - injection Hx as <- <-. exists L, T. split_and!; by auto.
  - injection Hx as <- <-. exists L, T. split_and!; by auto.
  - simpl in Hx.
    destruct (child_repo A ni opened r (mem s)) as [[h cr] |] eqn:Hcr;
      [| done].
    injection Hx as <- <-. exists L, T.
    split_and!; try (by auto). apply Hy. by eapply child_repo_ptr.
  - simpl in Hx. pose proof (root_repo_ptr A ni opened (mem s)) as Hr.
    destruct (root_repo A ni opened (mem s)) as [h r0].
    injection Hx as <- <-. exists L, T.
    split_and!; try (by auto); try (by apply Hy).
  - simpl in Hx. destruct (queue_put A (q s) (Some b) prio); [| done].
    injection Hx as <- <-. exists L, T. split_and!; try (by auto).
    intros t [-> | Ht]%elem_of_cons; [left; by eauto | by right].
  - simpl in Hx. destruct (queue_put_head A (q s) (Some b)); [| done].
    injection Hx as <- <-. exists L, T. split_and!; try (by auto).
    intros t [-> | Ht]%elem_of_cons; [left; by eauto | by right].
Qed.

Lemma exec_stdout A c s c' s' :
  exec A c s = Done (c', s') → stdout s' = stdout s ++ put_line c.
Proof.
  destruct c as [| | line c | c | c | c | ni opened r f | ni opened f | b c
                 | b prio c | b c | b c | c | j c]; simpl; try done;
    repeat match goal with
           | |- outcome_bind _ ?e = _ → _ => destruct e; simpl
           | |- (let '(_, _) := ?e in _) = _ → _ => destruct e
           | |- match ?e with _ => _ end = _ → _ => destruct e
           end; try done; intros [= _ <-]; simpl; by rewrite ?app_nil_r.
Qed.

Lemma exec_main_thread A c s c' s' :
  exec A c s = Done (c', s') → main_thread s' = main_thread s.
Proof.
  destruct c as [| | line c | c | c | c | ni opened r f | ni opened f | b c
                 | b prio c | b c | b c | c | j c]; simpl; try done;
    repeat match goal with
           | |- outcome_bind _ ?e = _ → _ => destruct e; simpl
           | |- (let '(_, _) := ?e in _) = _ → _ => destruct e
           | |- match ?e with _ => _ end = _ → _ => destruct e
           end; try done; by intros [= _ <-].
Qed.

Lemma exec_queue A c s c' s' l :
  (∀ b k, c ≠ QueuePutTail b k) →
  holds (q s) l → length (q s) = List.length l →
  exec A c s = Done (c', s') →
  ∃ l', holds (q s') l' ∧ length (q s') = List.length l' ∧
        (∀ x, x ∈ l → x ∈ l') ∧
        (∀ b, put_by c = Some b → ∃ x, x ∈ l' ∧ payload x = Some b).
Proof.
  intros Hc Hq Hlen.
  destruct c as [| | line c | c | c | c | ni opened r f | ni opened f | b c
                 | b prio c | b c | b c | c | j c]; simpl; try done;
    try (by (repeat match goal with
                    | |- outcome_bind _ ?e = _ → _ => destruct e; simpl
                    | |- (let '(_, _) := ?e in _) = _ → _ => destruct e
                    | |- match ?e with _ => _ end = _ → _ => destruct e
                    end; try done; intros [= _ <-]; simpl; exists l)).
  - destruct (queue_put_holds A (q s) l (Some b) prio Hq)
      as (q' & -> & Hq' & Hlen' & _).
    simpl. intros [= _ <-]. simpl. eexists. split; [exact Hq' |].
    split_and!.
    + rewrite Hlen', Hlen, length_app. simpl.
      rewrite <- (take_drop (S (put_index (tail (q s)) prio l)) l) at 1.
      rewrite length_app. lia.
    + intros x Hin.
      rewrite <- (take_drop (S (put_index (tail (q s)) prio l)) l) in Hin.
      apply elem_of_app in Hin as [H | H]; rewrite elem_of_app, elem_of_cons;
        by auto.
    + intros b' [= <-]. exists (new_item A (q s) prio (Some b)).
      split; [set_solver | done].
  - destruct (queue_put_head_holds A (q s) l (Some b) Hq)
      as (q' & -> & Hq' & Hlen' & _).
    simpl. intros [= _ <-]. simpl. eexists. split; [exact Hq' |].
    split_and!.
    + simpl. by rewrite Hlen', Hlen.
    + set_solver.
    + intros b' [= <-]. exists (new_item A (q s) QUEUE_PRIORITY_MAX (Some b)).
      split; [set_solver | done].
  - by destruct (Hc b c).
Qed.

Lemma known_mono (E E' : task → Prop) l l' gs gs' t :
  (∀ t, E t → known E' l' gs' t) →
  (∀ x b, x ∈ l → payload x = Some b → known E' l' gs' (key b)) →
  (∀ t L T, Some (t, L, T) ∈ gs → known E' l' gs' t) →
  known E l gs t → known E' l' gs' t.
Proof.
  intros HE Hl Hg [H | [(x & b & Hx & Hb & <-) | (L & T & H)]]; by eauto.
Qed.

Lemma attends_mono w o sc E E' l l' gs gs' out out' t g :
  (∀ t, known E l gs t → known E' l' gs' t) →
  (∀ line, line ∈ out → line ∈ out') →
  attends w o sc E l gs out t g → attends w o sc E' l' gs' out' t g.
Proof.
  intros Hk Ho. destruct t as [| sc' | sc' c |], g as [[[tk L] T] |];
    simpl; try done.
  intros (Hy & Hl & Hc). split; [done |]. split.
  - intros line [H | H]%Hl; by auto.
  - intros ch [H | H]%Hc; by auto.
Qed.

Lemma finishing_yields c X L T : finishing c X → yields c L T → L = [] ∧ T = [].
Proof. intros [] Hy; by inversion Hy. Qed.

Lemma elem_of_insert_other {T} (gs : list T) i g0 g1 x :
  gs !! i = Some g0 → x ∈ gs → x = g0 ∨ x ∈ <[i := g1]> gs.
Proof.
  intros Hi (j & Hj)%list_elem_of_lookup_1.
  destruct (decide (j = i)) as [-> | Hne].
  - left. congruence.
  - right. apply (list_elem_of_lookup_2 _ j).
    by rewrite list_lookup_insert_ne.
Qed.

Lemma elem_of_insert_here {T} (gs : list T) i g0 g1 :
  gs !! i = Some g0 → g1 ∈ <[i := g1]> gs.
Proof.
  intros Hi. apply (list_elem_of_lookup_2 _ i).
  apply list_lookup_insert_eq. by eapply lookup_lt_Some.
Qed.

(** A step of the worker [i] that keeps what is known. *)
Lemma worker_update w o sc s s' (E E' : task → Prop) l l' gs Tm i t' g' :
  yields (main_thread s) [] Tm →
  (∀ t, root w o t → known E l gs t ∨ t ∈ Tm) →
  Forall2 (attends w o sc E l gs (stdout s)) (workers s) gs →
  (∀ t, E t →
        (∀ line, line ∈ lines_of w o sc t → line ∈ stdout s) ∧
        (∀ ch, ch ∈ children_of w o t → known E l gs ch)) →
  main_thread s' = main_thread s →
  workers s' = <[i := t']> (workers s) →
  holds (q s') l' → length (q s') = List.length l' →
  (∀ line, line ∈ stdout s → line ∈ stdout s') →
  (∀ t, known E l gs t → known E' l' (<[i := g']> gs) t) →
  attends w o sc E' l' (<[i := g']> gs) (stdout s') t' g' →
  (∀ t, E' t →
        E t ∨
        (∀ line, line ∈ lines_of w o sc t → line ∈ stdout s') ∧
        (∀ ch, ch ∈ children_of w o t → known E' l' (<[i := g']> gs) ch)) →
  expanding w o sc s'.
Proof.
  intros Hym Hroots Hatt HE Hmain Hws Hq Hlen Hout Hknown Hnew HE'.
  exists E', l', (<[i := g']> gs), Tm.
  split_and!; try done.
  - by rewrite Hmain.
  - intros t [H | H]%Hroots; by auto.
  - rewrite Hws. apply Forall2_insert; [| done].
    eapply Forall2_impl; [exact Hatt |].
    intros t g. by apply attends_mono.
  - intros t [Ht | Ht]%HE'; [| done].
    destruct (HE t Ht) as [H1 H2]. split; by auto.
Qed.

Lemma pass_cmd c n X b k :
  pass c n X → c ≠ QueuePutTail b k ∧ c ≠ PthreadCreate k.
Proof. intros [c' X' [] | | | | |]; by split. Qed.

Lemma exec_workers_same A c s c' s' :
  (∀ k, c ≠ PthreadCreate k) →
  exec A c s = Done (c', s') → workers s' = workers s.
Proof.
  intros Hc.
  destruct c as [| | line c | c | c | c | ni opened r f | ni opened f | b c
                 | b prio c | b c | b c | c | j c]; simpl; try done;
    try (by (repeat match goal with
                    | |- outcome_bind _ ?e = _ → _ => destruct e; simpl
                    | |- (let '(_, _) := ?e in _) = _ → _ => destruct e
                    | |- match ?e with _ => _ end = _ → _ => destruct e
                    end; try done; intros [= _ <-])).
  by destruct (Hc c).
Qed.

Lemma step_worker_expanding A w o sc k i s s' :
  worker_setup o = Some sc → Z.of_nat k < 2 ^ 31 - 2 →
  working o k s → faithful w o sc k s → expanding w o sc s →
  step A w o (Worker i) s = Done s' →
  expanding w o sc s'.
Proof.
  intros Hsc Hk (l0 & m & n & X & Y & _ & _ & _ & _ & Hcr & _)
    (Ho & Hms & Hws & Hqn)
    (E & l & gs & Tm & Hq & Hlen & Hym & Hroots & Hatt & HE).
  simpl. unfold worker_step.
  destruct (workers s !! i) as [t |] eqn:Hi; [| done].
  destruct (Forall2_lookup_l _ _ _ _ _ Hatt Hi) as (g & Hgi & Hg).
  pose proof (Forall_lookup_1 _ _ _ _ Hws Hi) as Hsw.
  destruct (credits_lookup _ _ _ _ _ _ Hcr Hi)
    as (n0 & r & X0 & Y0 & Ht & _ & _ & _ & _).
  assert (∀ g' x, x ∈ gs → x = g ∨ x ∈ <[i := g']> gs) as Hother
    by (intros; by eapply elem_of_insert_other).
  assert (∀ g', g' ∈ <[i := g']> gs) as Hhere
    by (intros; by eapply elem_of_insert_here).
  destruct t as [| sc' | sc' c |].
  - rewrite Hsc. simpl. intros [= <-].
    destruct g as [g |]; [done |].
    apply (worker_update w o sc s _ E E l l gs Tm i (Idle sc) None);
      try done; try (intros ? ?; by left).
    intros t. apply known_mono; [by left | right; left; by eauto |].
    intros t0 L T [H | H]%(Hother None); [done |].
    right; right; by eauto.
  - simpl in Hsw. subst sc'.
    destruct g as [g |]; [done |].
    destruct (length (q s)) as [| len] eqn:Hn;
      [by unfold queue_get; rewrite Hn |].
    destruct l as [| x l']; [simpl in Hlen; lia |].
    destruct (queue_get_holds (q s) x l' Hq) as (q' & Hget & Hq' & Hlen' & _);
      [lia |].
    pose (P := λ m : option message_body, ∀ b, m = Some b → wanted w o k b).
    destruct (queue_get_msgs P (q s) q' (payload x) Hqn Hget) as [Hwanted _].
    rewrite Hget. simpl. intros [= <-].
    assert (length q' = List.length l') as Hlen''
      by (rewrite Hlen', Hn; simpl in Hlen; lia).
    destruct (payload x) as [b |] eqn:Hpx.
    + apply (worker_update w o sc s _ E E (x :: l') l' gs Tm i
               (Busy sc (worker_item w o sc b))
               (Some (key b, lines_of w o sc (key b),
                      children_of w o (key b))));
        try done; try (intros ? ?; by left).
      * intros t. apply known_mono; [by left | |].
        -- intros x0 b0 [-> | Hx0]%elem_of_cons Hb0.
           ++ assert (b0 = b) as -> by congruence.
              right; right. by eauto.
           ++ right; left. by eauto.
        -- intros t0 L T [H | H]%(Hother (Some (key b, lines_of w o sc (key b),
                                                  children_of w o (key b))));
             [done |].
           right; right; by eauto.
      * simpl. split_and!; [| by auto | by auto].
        eapply worker_item_yields; [| by apply Hwanted | done].
        intros name. by eapply worker_setup_matches.
    + apply (worker_update w o sc s _ E E (x :: l') l' gs Tm i Exited None);
        try done; try (intros ? ?; by left).
      intros t. apply known_mono; [by left | |].
      * intros x0 b0 [-> | Hx0]%elem_of_cons Hb0; [congruence |].
        right; left. by eauto.
      * intros t0 L T [H | H]%(Hother None); [done |].
        right; right; by eauto.
  - destruct Hsw as [-> Hsound]. destruct Ht as [Hp _].
    destruct g as [[[tk L] T] |]; [| done].
    destruct Hg as (Hy & HL & HT).
    assert (∀ x, outcome_bind
                   (λ '(k0, s0),
                      Done (set_workers (<[i := Busy sc k0]> (workers s0)) s0))
                   x = Done s' →
                 ∃ k0 s0, x = Done (k0, s0) ∧
                   s' = set_workers (<[i := Busy sc k0]> (workers s0)) s0)
      as Hbind.
    { intros [[k0 s0] | |]; simpl; [| done | done]. intros [= <-]. eauto. }
    assert (∀ k0 s0, exec A c s = Done (k0, s0) →
                     expanding w o sc
                       (set_workers (<[i := Busy sc k0]> (workers s0)) s0))
      as Hgen.
    { intros k0 s0 Hx.
      destruct (exec_yields A c s k0 s0 L T Hy Hx)
        as (L' & T' & Hy' & _ & HL' & HT').
      destruct (exec_queue A c s k0 s0 l) as (l' & Hq' & Hlen' & Hsub & Hput);
        [intros b k1; by eapply pass_cmd | done | done | done |].
      pose proof (exec_stdout A c s k0 s0 Hx) as Hout.
      pose proof (exec_main_thread A c s k0 s0 Hx) as Hmain.
      pose proof (exec_workers_same A c s k0 s0) as Hsame.
      rewrite Hsame; [| intros k1; by eapply (pass_cmd c n0 X0 (Some (message_body_new 0 0 "" {| ptr := None; refcnt := None |}))) | done].
      assert (∀ t, known E l gs t →
                   known E l' (<[i := Some (tk, L', T')]> gs) t) as Hmono.
      { intros t. apply known_mono; [by left | |].
        - intros x0 b0 Hx0 Hb0. right; left. exists x0, b0.
          split_and!; [by apply Hsub | done | done].
        - intros t0 L0 T0 [H | H]%(Hother (Some (tk, L', T'))).
          + injection H as -> -> ->. right; right. by eauto.
          + right; right; by eauto. }
      apply (worker_update w o sc s _ E E l l' gs Tm i (Busy sc k0)
               (Some (tk, L', T'))); try done; try (intros ? ?; by left).
      - simpl. rewrite Hout. intros line Hline. apply elem_of_app. by left.
      - simpl. split_and!; [done | |].
        + intros line [H | H]%HL.
          * left. rewrite Hout. apply elem_of_app. by left.
          * destruct (HL' line H) as [H' | H']; [| by right].
            left. rewrite Hout. apply elem_of_app. by right.
        + intros ch [H | H]%HT; [left; by apply Hmono |].
          destruct (HT' ch H) as [(b & Hb & <-) | H']; [| by right].
          left. destruct (Hput b Hb) as (x & Hx' & Hpx).
          right; left. by eauto. }
    destruct c as [| | line c | c | c | c | ni opened r' f | ni opened f
                   | b c | b prio c | b c | b c | c | j c];
      try (intros (k0 & s0 & Hx & ->)%Hbind; by apply Hgen).
    intros [= <-].
    assert (L = [] ∧ T = []) as [-> ->] by (by inversion Hy).
    apply (worker_update w o sc s _ E (λ t, E t ∨ t = tk) l l gs Tm i
             (Idle sc) None); try done.
    + intros t. apply known_mono; [by left; left | right; left; by eauto |].
      intros t0 L0 T0 [H | H]%(Hother None).
      * injection H as -> -> ->. left. by right.
      * right; right; by eauto.
    + intros t [Ht | ->]; [by left | right]. split.
      * intros line [H | H]%HL; [done | by apply elem_of_nil in H].
      * intros ch [H | H]%HT; [| by apply elem_of_nil in H].
        revert H. apply known_mono; [by left; left | right; left; by eauto |].
        intros t0 L0 T0 [H | H]%(Hother None).
        -- injection H as -> -> ->. left. by right.
        -- right; right; by eauto.
  - done.
Qed.

Lemma exec_workers_cases A c s c' s' :
  exec A c s = Done (c', s') →
  workers s' = workers s ∨ workers s' = workers s ++ [Created].
Proof.
  destruct c as [| | line c | c | c | c | ni opened r f | ni opened f | b c
                 | b prio c | b c | b c | c | j c]; simpl; try done;
    repeat match goal with
           | |- outcome_bind _ ?e = _ → _ => destruct e; simpl
           | |- (let '(_, _) := ?e in _) = _ → _ => destruct e
           | |- match ?e with _ => _ end = _ → _ => destruct e
           end; try done; intros [= _ <-]; simpl; by auto.
Qed.

Lemma driver_not_winding c m nw nw' X : driver c m nw X → winding nw' c → False.
Proof. intros Hd Hw. destruct Hd; inversion Hw. Qed.

Lemma credits_zero o ts Y i t :
  credits o ts 0 Y → ts !! i = Some t → ∃ X, credit_of o t 0 X.
Proof.
  intros Hc Hi.
  destruct (credits_lookup _ _ _ _ _ _ Hc Hi)
    as (n0 & r & X0 & Y0 & Ht & H0 & Hr & _).
  pose proof (credit_of_nonneg _ _ _ _ Ht).
  assert (n0 = 0) as -> by lia. by eauto.
Qed.

(** When [main] passes [flagman_wait], every expected line has been
    written. *)
Lemma wait_complete w o sc k s c :
  working o k s → expanding w o sc s →
  main_thread s = FlagmanWait c → flagman s = 0 →
  complete w o sc s.
Proof.
  intros (l0 & m & n & X & Y & Hd & _ & Hlen0 & _ & Hcr & Hf & _)
    (E & l & gs & Tm & Hq & Hlen & Hym & Hroots & Hatt & HE) Hmain H0.
  pose proof (credits_nonneg _ _ _ _ Hcr).
  pose proof (driver_nonneg _ _ _ _ Hd).
  assert (l = []) as ->.
  { destruct l; [done |]. simpl in Hlen. lia. }
  assert (n = 0) as -> by lia.
  assert (Tm = []) as ->.
  { rewrite Hmain in Hym. by inversion Hym. }
  pose (E' := λ t : task, E t ∨ ∃ L T, Some (t, L, T) ∈ gs).
  assert (∀ t, known E [] gs t → E' t) as Hk.
  { intros t [H' | [(x & b & Hx & _) | H']]; [by left | | by right].
    by apply elem_of_nil in Hx. }
  assert (∀ t, E' t →
               (∀ line, line ∈ lines_of w o sc t → line ∈ stdout s) ∧
               (∀ ch, ch ∈ children_of w o t → E' ch)) as Hclosed.
  { intros t [Ht | (L & T & (j & Hj)%list_elem_of_lookup_1)].
    - destruct (HE t Ht) as [Ha Hb]. split; by auto.
    - destruct (Forall2_lookup_r _ _ _ _ _ Hatt Hj) as (wt & Hwt & Ha).
      destruct (credits_zero _ _ _ _ _ Hcr Hwt) as [X' Hc'].
      destruct wt as [| sc' | sc' c' |]; try done.
      destruct Ha as (Hy & HL & HT). destruct Hc' as [Hp _].
      inversion Hp as [c0 X0 Hfin | | | | |]; subst.
      destruct (finishing_yields _ _ _ _ Hfin Hy) as [-> ->].
      split.
      + intros line [H' | H']%HL; [done | by apply elem_of_nil in H'].
      + intros ch [H' | H']%HT; [by apply Hk | by apply elem_of_nil in H']. }
  intros line (d & parent & scope & Hr & Hline)%expected_lines_of.
  apply (Hclosed (d, parent, scope)); [| done].
  apply (reachable_closed w o E'); [| | done].
  - intros t [H' | H']%Hroots; [by apply Hk | by apply elem_of_nil in H'].
  - intros t ch Ht Hch. by apply (Hclosed t).
Qed.

Lemma main_update A w o sc s c' s1 :
  expanding w o sc s →
  (∀ b k, main_thread s ≠ QueuePutTail b k) →
  exec A (main_thread s) s = Done (c', s1) →
  expanding w o sc (set_main c' s1).
Proof.
  intros (E & l & gs & Tm & Hq & Hlen & Hym & Hroots & Hatt & HE) Hnt Hx.
  destruct (exec_yields A _ s c' s1 [] Tm Hym Hx)
    as (L' & T' & Hy' & HL0 & _ & HT').
  rewrite (HL0 eq_refl) in Hy'.
  destruct (exec_queue A _ s c' s1 l Hnt Hq Hlen Hx)
    as (l' & Hq' & Hlen' & Hsub & Hput).
  pose proof (exec_stdout A _ s c' s1 Hx) as Hout.
  assert (∀ line, line ∈ stdout s → line ∈ stdout s1) as Hout'
    by (intros line Hline; rewrite Hout; apply elem_of_app; by left).
  assert (∀ gs', (∀ x, x ∈ gs → x ∈ gs') →
                 ∀ t, known E l gs t → known E l' gs' t) as Hmono.
  { intros gs' Hgs t. apply known_mono; [by left | |].
    - intros x b Hx' Hb. right; left. exists x, b.
      split_and!; [by apply Hsub | done | done].
    - intros t0 L T Hin. right; right. exists L, T. by apply Hgs. }
  assert (∀ gs', (∀ x, x ∈ gs → x ∈ gs') →
                 Forall2 (attends w o sc E l' gs' (stdout s1)) (workers s) gs)
    as Hatt'.
  { intros gs' Hgs. eapply Forall2_impl; [exact Hatt |].
    intros t g. apply attends_mono; [by apply Hmono | done]. }
  assert (∀ gs', (∀ x, x ∈ gs → x ∈ gs') →
                 Forall2 (attends w o sc E l' gs' (stdout s1)) (workers s1) gs' →
                 expanding w o sc (set_main c' s1)) as Hfin.
  { intros gs' Hgs Hall. exists E, l', gs', T'. simpl.
    split_and!; try done.
    - intros t [H | H]%Hroots; [left; by apply (Hmono gs') |].
      destruct (HT' t H) as [(b & Hb & <-) | H']; [| by right].
      left. destruct (Hput b Hb) as (x & Hx' & Hpx).
      right; left. by eauto.
    - intros t Ht. destruct (HE t Ht) as [Ha Hb]. split; [by auto |].
      intros ch Hch. by apply (Hmono gs'), Hb. }
  destruct (exec_workers_cases A _ s c' s1 Hx) as [Hws | Hws].
  - apply (Hfin gs); [done |]. rewrite Hws. by apply Hatt'.
  - apply (Hfin (gs ++ [None]));
      [intros x Hin; apply elem_of_app; by left |].
    rewrite Hws. apply Forall2_app; [| by repeat constructor].
    apply Hatt'. intros x Hin. apply elem_of_app. by left.
Qed.

Lemma step_stdout A w o t s s' :
  step A w o t s = Done s' → ∀ line, line ∈ stdout s → line ∈ stdout s'.
Proof.
  assert (∀ c k0 s0, exec A c s = Done (k0, s0) →
                     ∀ line, line ∈ stdout s → line ∈ stdout s0) as Hex.
  { intros c k0 s0 Hx line Hline. rewrite (exec_stdout A c s k0 s0 Hx).
    apply elem_of_app. by left. }
  destruct t as [| i]; simpl.
  - destruct (exec A (main_thread s) s) as [[c' s1] | |] eqn:Hx; simpl;
      [| done | done].
    intros [= <-]. simpl. by eapply Hex.
  - unfold worker_step.
    destruct (workers s !! i) as [[| sc | sc c |] |]; try done.
    + destruct (worker_setup o); simpl; [| done]. by intros [= <-].
    + destruct (queue_get (q s)) as [[m q'] | |]; simpl; [| done | done].
      by intros [= <-].
    + destruct c as [| | line c | c | c | c | ni opened r f | ni opened f
                     | b c | b prio c | b c | b c | c | j c];
        try (by intros [= <-]);
        match goal with
        | |- outcome_bind _ ?e = _ → _ =>
            destruct e as [[k0 s0] | |] eqn:Hx; simpl; [| done | done]
        end; intros [= <-]; simpl; by eapply Hex.
Qed.

(** What a run keeps: the accounting, that what is written and queued is
    expected, and either what is known of the traversal or that its output
    is complete. *)
Lemma step_progress A w o sc k t s s' :
  (List.length (roots o) ≤ 1)%nat →
  worker_setup o = Some sc → Z.of_nat k < 2 ^ 31 - 2 →
  faithful w o sc k s →
  (working o k s ∧ expanding w o sc s) ∨
  (accounted o k s ∧ complete w o sc s) →
  step A w o t s = Done s' →
  (working o (S k) s' ∧ expanding w o sc s') ∨
  (accounted o (S k) s' ∧ complete w o sc s').
Proof.
  intros Hr Hsc Hk Hfa [[Hwk Hex] | [Hacc Hco]] Hstep.
  - destruct t as [| i].
    + pose proof (step_main_working A w o s k Hwk Hk) as H.
      rewrite Hstep in H. destruct H as [[Hwk' Hnw] | [Hte (c & Hm & H0 & Hout)]].
      * left. split; [done |].
        simpl in Hstep.
        destruct (exec A (main_thread s) s) as [[c' s1] | |] eqn:Hx;
          simpl in Hstep; [| done | done].
        injection Hstep as <-.
        apply (main_update A w o sc s c' s1 Hex); [| done].
        intros b k0 Hm'.
        destruct Hwk as (l0 & m & n & X & Y & Hd & _).
        rewrite Hm' in Hd. inversion Hd.
      * right. split; [by right |].
        intros line Hline. rewrite Hout.
        by apply (wait_complete w o sc k s c).
    + left. split.
      * pose proof (step_worker_working A w o i s k (mk_is_Some _ _ Hsc) Hwk Hk)
          as H.
        by rewrite Hstep in H.
      * by eapply step_worker_expanding.
  - right. split.
    + pose proof (step_accounted A w o t s k (mk_is_Some _ _ Hsc) Hacc Hk) as H.
      by rewrite Hstep in H.
    + intros line Hline. eapply step_stdout; [done |]. by apply Hco.
Qed.

Lemma initial_expanding w o sc : expanding w o sc (initial w o).
Proof.
  destruct (main_yields w o) as (Tm & Hy & Hroots).
  exists (λ _, False), [], [], Tm. simpl.
  split_and!; [apply holds_queue_new | done | done | by auto | done | done].
Qed.

Lemma run_progress A w o sc sched s s' k :
  (List.length (roots o) ≤ 1)%nat →
  worker_setup o = Some sc →
  faithful w o sc k s →
  (working o k s ∧ expanding w o sc s) ∨
  (accounted o k s ∧ complete w o sc s) →
  Z.of_nat (k + List.length sched) < 2 ^ 31 - 1 →
  run A w o sched s = Done s' →
  (working o (k + List.length sched) s' ∧ expanding w o sc s') ∨
  (accounted o (k + List.length sched) s' ∧ complete w o sc s').
Proof.
  intros Hr Hsc. revert s k. induction sched as [| t sched IH];
    intros s k Hfa Hs Hb Hrun; simpl in Hrun.
  - injection Hrun as <-. simpl. by rewrite Nat.add_0_r.
  - simpl in Hb.
    destruct (step A w o t s) as [s1 | |] eqn:Hstep; [| done | done].
    simpl in Hrun. simpl.
    replace (k + S (List.length sched))%nat
      with (S k + List.length sched)%nat by lia.
    apply (IH s1); [| | lia | done].
    + eapply step_faithful; [done | lia | done | done].
    + eapply step_progress; [done | done | lia | done | done | done].
Qed.

(** X28.  Once [main] has passed [flagman_wait] on a run with at most one
    root (so, when the process has ended), the lines written are the
    expected lines: every entry of a reachable directory that passes the
    filters has its line on the standard output, and no other line is
    there. *)
Theorem single_root_output A w o sc sched s :
  (List.length (roots o) ≤ 1)%nat →
  worker_setup o = Some sc →
  Z.of_nat (List.length sched) < 2 ^ 31 - 1 →
  run A w o sched (initial w o) = Done s →
  winding (List.length (workers s)) (main_thread s) →
  ∀ line, line ∈ stdout s ↔ expected w o sc line.
Proof.
  intros Hr Hsc Hb Hrun Hw line. split.
  - intros Hline.
    destruct (run_faithful A w o sc sched (initial w o) s 0 Hsc
                (initial_faithful w o sc) Hb Hrun) as [H _].
    by apply (proj1 (Forall_forall _ _) H).
  - destruct (run_progress A w o sc sched (initial w o) s 0 Hr Hsc
                (initial_faithful w o sc)) as [[Hwk _] | [_ Hco]];
      [left; split; [by apply initial_working | apply initial_expanding]
      | done | done | | by apply Hco].
    destruct Hwk as (l0 & m & n & X & Y & Hd & _).
    by destruct (driver_not_winding _ _ _ _ _ Hd Hw).
Qed.

End ProgressFacts.

(** ** Concrete instances *)

Section Witnesses.

Import Shared Options FF Queue QueueModel OptionsModel Traces Accounting Output Progress Inputs.

Lemma holds_one_node : holds Runs.one_node [Runs.one_item].
Proof.
  split_and!; [| repeat constructor; set_solver | done].
  simpl. split; [done |]. exists None. split; [| done].
  apply lookup_singleton_eq.
Qed.

Lemma queue_get_list_witness :
  length Runs.one_node ≠ 0%nat ∧
  ∃ q', queue_get Runs.one_node = Done (Some "m"%string, q') ∧
        holds q' [] ∧ length q' = 0%nat.
Proof.
  split; [done |].
  destruct (queue_get_list Runs.one_node Runs.one_item [] holds_one_node)
    as [_ H].
  destruct (H ltac:(done)) as (q' & Hq & Hh & Hl & _).
  exists q'. by split_and!.
Defined.

Lemma queue_put_head_list_witness :
  ∃ q', queue_put_head first_fit Runs.one_node (Some "n"%string) = Some q' ∧
        holds q' [new_item first_fit Runs.one_node QUEUE_PRIORITY_MAX
                    (Some "n"%string); Runs.one_item] ∧
        length q' = 2%nat ∧ tail q' = Some 0%nat.
Proof.
  destruct (queue_put_head_list first_fit Runs.one_node [Runs.one_item]
              (Some "n"%string) holds_one_node)
    as (q' & Hq & Hh & _ & Hl & Ht).
  exists q'. by split_and!.
Defined.

Lemma queue_put_list_witness :
  ∃ q', queue_put first_fit Runs.one_node (Some "n"%string) 9 = Some q' ∧
        holds q' [Runs.one_item;
                  new_item first_fit Runs.one_node 9 (Some "n"%string)] ∧
        head q' = Some 0%nat ∧ tail q' = Some 0%nat.
Proof.
  destruct (queue_put_list first_fit Runs.one_node [Runs.one_item]
              (Some "n"%string) 9 holds_one_node)
    as (q' & l' & Hq & Hh & -> & _ & Hhd & _ & Ht).
  exists q'. split_and!; [done | done | by apply Hhd | done].
Defined.

Lemma queue_put_tail_list_witness :
  ([Runs.one_item] !! 0%nat = Some Runs.one_item ∧
   tail Runs.one_node = Some (addr Runs.one_item)) ∧
  ∃ q', queue_put_tail first_fit Runs.one_node (Some "n"%string) = Some q' ∧
        holds q' [Runs.one_item;
                  new_item first_fit Runs.one_node QUEUE_PRIORITY_MIN
                    (Some "n"%string)] ∧
        length q' = 2%nat.
Proof.
  split; [done |].
  destruct (queue_put_tail_list first_fit Runs.one_node [Runs.one_item]
              (Some "n"%string) 0 holds_one_node)
    as (q' & Hq & Hh & Hl & _); [by exists Runs.one_item |].
  exists q'. by split_and!.
Defined.

Lemma queue_put_head_get_witness :
  ∃ q', queue_put_head first_fit Runs.one_node (Some "n"%string) = Some q' ∧
        queue_get q' = Done (Some "n"%string, Runs.one_node).
Proof.
  eexists. split; [reflexivity |].
  by apply (queue_put_head_get first_fit Runs.one_node).
Defined.

Lemma make_shared_copy_free_shared_witness :
  (refcnt opened_handle = Some 0%nat ∧
   cells opened_heap !! 0%nat = Some 1) ∧
  (make_shared_copy opened_handle opened_heap
     ≫= λ '(h', s'), free_shared s' h') = Some opened_heap.
Proof.
  split; [done |].
  by apply (make_shared_copy_free_shared opened_handle 0%nat opened_heap 1).
Defined.

Lemma child_repo_free_shared_witness :
  ∃ h' s' h'',
    child_repo first_fit false (Some 9%nat) opened_handle opened_heap
    = Some (h', s') ∧
    free_shared s' h' = Some h'' ∧
    cells h'' = cells opened_heap ∧
    freed_repos h'' = [9%nat].
Proof.
  by apply (child_repo_free_shared first_fit false (Some 9%nat) opened_handle
              0%nat opened_heap 1).
Defined.

Lemma flags_accumulate_witness :
  ∃ st1, option_loop tree_libc [short "i"; short "H"; short "i"] start
         = Continue st1 ∧
         icase (opt st1) = true ∧ skip_hidden (opt st1) = false ∧
         no_ignore (opt st1) = false ∧ stderr st1 = [].
Proof.
  eexists. split; [reflexivity |].
  destruct (flags_accumulate tree_libc [short "i"; short "H"; short "i"]
              start _ eq_refl) as (H1 & H2 & H3 & _ & _ & H6).
  by split_and!.
Defined.

Lemma parse_options_mode_witness :
  ∃ st', parse_options tree_libc [short "i"] ["readme"; "t"]%string start
         = Return OPTIONS_SUCCESS st' ∧
         mode (opt st') = REGEX ∧
         match_ (opt st') = Re (regex_compile "readme" true) ∧
         is_Some (worker_setup (opt st')).
Proof.
  eexists. split; [reflexivity |].
  destruct (parse_options_mode tree_libc [short "i"] ["readme"; "t"]%string
              start _ eq_refl eq_refl) as [[H1 H2] H3].
  by split_and!.
Defined.


Lemma parse_options_roots_witness :
  ∃ st', parse_options Runs.all_dirs_libc [] [""; "b//"; "t/"]%string start
         = Return OPTIONS_SUCCESS st' ∧
         roots (opt st') = ["b"; "t"]%string ∧ nthreads (opt st') ≠ 0.
Proof.
  eexists. split; [reflexivity |].
  destruct (parse_options_roots Runs.all_dirs_libc [] [""; "b//"; "t/"]%string
              start _ eq_refl) as (H1 & _ & _ & H4).
  split; [exact H1 | by apply H4].
Defined.

Lemma walk_b_performs :
  performs (walk tree Runs.one_root no_scratch "b" 1 0 Runs.handle_b Ret)
    Runs.walk_b.
Proof. vm_compute. repeat constructor. Qed.

Lemma walk_b_files_performs :
  performs
    (walk tree (set_only_type DT_REG Runs.one_root) no_scratch "b" 1 0
       Runs.handle_b Ret)
    Runs.queue_x.
Proof. vm_compute. repeat constructor. Qed.

Lemma walk_b_any_performs :
  performs
    (walk tree (set_only_type DT_UNKNOWN Runs.one_root) no_scratch "b" 1 0
       Runs.handle_b Ret)
    Runs.walk_b.
Proof. vm_compute. repeat constructor. Qed.

Lemma walk_b_regex_performs :
  performs
    (walk tree Runs.regex_b Runs.regex_scratch "b" 1 0 Runs.handle_b Ret)
    Runs.queue_x.
Proof. vm_compute. repeat constructor. Qed.

Lemma main_b_performs : performs (main tree Runs.one_root) Runs.main_b.
Proof. vm_compute. repeat constructor. Qed.

Lemma walk_prints_witness :
  worker_setup Runs.one_root = Some no_scratch ∧
  printed Runs.walk_b = ["b/x"%string].
Proof.
  split; [reflexivity |].
  destruct (walk_prints tree Runs.one_root no_scratch "b" 1 0 Runs.handle_b
              eq_refl) as [_ H].
  rewrite (H Runs.walk_b walk_b_performs). reflexivity.
Defined.

Lemma walk_queues_witness :
  worker_setup Runs.one_root = Some no_scratch ∧
  queued Runs.walk_b = [("b/x"%string, 3%nat, 1, 1)].
Proof.
  split; [reflexivity |].
  destruct (walk_queues tree Runs.one_root no_scratch "b" 1 0 Runs.handle_b
              Runs.walk_b eq_refl walk_b_performs) as [H _].
  rewrite H. reflexivity.
Defined.

Lemma type_filter_narrows_witness :
  printed Runs.queue_x `sublist_of` printed Runs.walk_b ∧
  queued Runs.queue_x = queued Runs.walk_b.
Proof.
  apply (type_filter_narrows tree Runs.one_root no_scratch DT_REG "b" 1 0
           Runs.handle_b Runs.queue_x Runs.walk_b eq_refl
           walk_b_files_performs walk_b_any_performs).
Defined.

Lemma walk_queues_whatever_matches_witness :
  (worker_setup Runs.one_root = Some no_scratch ∧
   worker_setup Runs.regex_b = Some Runs.regex_scratch) ∧
  queued Runs.walk_b = queued Runs.queue_x.
Proof.
  split; [split; reflexivity |].
  apply (walk_queues_whatever_matches tree Runs.one_root Runs.regex_b
           no_scratch Runs.regex_scratch "b" 1 0 Runs.handle_b
           Runs.walk_b Runs.queue_x eq_refl eq_refl eq_refl eq_refl eq_refl
           walk_b_performs walk_b_regex_performs).
Defined.

Lemma walk_queues_lengths_witness :
  Forall (λ x, (∃ name, x.1.1.1 = "b" +:+ "/" +:+ name) ∧
               x.1.1.2 = String.length x.1.1.1) (queued Runs.walk_b).
Proof.
  apply (walk_queues_lengths tree Runs.one_root no_scratch "b" 0 Runs.handle_b
           Runs.walk_b eq_refl walk_b_performs).
Defined.

Lemma main_performs_witness :
  ∃ ss,
    List.length ss = 1%nat ∧
    Runs.main_b
    = EFlagmanAcquire
      :: [EPthreadCreate]
      ++ concat (zip_with (seed_events tree Runs.one_root) ss ["b"%string])
      ++ EFlagmanWait :: [EQueuePutTail None] ++ [EPthreadJoin 0].
Proof.
  apply (main_performs tree Runs.one_root Runs.main_b main_b_performs).
Defined.

Lemma run_work_schedule :
  run first_fit tree Runs.one_root Runs.work_schedule
    (initial tree Runs.one_root)
  = Done (Runs.state_after Runs.work_schedule).
Proof. vm_compute. reflexivity. Qed.

Lemma run_full_schedule :
  run first_fit tree Runs.one_root Runs.full_schedule
    (initial tree Runs.one_root)
  = Done (Runs.state_after Runs.full_schedule).
Proof. vm_compute. reflexivity. Qed.

Lemma step_takes_terminator :
  step first_fit tree Runs.one_root (Worker 0)
    (Runs.state_after Runs.work_schedule)
  = Done (Runs.state_after (Runs.work_schedule ++ [Worker 0])).
Proof. vm_compute. reflexivity. Qed.

Lemma one_root_setup : worker_setup Runs.one_root = Some no_scratch.
Proof. reflexivity. Qed.

Lemma single_root_accounted_witness :
  (List.length (roots Runs.one_root) ≤ 1)%nat ∧
  accounted Runs.one_root (List.length Runs.work_schedule)
    (Runs.state_after Runs.work_schedule) ∧
  0 ≤ flagman (Runs.state_after Runs.work_schedule).
Proof.
  split; [vm_compute; lia |].
  apply (single_root_accounted first_fit tree Runs.one_root Runs.work_schedule);
    [vm_compute; lia | by eexists | reflexivity | exact run_work_schedule].
Defined.

Lemma single_root_no_fault_witness :
  step first_fit tree Runs.one_root Main (Runs.state_after Runs.work_schedule)
  ≠ Fault ∧
  ∀ i, is_Some (workers (Runs.state_after Runs.work_schedule) !! i) →
       step first_fit tree Runs.one_root (Worker i)
         (Runs.state_after Runs.work_schedule) ≠ Fault.
Proof.
  apply (single_root_no_fault first_fit tree Runs.one_root Runs.work_schedule);
    [vm_compute; lia | by eexists | reflexivity | exact run_work_schedule].
Defined.

Lemma single_root_no_leak_witness :
  finished (Runs.state_after Runs.full_schedule) ∧
  cells (mem (Runs.state_after Runs.full_schedule)) = ∅ ∧
  flagman (Runs.state_after Runs.full_schedule) = 0.
Proof.
  assert (finished (Runs.state_after Runs.full_schedule)) as Hfin
    by (split; [reflexivity | vm_compute; by repeat constructor]).
  split; [exact Hfin |].
  destruct (single_root_no_leak first_fit tree Runs.one_root
              Runs.full_schedule (Runs.state_after Runs.full_schedule))
    as (H1 & H2 & _);
    [vm_compute; lia | by eexists | reflexivity | exact run_full_schedule
     | exact Hfin |].
  by split.
Defined.

Lemma terminator_taken_after_wait_witness :
  workers (Runs.state_after (Runs.work_schedule ++ [Worker 0])) !! 0%nat
  = Some Exited ∧
  terminating Runs.one_root (List.length Runs.work_schedule)
    (Runs.state_after Runs.work_schedule).
Proof.
  split; [reflexivity |].
  apply (terminator_taken_after_wait first_fit tree Runs.one_root
           Runs.work_schedule (Runs.state_after Runs.work_schedule) 0
           (Runs.state_after (Runs.work_schedule ++ [Worker 0])));
    [vm_compute; lia | by eexists | reflexivity | exact run_work_schedule
     | exact step_takes_terminator | reflexivity].
Defined.

Lemma only_expected_lines_witness :
  stdout (Runs.state_after Runs.full_schedule) = ["b/x"; "b/x/f"]%string ∧
  Forall (expected tree Runs.one_root no_scratch)
    (stdout (Runs.state_after Runs.full_schedule)).
Proof.
  split; [reflexivity |].
  apply (only_expected_lines first_fit tree Runs.one_root no_scratch
           Runs.full_schedule);
    [reflexivity | reflexivity | exact run_full_schedule].
Defined.

Lemma single_root_output_witness :
  stdout (Runs.state_after Runs.full_schedule) = ["b/x"; "b/x/f"]%string ∧
  ∀ line, line ∈ stdout (Runs.state_after Runs.full_schedule)
          ↔ expected tree Runs.one_root no_scratch line.
Proof.
  split; [reflexivity |].
  apply (single_root_output first_fit tree Runs.one_root no_scratch
           Runs.full_schedule);
    [vm_compute; lia | reflexivity | reflexivity | exact run_full_schedule |].
  change (main_thread (Runs.state_after Runs.full_schedule)) with Ret.
  constructor.
Defined.

End Witnesses.
